(** * Seat reservations over a quorum store: booking, transfer, health check

    A shallow embedding of [CassandraReservationSystem] (src/main.py):
    [make_reservation] (Book), [update_reservation] (Transfer) and
    [check_cluster_health] (CheckHealth), as programs over the calls they make
    to the store session, the wall clock and [time.sleep].  The store itself is
    an external collaborator; its behaviour is modelled from the text of the
    prepared CQL statements ([IF NOT EXISTS], [IF user_id = ?]).

    Calls to [print] have no effect on any result and are left out.

    Beside the three methods the development covers [movie_exists] and
    [user_exists], and the way the stress tests call the methods: calls made
    one after the other under the coordination lock, pools of concurrent
    bookings (the rapid-fire test and its worker, the seat race and its list
    of seats), and pools of bookings and transfers of several users.  The
    listing of the reservations ([list_all_reservations], [get_user_by_id])
    and the loading of the schema ([run_cql_file], [reset_cassandra]) are
    programs over a session that is known by its answers alone. *)

From Stdlib Require Import ZArith QArith Qabs SpecFloat String Ascii List Lia.
From stdpp Require Import base decidable option list strings pretty gmap.

Local Open Scope string_scope.
Local Open Scope list_scope.

(** ** Values exchanged with the store *)

(** [uuid.UUID] values are 128-bit numbers; only their identity matters. *)
Definition uuid := N.

(** [datetime.datetime] values, as microseconds on the wall clock. *)
Definition datetime := Z.

(** One row of a result set.  A conditional (lightweight-transaction) statement
    answers with a single row carrying the [[applied]] column. *)
Inductive Row : Type :=
| MovieRow (name : string)
| UserRow (id : uuid)
| ReservationRow (user_id : uuid) (creation : datetime)
| AppliedRow (applied : bool)
| LocalRow (key : string)
| PeerRow (peer rpc_address : string).

Definition ResultSet := list Row.

(** The prepared statements of [_prepare_statements] with their bound
    parameters, and the two plain queries of [check_cluster_health]. *)
Inductive Statement : Type :=
| reservation_insert_stmt (movie_name : string) (user_id : uuid) (seat : string)
                          (creation modification : datetime)
| reservation_check_stmt (movie_name seat : string)
| reservation_delete_stmt (movie_name seat : string) (user_id : uuid)
| movie_check_stmt (name : string)
| user_check_by_id_stmt (id : uuid)
| select_system_local
| select_system_peers.

(** What [session.execute] gives back: a result set, or an exception, which the
    code only ever inspects through [str(e)]. *)
Inductive Reply : Type :=
| Returned (rs : ResultSet)
| Raised (e : string).

(** ** Programs *)

(** A method body is a tree of the external calls it makes; each call carries
    the rest of the body as a function of the call's answer. *)
Inductive Prog (A : Type) : Type :=
| Ret (a : A)
| Raise (e : string)
| Exec (s : Statement) (k : Reply -> Prog A)
| Now (k : datetime -> Prog A)
| Sleep (seconds : Q) (k : Prog A).

Arguments Ret {A} a.
Arguments Raise {A} e.
Arguments Exec {A} s k.
Arguments Now {A} k.
Arguments Sleep {A} seconds k.

Fixpoint bind {A B} (p : Prog A) (f : A -> Prog B) : Prog B :=
  match p with
  | Ret a => f a
  | Raise e => Raise e
  | Exec s k => Exec s (fun r => bind (k r) f)
  | Now k => Now (fun t => bind (k t) f)
  | Sleep d k => Sleep d (bind k f)
  end.

(** [try: p  except Exception as e: h e] *)
Fixpoint try_except {A} (p : Prog A) (h : string -> Prog A) : Prog A :=
  match p with
  | Ret a => Ret a
  | Raise e => h e
  | Exec s k => Exec s (fun r => try_except (k r) h)
  | Now k => Now (fun t => try_except (k t) h)
  | Sleep d k => Sleep d (try_except k h)
  end.

Declare Scope prog_scope.
Delimit Scope prog_scope with prog.
Notation "x <- p ;; q" := (bind p (fun x => q))
  (at level 100, p at next level, right associativity) : prog_scope.
Notation "p ;;; q" := (bind p (fun _ => q))
  (at level 100, right associativity) : prog_scope.
Notation "'try' p 'except' h" := (try_except p h)
  (at level 100, p at next level, h at next level) : prog_scope.
Local Open Scope prog_scope.

(** [self.session.execute(stmt, params)] *)
Definition execute (s : Statement) : Prog ResultSet :=
  Exec s (fun r => match r with Returned rs => Ret rs | Raised e => Raise e end).

(** [datetime.datetime.now()] *)
Definition datetime_now : Prog datetime := Now Ret.

(** [time.sleep(seconds)] *)
Definition sleep (seconds : Q) : Prog unit := Sleep seconds (Ret tt).

(** How one iteration of a [for] body ends: it falls through or hits
    [continue], or it leaves the function by [return]. *)
Inductive LoopCtl (R : Type) : Type :=
| Continue
| Return (r : R).

Arguments Continue {R}.
Arguments Return {R} r.

(** [for i in items: body i] followed by the code after the loop. *)
Fixpoint for_in {R} (items : list nat) (body : nat -> Prog (LoopCtl R))
         (after : Prog R) : Prog R :=
  match items with
  | [] => after
  | i :: rest =>
      c <- body i;;
      match c with
      | Return r => Ret r
      | Continue => for_in rest body after
      end
  end.

Definition range (n : nat) : list nat := seq 0 n.

(** ** Result sets and exceptions as the code reads them *)

(** [bool(result)]: a result set is truthy when it has a row. *)
Definition truthy (rs : ResultSet) : bool :=
  match rs with [] => false | _ :: _ => true end.

(** [result.one()]: the first row, or [None]. *)
Definition one (rs : ResultSet) : option Row := head rs.

(** [result.was_applied]; the driver raises on a result that is not the
    answer to a conditional statement. *)
Definition was_applied (rs : ResultSet) : Prog bool :=
  match rs with
  | [AppliedRow b] => Ret b
  | _ => Raise "RuntimeError: No LWT were present in the request"
  end.

(** [row.user_id] and [row.creation] *)
Definition attr_user_id (row : option Row) : Prog uuid :=
  match row with
  | Some (ReservationRow u _) => Ret u
  | _ => Raise "AttributeError: user_id"
  end.

Definition attr_creation (row : option Row) : Prog datetime :=
  match row with
  | Some (ReservationRow _ c) => Ret c
  | _ => Raise "AttributeError: creation"
  end.

(** [needle in hay] on strings. *)
Fixpoint str_in (needle hay : string) : bool :=
  if String.prefix needle hay then true
  else match hay with
       | EmptyString => false
       | String _ rest => str_in needle rest
       end.

(** The test both retry loops apply to [str(e)]. *)
Definition cas_unknown (e : string) : bool :=
  str_in "CAS operation result is unknown" e.

Definition max_retries : nat := 5.

(** Python's [float] is a binary64 number.  The literal [0.1] is the binary64
    number nearest to one tenth, 7205759403792794 x 2^-56, and [attempt + 1]
    is converted exactly; [*] is the IEEE 754 product, rounded to nearest. *)
Definition float_of_int (n : Z) : spec_float := binary_normalize 53 1024 n 0 false.

Definition float_0_1 : spec_float := S754_finite false 7205759403792794 (-56).

Definition float_mul (x y : spec_float) : spec_float := SFmul 53 1024 x y.

(** The seconds a finite binary64 number stands for. *)
Definition seconds_of (x : spec_float) : Q :=
  match x with
  | S754_finite s m e =>
      (if s then inject_Z (Zneg m) else inject_Z (Zpos m)) * Qpower 2 e
  | _ => 0
  end.

(** [0.1 * (attempt + 1)], the argument of [time.sleep]. *)
Definition backoff (attempt : nat) : Q :=
  seconds_of (float_mul float_0_1 (float_of_int (Z.of_nat (attempt + 1)))).

(** ** The methods *)

Definition movie_exists (movie_name : string) : Prog bool :=
  try (result <- execute (movie_check_stmt movie_name);;
       Ret (truthy result))
  except (fun _ => Ret false).

Definition user_exists (user_id : uuid) : Prog bool :=
  try (result <- execute (user_check_by_id_stmt user_id);;
       Ret (truthy result))
  except (fun _ => Ret false).

(** The handler shared by the two retry loops:
    [if "CAS operation result is unknown" in str(e) and attempt < max_retries - 1:
       time.sleep(0.1 * (attempt + 1)); continue
     else: raise e] *)
Definition retry_or_raise {R} (attempt : nat) (e : string) : Prog (LoopCtl R) :=
  if cas_unknown e && (attempt <? max_retries - 1)%nat
  then (sleep (backoff attempt);;; Ret Continue)
  else Raise e.

(** Python's [True], [False] and [None] as results: [Some true], [Some false]
    and [None]. *)
Definition make_reservation (movie_name : string) (user_id : uuid)
           (seat_name : string) : Prog (option bool) :=
  found <- movie_exists movie_name;;
  if negb found then Ret (Some false) else
  found <- user_exists user_id;;
  if negb found then Ret (Some false) else
  now <- datetime_now;;
  try
    (for_in (range max_retries)
       (fun attempt =>
          try
            (result <- execute (reservation_insert_stmt movie_name user_id
                                  seat_name now now);;
             applied <- was_applied result;;
             if applied then Ret (Return (Some true))
             else Ret (Return (Some false)))
          except (retry_or_raise attempt))
       (Ret (Some false)))
  except (fun _ => Ret None).

Definition update_reservation (movie_name current_seat_name new_seat_name : string)
           (user_id : uuid) : Prog (option bool) :=
  found <- movie_exists movie_name;;
  if negb found then Ret (Some false) else
  found <- user_exists user_id;;
  if negb found then Ret (Some false) else
  now <- datetime_now;;
  try
    (rows <- execute (reservation_check_stmt movie_name current_seat_name);;
     if negb (truthy rows) then Ret (Some false) else
     let existing_reservation := one rows in
     owner <- attr_user_id existing_reservation;;
     if negb (bool_decide (owner = user_id)) then Ret (Some false) else
     if bool_decide (new_seat_name = current_seat_name) then Ret (Some true) else
     original_creation <- attr_creation existing_reservation;;
     for_in (range max_retries)
       (fun attempt =>
          try
            (new_seat_result <- execute (reservation_insert_stmt movie_name user_id
                                           new_seat_name original_creation now);;
             applied <- was_applied new_seat_result;;
             if negb applied then Ret (Return (Some false)) else
             old_seat_result <- execute (reservation_delete_stmt movie_name
                                           current_seat_name user_id);;
             released <- was_applied old_seat_result;;
             if released then Ret (Return (Some true))
             else (execute (reservation_delete_stmt movie_name new_seat_name
                              user_id);;;
                   Ret (Return (Some false))))
          except (retry_or_raise attempt))
       (Ret None))
  except (fun _ => Ret (Some false)).

(** [peer.peer] and [peer.rpc_address], read for the printed line. *)
Definition attr_peer (row : Row) : Prog (string * string) :=
  match row with
  | PeerRow p a => Ret (p, a)
  | _ => Raise "AttributeError: peer"
  end.

Fixpoint print_peers (active_peers : list Row) : Prog unit :=
  match active_peers with
  | [] => Ret tt
  | peer :: rest => attr_peer peer;;; print_peers rest
  end.

Definition check_cluster_health : Prog bool :=
  try
    (local_data <- execute select_system_local;;
     active_peers <- execute select_system_peers;;
     print_peers active_peers;;;
     let total_nodes := (length active_peers + 1)%nat in
     if (2 <=? total_nodes)%nat then Ret true else Ret false)
  except (fun _ => Ret false).

(** ** The store *)

(** Modelled from the spec: the schema file [schema.cql] that [reset_cassandra]
    loads is not part of the sources.  A row of the [reservations] collection:
    composite key (movie_name, seat); fields user_id, creation, modification. *)
Record Reservation : Type := mkReservation {
  movie_name : string;
  seat : string;
  user_id : uuid;
  creation : datetime;
  modification : datetime
}.

Definition Key : Type := string * string.

Definition key_of (r : Reservation) : Key := (movie_name r, seat r).

(** Modelled from the spec: the keyed collections of [schema.cql], which is not
    part of the sources, and the two system tables read by the health check.
    Of [movies] and [users] only the keys are ever selected.  [reservations]
    is kept as the bag of its rows, so that "one row per key" is a property of
    the statements, not of the type. *)
Record Database : Type := mkDatabase {
  movies : gset string;
  users : gset uuid;
  reservations : list Reservation;
  system_local : list string;
  system_peers : list (string * string)
}.

Definition set_reservations (d : Database) (rs : list Reservation) : Database :=
  {| movies := movies d; users := users d; reservations := rs;
     system_local := system_local d; system_peers := system_peers d |}.

(** The rows stored under a key. *)
Definition stored (k : Key) (rs : list Reservation) : list Reservation :=
  filter (λ r, key_of r = k) rs.

Definition vacant (k : Key) (rs : list Reservation) : bool :=
  match stored k rs with [] => true | _ :: _ => false end.

(** Modelled from the spec: the store is an external collaborator, known here
    by the text of the prepared statements and by its contract.  What a
    statement answers and does on a healthy store:
    - [INSERT ... IF NOT EXISTS] writes only when the key holds no row, and
      answers whether it wrote;
    - [DELETE ... IF user_id = ?] removes the row only when it is there and
      its user matches, and answers whether it removed;
    - the [SELECT]s change nothing.
    Each statement takes effect at once and as a whole (the store gives
    per-key conditional writes agreed by a quorum). *)
Definition cql (st : Statement) (d : Database) : ResultSet * Database :=
  match st with
  | reservation_insert_stmt m u s c md =>
      if vacant (m, s) (reservations d)
      then ([AppliedRow true],
            set_reservations d (reservations d ++ [mkReservation m s u c md]))
      else ([AppliedRow false], d)
  | reservation_check_stmt m s =>
      ((λ r, ReservationRow (user_id r) (creation r)) <$> stored (m, s) (reservations d), d)
  | reservation_delete_stmt m s u =>
      match stored (m, s) (reservations d) with
      | r :: _ =>
          if bool_decide (user_id r = u)
          then ([AppliedRow true],
                set_reservations d (filter (λ r, key_of r ≠ (m, s)) (reservations d)))
          else ([AppliedRow false], d)
      | [] => ([AppliedRow false], d)
      end
  | movie_check_stmt name =>
      (if bool_decide (name ∈ movies d) then [MovieRow name] else [], d)
  | user_check_by_id_stmt id =>
      (if bool_decide (id ∈ users d) then [UserRow id] else [], d)
  | select_system_local => (LocalRow <$> system_local d, d)
  | select_system_peers => ((λ p, PeerRow p.1 p.2) <$> system_peers d, d)
  end.

(** What can go wrong with one call: nothing, or the call raises [e].  When a
    call raises, the statement may or may not have been committed by the
    replicas; a timeout of a conditional write ("CAS operation result is
    unknown") is the case where the caller cannot tell. *)
Inductive Fault : Type :=
| Healthy
| Failure (e : string) (committed : bool).

(** The world a method runs in: the tables, the fate of each coming call (a
    call beyond the end of the script is healthy), and the wall clock as the
    sequence of its readings. *)
Record World : Type := mkWorld {
  db : Database;
  faults : list Fault;
  clock : nat -> datetime;
  readings : nat
}.

(** [session.execute] against the world. *)
Definition session_execute (s : Statement) (w : World) : Reply * World :=
  match faults w with
  | Failure e committed :: rest =>
      (Raised e,
       {| db := if committed then (cql s (db w)).2 else db w;
          faults := rest; clock := clock w; readings := readings w |})
  | _ =>
      (Returned (cql s (db w)).1,
       {| db := (cql s (db w)).2; faults := tail (faults w); clock := clock w;
          readings := readings w |})
  end.

Definition read_clock (w : World) : datetime * World :=
  (clock w (readings w),
   {| db := db w; faults := faults w; clock := clock w;
      readings := S (readings w) |}).

(** What an observer of the session sees, in order. *)
Inductive Event : Type :=
| Executed (s : Statement) (r : Reply)
| Slept (seconds : Q).

(** How a call of a method ends. *)
Inductive Outcome (A : Type) : Type :=
| Returns (a : A)
| Raises (e : string).

Arguments Returns {A} a.
Arguments Raises {A} e.

(** A finished call: how it ended, the world it left, what it did. *)
Record Run (A : Type) : Type := mkRun {
  outcome : Outcome A;
  final : World;
  events : list Event
}.

Arguments mkRun {A} outcome final events.
Arguments outcome {A} r.
Arguments final {A} r.
Arguments events {A} r.

Definition preceded {A} (evs : list Event) (r : Run A) : Run A :=
  {| outcome := outcome r; final := final r; events := evs ++ events r |}.

(** One caller alone: the method runs to its end against the world. *)
Fixpoint run {A} (p : Prog A) (w : World) : Run A :=
  match p with
  | Ret a => mkRun (Returns a) w []
  | Raise e => mkRun (Raises e) w []
  | Exec s k =>
      let (r, w') := session_execute s w in
      preceded [Executed s r] (run (k r) w')
  | Now k => let (t, w') := read_clock w in run (k t) w'
  | Sleep d k => preceded [Slept d] (run k w)
  end.

(** Several callers at once: each thread is the rest of its method; a schedule
    names, step by step, the thread that makes its next external call.  A
    finished thread ignores its turn. *)
Record Config (A : Type) : Type := mkConfig {
  threads : list (Prog A);
  world : World;
  history : list Event
}.

Arguments mkConfig {A} threads world history.
Arguments threads {A} c.
Arguments world {A} c.
Arguments history {A} c.

Definition step_thread {A} (i : nat) (c : Config A) : Config A :=
  match threads c !! i with
  | Some (Exec s k) =>
      let (r, w') := session_execute s (world c) in
      mkConfig (<[i := k r]> (threads c)) w' (history c ++ [Executed s r])
  | Some (Now k) =>
      let (t, w') := read_clock (world c) in
      mkConfig (<[i := k t]> (threads c)) w' (history c)
  | Some (Sleep d k) =>
      mkConfig (<[i := k]> (threads c)) (world c) (history c ++ [Slept d])
  | _ => c
  end.

Definition run_schedule {A} (schedule : list nat) (c : Config A) : Config A :=
  fold_left (fun c i => step_thread i c) schedule c.

(** The two operations as data, for sequences and pools of calls. *)
Inductive Op : Type :=
| Book (movie : string) (user : uuid) (seat_name : string)
| Transfer (movie current_seat new_seat : string) (user : uuid).

Definition call (o : Op) : Prog (option bool) :=
  match o with
  | Book m u s => make_reservation m u s
  | Transfer m c n u => update_reservation m c n u
  end.

(** Calls made one after the other: what each returned, the world left, and
    all that was done. *)
Fixpoint run_ops (ops : list Op) (w : World)
  : list (Outcome (option bool)) * World * list Event :=
  match ops with
  | [] => ([], w, [])
  | o :: rest =>
      let r := run (call o) w in
      let '(rs, w', evs) := run_ops rest (final r) in
      (outcome r :: rs, w', events r ++ evs)
  end.

(** ** Fixtures *)

(** A cinema with one film and two users, an empty house, two peers. *)
Definition demo_db : Database :=
  {| movies := {["Dune"]}; users := {[7%N; 8%N]}; reservations := [];
     system_local := ["local"];
     system_peers := [("10.0.0.2", "10.0.0.2"); ("10.0.0.3", "10.0.0.3")] |}.

Definition demo_world (fs : list Fault) : World :=
  {| db := demo_db; faults := fs; clock := fun n => (1000 + Z.of_nat n)%Z;
     readings := 0 |}.

Definition cas_timeout : string :=
  "WriteTimeout: CAS operation result is unknown - proposal accepted by 1 but not a quorum".

(** ** Vocabulary of the statements below *)

(** Whether a scripted call answers rather than raises; [None] is a call
    beyond the end of the script. *)
Definition answered (f : option Fault) : bool :=
  match f with Some (Failure _ _) => false | _ => true end.

(** Both reads of [check_cluster_health] are answered. *)
Definition reads_answered (fs : list Fault) : bool :=
  answered (fs !! 0%nat) && answered (fs !! 1%nat).

(** The event of a call to the store that raised. *)
Definition is_raise (ev : Event) : Prop :=
  match ev with Executed _ (Raised _) => True | _ => False end.

(** The body of the retry loop of [make_reservation], under a name. *)
Definition book_attempt (movie_name : string) (user_id : uuid) (seat_name : string)
           (now : datetime) (attempt : nat) : Prog (LoopCtl (option bool)) :=
  try
    (result <- execute (reservation_insert_stmt movie_name user_id seat_name now now);;
     applied <- was_applied result;;
     if applied then Ret (Return (Some true))
     else Ret (Return (Some false)))
  except (retry_or_raise attempt).

(** The body of the retry loop of [update_reservation], under a name. *)
Definition transfer_attempt (movie_name current_seat_name new_seat_name : string)
           (user_id : uuid) (original_creation now : datetime) (attempt : nat)
  : Prog (LoopCtl (option bool)) :=
  try
    (new_seat_result <- execute (reservation_insert_stmt movie_name user_id
                                   new_seat_name original_creation now);;
     applied <- was_applied new_seat_result;;
     if negb applied then Ret (Return (Some false)) else
     old_seat_result <- execute (reservation_delete_stmt movie_name
                                   current_seat_name user_id);;
     released <- was_applied old_seat_result;;
     if released then Ret (Return (Some true))
     else (execute (reservation_delete_stmt movie_name new_seat_name user_id);;;
           Ret (Return (Some false))))
  except (retry_or_raise attempt).

(** What a run of failed attempts looks like from outside: the same statement
    raising, each time followed by the pause of that attempt. *)
Fixpoint retry_events (st : Statement) (attempt : nat) (es : list string)
  : list Event :=
  match es with
  | [] => []
  | e :: rest =>
      Executed st (Raised e) :: Slept (backoff attempt)
        :: retry_events st (S attempt) rest
  end.

(** A read hits when it is answered with at least one row. *)
Definition hit (r : Reply) : bool :=
  match r with Returned rs => truthy rs | Raised _ => false end.

(** The statements that only read. *)
Definition is_select (st : Statement) : bool :=
  match st with
  | reservation_insert_stmt _ _ _ _ _ | reservation_delete_stmt _ _ _ => false
  | _ => true
  end.

(** *** The shape of what a retry loop does *)

(** How one attempt of [update_reservation] ends. *)
Inductive AttemptEnd : Type :=
| Moved
| Refused
| RolledBack
| Failed (e : string).

(** The calls of one attempt: the claim; after an applied claim, the release;
    after a release that was not applied, the rollback.  The attempt stops at
    the first call that raises. *)
Inductive attempt_trace (claim release rollback : Statement)
  : list Event -> AttemptEnd -> Prop :=
| attempt_refused :
    attempt_trace claim release rollback
      [Executed claim (Returned [AppliedRow false])] Refused
| attempt_moved :
    attempt_trace claim release rollback
      [Executed claim (Returned [AppliedRow true]);
       Executed release (Returned [AppliedRow true])] Moved
| attempt_rolled_back rs :
    attempt_trace claim release rollback
      [Executed claim (Returned [AppliedRow true]);
       Executed release (Returned [AppliedRow false]);
       Executed rollback (Returned rs)] RolledBack
| attempt_claim_failed e :
    attempt_trace claim release rollback
      [Executed claim (Raised e)] (Failed e)
| attempt_release_failed e :
    attempt_trace claim release rollback
      [Executed claim (Returned [AppliedRow true]);
       Executed release (Raised e)] (Failed e)
| attempt_rollback_failed e :
    attempt_trace claim release rollback
      [Executed claim (Returned [AppliedRow true]);
       Executed release (Returned [AppliedRow false]);
       Executed rollback (Raised e)] (Failed e).

(** What the loop of [update_reservation] does from attempt [a] on, and how it
    ends: an attempt that fails on the ambiguous error before the last attempt
    is followed by its pause and by a whole new attempt. *)
Inductive loop_trace (claim release rollback : Statement)
  : nat -> list Event -> Outcome (option bool) -> Prop :=
| loop_moved a steps :
    attempt_trace claim release rollback steps Moved ->
    loop_trace claim release rollback a steps (Returns (Some true))
| loop_refused a steps :
    attempt_trace claim release rollback steps Refused ->
    loop_trace claim release rollback a steps (Returns (Some false))
| loop_rolled_back a steps :
    attempt_trace claim release rollback steps RolledBack ->
    loop_trace claim release rollback a steps (Returns (Some false))
| loop_raise a steps e :
    attempt_trace claim release rollback steps (Failed e) ->
    cas_unknown e = false \/ (max_retries - 1 <= a)%nat ->
    loop_trace claim release rollback a steps (Raises e)
| loop_retry a steps e evs o :
    attempt_trace claim release rollback steps (Failed e) ->
    cas_unknown e = true -> (a < max_retries - 1)%nat ->
    loop_trace claim release rollback (S a) evs o ->
    loop_trace claim release rollback a (steps ++ Slept (backoff a) :: evs) o.

(** The number of pauses among some events. *)
Fixpoint sleeps (evs : list Event) : nat :=
  match evs with
  | [] => 0
  | Slept _ :: rest => S (sleeps rest)
  | Executed _ _ :: rest => sleeps rest
  end.

(** The retry discipline, read off the events of a method from attempt
    [attempt] on: a call that raises is the last thing the method does, unless
    the error is the ambiguous one; then the pause of the attempt follows, and
    then the statement [claim] is issued.  There is no pause in the last
    attempt. *)
Fixpoint retried (claim : Statement) (attempt : nat) (evs : list Event) : Prop :=
  match evs with
  | [] => True
  | Slept _ :: rest =>
      (attempt < max_retries - 1)%nat /\ retried claim (S attempt) rest
  | Executed _ (Returned _) :: rest => retried claim attempt rest
  | Executed _ (Raised e) :: rest =>
      (rest = [] \/
       (cas_unknown e = true /\
        exists reply rest',
          rest = Slept (backoff attempt) :: Executed claim reply :: rest')) /\
      retried claim attempt rest
  end.

(** Events that, when they occur, are the last. *)
Fixpoint only_last (P : Event -> Prop) (evs : list Event) : Prop :=
  match evs with
  | [] => True
  | ev :: rest => (P ev -> rest = []) /\ only_last P rest
  end.

(** The event of a [DELETE] on the reservations. *)
Definition is_delete (ev : Event) : Prop :=
  match ev with
  | Executed (reservation_delete_stmt _ _ _) _ => True
  | _ => False
  end.

(** The event of a read, and of a read that was answered. *)
Definition is_read (ev : Event) : Prop :=
  match ev with Executed st _ => is_select st = true | Slept _ => False end.

Definition answered_read (ev : Event) : Prop :=
  match ev with
  | Executed st (Returned _) => is_select st = true
  | _ => False
  end.

(** A claim (conditional insert) that was answered "not applied". *)
Definition refused_claim (ev : Event) : Prop :=
  match ev with
  | Executed (reservation_insert_stmt _ _ _ _ _) (Returned [AppliedRow false]) => True
  | _ => False
  end.

(** The world right after user 7 booked seat A1 of the demo cinema, with the
    given fate for the calls that follow. *)
Definition booked_world (fs : list Fault) : World :=
  final (run (make_reservation "Dune" 7%N "A1")
             (demo_world (Healthy :: Healthy :: Healthy :: fs))).

(** The reading of "each step is retried on its own": whenever the release
    raises the ambiguous error before the last attempt, the next call, after
    the pause, is the release again. *)
Definition release_retried_alone (m cur new : string) (u : uuid) (w : World) : Prop :=
  let r := run (update_reservation m cur new u) w in
  forall pre e post,
    events r = pre ++ Executed (reservation_delete_stmt m cur u) (Raised e) :: post ->
    cas_unknown e = true -> (sleeps pre < max_retries - 1)%nat ->
    exists reply post',
      post = Slept (backoff (sleeps pre))
               :: Executed (reservation_delete_stmt m cur u) reply :: post'.

(** The reading of "errors other than the ambiguous one propagate": when a
    call to the store raises such an error, the method raises it. *)
Definition propagates (o : Op) (w : World) : Prop :=
  let r := run (call o) w in
  forall pre st e post,
    events r = pre ++ Executed st (Raised e) :: post ->
    cas_unknown e = false -> outcome r = Raises e.

(** *** Keys, claims and releases *)

(** No two rows of the table have the same (movie, seat). *)
Definition unique_keys (rs : list Reservation) : Prop := NoDup (key_of <$> rs).

(** The statement is a conditional insert for the key. *)
Definition claims (k : Key) (st : Statement) : Prop :=
  match st with
  | reservation_insert_stmt m _ s _ _ => (m, s) = k
  | _ => False
  end.

(** The event is a delete on the key, whatever came of it. *)
Definition releases (k : Key) (ev : Event) : Prop :=
  match ev with
  | Executed (reservation_delete_stmt m s _) _ => (m, s) = k
  | _ => False
  end.

(** A thread that has not returned [True] and can only come to return [True]
    directly on the answer "applied" to a claim of the key. *)
Fixpoint pending (k : Key) (p : Prog (option bool)) : Prop :=
  match p with
  | Ret r => r <> Some true
  | Raise _ => True
  | Exec st cont =>
      forall reply,
        (claims k st /\ reply = Returned [AppliedRow true] /\
         cont reply = Ret (Some true)) \/
        pending k (cont reply)
  | Now cont => forall t, pending k (cont t)
  | Sleep _ cont => pending k cont
  end.

(** How a finished call shows in a pool of threads. *)
Definition finished {A} (o : Outcome A) : Prog A :=
  match o with Returns a => Ret a | Raises e => Raise e end.

(** What holds of a pool of calls, while nobody releases the seat (m, s): a
    booking of that seat has returned [True] or is still [pending]; if one has
    returned [True] the seat is occupied; and at most one has. *)
Definition one_winner (ops : list Op) (m s : string) (c : Config (option bool))
  : Prop :=
  (forall i u t, ops !! i = Some (Book m u s) -> threads c !! i = Some t ->
     t = Ret (Some true) \/ pending (m, s) t) /\
  (forall i u, ops !! i = Some (Book m u s) ->
     threads c !! i = Some (Ret (Some true)) ->
     vacant (m, s) (reservations (db (world c))) = false) /\
  (forall i j ui uj,
     ops !! i = Some (Book m ui s) -> ops !! j = Some (Book m uj s) ->
     threads c !! i = Some (Ret (Some true)) ->
     threads c !! j = Some (Ret (Some true)) -> i = j).

(** The other half of the retry discipline: a write that raises the ambiguous
    error is the last thing the method does only in the last attempt. *)
Fixpoint gave_up (attempt : nat) (evs : list Event) : Prop :=
  match evs with
  | [] => True
  | Slept _ :: rest => gave_up (S attempt) rest
  | Executed _ (Returned _) :: rest => gave_up attempt rest
  | Executed st (Raised e) :: rest =>
      (rest = [] -> cas_unknown e = true -> is_select st = false ->
       (max_retries - 1 <= attempt)%nat) /\
      gave_up attempt rest
  end.

(** *** Further vocabulary *)

(** The key a statement may write to. *)
Definition touches (st : Statement) : option Key :=
  match st with
  | reservation_insert_stmt m _ s _ _ => Some (m, s)
  | reservation_delete_stmt m s _ => Some (m, s)
  | _ => None
  end.

(** The event does not write to the key. *)
Definition spares (k : Key) (ev : Event) : Prop :=
  match ev with
  | Executed st _ => touches st <> Some k
  | Slept _ => True
  end.

(** The bookings that returned [True], among calls made one after the other. *)
Definition booked (call_and_result : Op * Outcome (option bool)) : bool :=
  match call_and_result with
  | (Book _ _ _, Returns (Some true)) => true
  | _ => false
  end.

Definition bookings_made (ops : list Op) (results : list (Outcome (option bool)))
  : nat :=
  length (List.filter booked (zip ops results)).

(** The statement is a [DELETE] on the reservations. *)
Definition deletes (st : Statement) : bool :=
  match st with reservation_delete_stmt _ _ _ => true | _ => false end.

(** Every statement the program issues satisfies [P], whatever it is
    answered. *)
Fixpoint issues_only {A} (P : Statement -> Prop) (p : Prog A) : Prop :=
  match p with
  | Ret _ => True
  | Raise _ => True
  | Exec st cont => P st /\ forall reply, issues_only P (cont reply)
  | Now cont => forall t, issues_only P (cont t)
  | Sleep _ cont => issues_only P cont
  end.

(** The program issues no [DELETE]. *)
Definition never_deletes {A} (p : Prog A) : Prop :=
  issues_only (λ st, deletes st = false) p.

(** The event is a call that satisfies [P], or a pause. *)
Definition issued (P : Statement -> Prop) (ev : Event) : Prop :=
  match ev with Executed st _ => P st | Slept _ => True end.

(** A pool that only books: one call of [make_reservation] per request
    (movie, user, seat). *)
Definition bookings (requests : list (string * uuid * string)) : list Op :=
  (λ r, Book r.1.1 r.1.2 r.2) <$> requests.

Definition requested (requests : list (string * uuid * string)) : list Key :=
  (λ r, (r.1.1, r.2)) <$> requests.

(** The seats won in a pool: the key of every booking that has returned
    [True], in the order of the calls. *)
Definition won (call_and_thread : Op * Prog (option bool)) : option Key :=
  match call_and_thread with
  | (Book m _ s, Ret (Some true)) => Some (m, s)
  | _ => None
  end.

Definition won_seats (ops : list Op) (ts : list (Prog (option bool))) : list Key :=
  omap won (zip ops ts).

(** The call has come to its end. *)
Definition is_finished {A} (p : Prog A) : Prop :=
  match p with Ret _ => True | Raise _ => True | _ => False end.

(** A thread of [make_reservation m u s] that has not written yet, on a store
    that answers every call and holds the movies [mv] and the users [us]: it
    is at one of its two existence checks, at the reading of the clock or at
    its conditional insert, which it reaches only when movie and user exist
    and which decides its result; or it has returned [False] because the
    movie or the user does not exist. *)
Fixpoint stage (mv : gset string) (us : gset uuid) (m : string) (u : uuid)
         (s : string) (p : Prog (option bool)) : Prop :=
  match p with
  | Ret r => r = Some false /\ ~ (m ∈ mv /\ u ∈ us)
  | Raise _ => False
  | Exec st cont =>
      match st with
      | movie_check_stmt name =>
          stage mv us m u s
            (cont (Returned (if bool_decide (name ∈ mv) then [MovieRow name] else [])))
      | user_check_by_id_stmt id =>
          stage mv us m u s
            (cont (Returned (if bool_decide (id ∈ us) then [UserRow id] else [])))
      | reservation_insert_stmt m' _ s' _ _ =>
          m' = m /\ s' = s /\ (m ∈ mv /\ u ∈ us) /\
          cont (Returned [AppliedRow true]) = Ret (Some true) /\
          cont (Returned [AppliedRow false]) = Ret (Some false)
      | _ => False
      end
  | Now cont => forall t, stage mv us m u s (cont t)
  | Sleep _ cont => stage mv us m u s cont
  end.

(** What a pool of bookings keeps on a store that answers every call, started
    in the world [w0]: the store stays healthy and keeps its movies and users;
    an occupied seat stays occupied; a thread is still at a [stage], or it has
    returned [False] on an occupied seat, or it has returned [True] on a seat
    that was vacant at the start and is occupied now; and a seat that was
    vacant at the start and is occupied now has a booking that returned
    [True]. *)
Definition healthy_pool (requests : list (string * uuid * string)) (w0 : World)
           (c : Config (option bool)) : Prop :=
  length (threads c) = length requests /\
  faults (world c) = [] /\
  movies (db (world c)) = movies (db w0) /\
  users (db (world c)) = users (db w0) /\
  (forall k, vacant k (reservations (db w0)) = false ->
     vacant k (reservations (db (world c))) = false) /\
  (forall i m u s t, requests !! i = Some (m, u, s) -> threads c !! i = Some t ->
     stage (movies (db w0)) (users (db w0)) m u s t \/
     (vacant (m, s) (reservations (db (world c))) = false /\
      (t = Ret (Some false) \/
       (t = Ret (Some true) /\ (m ∈ movies (db w0) /\ u ∈ users (db w0)) /\
        vacant (m, s) (reservations (db w0)) = true)))) /\
  (forall m s, vacant (m, s) (reservations (db w0)) = true ->
     vacant (m, s) (reservations (db (world c))) = false ->
     exists i u, requests !! i = Some (m, u, s) /\
                 threads c !! i = Some (Ret (Some true))).

(** Whether a booking can go through: movie and user exist and the seat holds
    no row. *)
Definition can_book (d : Database) (m : string) (u : uuid) (s : string) : bool :=
  bool_decide (m ∈ movies d) && bool_decide (u ∈ users d) &&
  vacant (m, s) (reservations d).

(** Whether a transfer can go through: movie and user exist, the current seat
    holds a row of the user, and the new seat is the current one or holds no
    row. *)
Definition can_move (d : Database) (m cur new : string) (u : uuid) : bool :=
  bool_decide (m ∈ movies d) && bool_decide (u ∈ users d) &&
  match stored (m, cur) (reservations d) with
  | row :: _ =>
      bool_decide (user_id row = u) &&
      (bool_decide (new = cur) || vacant (m, new) (reservations d))
  | [] => false
  end.

(** The event of a call to the store that was answered. *)
Definition answered_call (ev : Event) : Prop :=
  match ev with Executed _ (Returned _) => True | _ => False end.

(** The user on whose behalf a call is made. *)
Definition caller (o : Op) : uuid :=
  match o with Book _ u _ => u | Transfer _ _ _ u => u end.

(** The statement is not a [DELETE ... IF user_id = u]. *)
Definition not_delete_as (u : uuid) (st : Statement) : Prop :=
  match st with reservation_delete_stmt _ _ u' => u' <> u | _ => True end.

(** [f"{chr(65+i)}{j}"] *)
Definition seat_label (i j : nat) : string :=
  String (ascii_of_nat (65 + i)) (pretty j).

(** [[f"{chr(65+i)}{j}" for i in range(rows) for j in range(1, 11)]] *)
Definition seat_grid (rows : nat) : list string :=
  i ← seq 0 rows; j ← seq 1 10; [seat_label i j].

(** [l[:n]]: the first [n] items, or all but the last [-n] when [n] is
    negative. *)
Definition slice_to {A} (l : list A) (n : Z) : list A :=
  if (0 <=? n)%Z then take (Z.to_nat n) l
  else take (Z.to_nat (Z.of_nat (length l) + n)) l.

(** The seats of the seat race. *)
Definition race_seats (num_seats : Z) : list string :=
  slice_to (seat_grid 10) num_seats.

(** The calls of the seat race: each of the two clients asks for every seat,
    in the order of its own shuffle. *)
Definition seat_race (movie : string) (user_1 user_2 : uuid)
           (order_1 order_2 : list string) : list (string * uuid * string) :=
  ((λ s, (movie, user_1, s)) <$> order_1) ++ ((λ s, (movie, user_2, s)) <$> order_2).

(** [len(all_reserved_seats) == len(set(all_reserved_seats))] *)
Definition no_double_bookings (all_reserved_seats : list string) : bool :=
  bool_decide (length all_reserved_seats =
               size (list_to_set all_reserved_seats : gset string)).

(** The two counters of the rapid-fire test, [nonlocal] to its worker. *)
Record Counters : Type := mkCounters {
  success_count : nat;
  cas_timeout_count : nat
}.

(** [if result:] on what [make_reservation] returns. *)
Definition truthy_result (r : option bool) : bool :=
  match r with Some true => true | _ => false end.

(** The worker of the rapid-fire test, as a function of the counters it finds:
    [try: if self.make_reservation(...): success_count += 1
     except Exception as e:
       if "CAS operation result is unknown" in str(e): cas_timeout_count += 1] *)
Definition make_single_request (movie_name : string) (user_id : uuid)
           (seat_name : string) (cs : Counters) : Prog Counters :=
  try (result <- make_reservation movie_name user_id seat_name;;
       if truthy_result result
       then Ret (mkCounters (success_count cs + 1) (cas_timeout_count cs))
       else Ret cs)
  except (fun e =>
            if cas_unknown e
            then Ret (mkCounters (success_count cs) (cas_timeout_count cs + 1))
            else Ret cs).

(** The program comes to its end within [n] steps (calls to the store,
    readings of the clock, pauses), whatever it is answered. *)
Fixpoint within {A} (p : Prog A) (n : nat) {struct p} : Prop :=
  match p with
  | Ret _ => True
  | Raise _ => True
  | Exec _ cont =>
      match n with 0 => False | S n' => forall reply, within (cont reply) n' end
  | Now cont =>
      match n with 0 => False | S n' => forall t, within (cont t) n' end
  | Sleep _ cont =>
      match n with 0 => False | S n' => within cont n' end
  end.

(** The steps a call can take at most: for a booking the two existence
    checks, the reading of the clock, five inserts and four pauses; for a
    transfer the three reads, the reading of the clock, five attempts of three
    writes and four pauses. *)
Definition steps_bound (o : Op) : nat :=
  match o with Book _ _ _ => 12 | Transfer _ _ _ _ => 23 end.

(** How often thread [i] is given a step by the schedule. *)
Definition turns (i : nat) (schedule : list nat) : nat :=
  length (filter (λ j, j = i) schedule).

(** *** The listing of the reservations

    [list_all_reservations] and [get_user_by_id] use two statements of their
    own and rows with all their columns, and [run_cql_file] and
    [reset_cassandra] send statements as text.  Here the store is taken as it
    answers: a program asks, and the answers come from outside. *)

Inductive Request : Type :=
| select_all_reservations
| get_user_by_id_stmt (id : uuid)
| cql_text (statement : string).

(** A row of the listing query, or of the lookup of a user. *)
Inductive Item : Type :=
| ReservationItem (movie_name : string) (user_id : uuid) (seat : string)
                  (creation modification : datetime)
| UserItem (id : uuid) (username : string) (creation modification : datetime).

Inductive Answer : Type :=
| Rows (rows : list Item)
| Error (e : string).

Inductive Asks (A : Type) : Type :=
| Give (a : A)
| Throw (e : string)
| Ask (q : Request) (k : Answer -> Asks A).

Arguments Give {A} a.
Arguments Throw {A} e.
Arguments Ask {A} q k.

Fixpoint asks_bind {A B} (p : Asks A) (f : A -> Asks B) : Asks B :=
  match p with
  | Give a => f a
  | Throw e => Throw e
  | Ask q k => Ask q (fun r => asks_bind (k r) f)
  end.

Fixpoint asks_try {A} (p : Asks A) (h : string -> Asks A) : Asks A :=
  match p with
  | Give a => Give a
  | Throw e => h e
  | Ask q k => Ask q (fun r => asks_try (k r) h)
  end.

Declare Scope asks_scope.
Delimit Scope asks_scope with asks.
Notation "x <- p ;; q" := (asks_bind p (fun x => q))
  (at level 100, p at next level, right associativity) : asks_scope.
Notation "'try' p 'except' h" := (asks_try p h)
  (at level 100, p at next level, h at next level) : asks_scope.

(** [self.session.execute(...)] *)
Definition ask (q : Request) : Asks (list Item) :=
  Ask q (fun r => match r with Rows rows => Give rows | Error e => Throw e end).

(** The program against the answers of the store, from the [n]-th on: how it
    ends, and the requests it made with their answers. *)
Fixpoint run_asks {A} (p : Asks A) (answers : nat -> Answer) (n : nat)
  : Outcome A * list (Request * Answer) :=
  match p with
  | Give a => (Returns a, [])
  | Throw e => (Raises e, [])
  | Ask q k =>
      let r := run_asks (k (answers n)) answers (S n) in
      (r.1, (q, answers n) :: r.2)
  end.

(** [row.user_id], [row.movie_name], ... on a row of the listing, and
    [user.username] on a row of the lookup. *)
Definition item_user_id (row : Item) : Asks uuid :=
  match row with
  | ReservationItem _ u _ _ _ => Give u
  | _ => Throw "AttributeError: user_id"
  end.

Definition item_username (row : Item) : Asks string :=
  match row with
  | UserItem _ name _ _ => Give name
  | _ => Throw "AttributeError: username"
  end.

(** The dictionary [reservation_data]. *)
Record Entry : Type := mkEntry {
  entry_movie_name : string;
  entry_user_id : uuid;
  entry_username : string;
  entry_seat : string;
  entry_creation : datetime;
  entry_modification : datetime
}.

Definition reservation_data (row : Item) (username : string) : Asks Entry :=
  match row with
  | ReservationItem m u s c md => Give (mkEntry m u username s c md)
  | _ => Throw "AttributeError: movie_name"
  end.

Definition get_user_by_id (user_id : uuid) : Asks (option Item) :=
  (try (result <- ask (get_user_by_id_stmt user_id);;
        Give (match result with [] => None | _ :: _ => head result end))
   except (fun _ => Give None))%asks.

(** The loop [for row in rows: ...] of [list_all_reservations], with the list
    built so far. *)
Fixpoint list_rows (rows : list Item) (reservations_list : list Entry)
  : Asks (list Entry) :=
  match rows with
  | [] => Give reservations_list
  | row :: rest =>
      (user_id <- item_user_id row;;
       user <- get_user_by_id user_id;;
       username <- match user with
                   | Some user => item_username user
                   | None => Give "Unknown User"
                   end;;
       data <- reservation_data row username;;
       list_rows rest (reservations_list ++ [data]))%asks
  end.

Definition list_all_reservations : Asks (list Entry) :=
  (try (rows <- ask select_all_reservations;;
        match rows with [] => Give [] | _ :: _ => list_rows rows [] end)
   except (fun _ => Give []))%asks.

(** The name the listing shows for a row, by the answer to its lookup. *)
Definition shown_name (lookup : Answer) : string :=
  match lookup with
  | Rows (UserItem _ name _ _ :: _) => name
  | _ => "Unknown User"
  end.

(** The answer to a lookup is an error, no row, or rows of users. *)
Definition lookup_answer (a : Answer) : Prop :=
  match a with
  | Rows (ReservationItem _ _ _ _ _ :: _) => False
  | _ => True
  end.

(** A row of the table as the listing query returns it, and the entry the
    listing makes of it. *)
Definition to_item (r : Reservation) : Item :=
  ReservationItem (movie_name r) (user_id r) (seat r) (creation r) (modification r).

Definition entry_of (r : Reservation) (username : string) : Entry :=
  mkEntry (movie_name r) (user_id r) username (seat r) (creation r)
          (modification r).

(** *** Loading a file of statements *)

(** The characters [str.strip] removes, among those below 256: the ASCII
    whitespace (tab to carriage return, the four separators 28 to 31, the
    space), the next-line character and the no-break space. *)
Definition is_space (c : ascii) : bool :=
  let n := nat_of_ascii c in
  ((9 <=? n) && (n <=? 13) || (28 <=? n) && (n <=? 32) || (n =? 133) || (n =? 160))%nat.

Fixpoint lstrip (s : list ascii) : list ascii :=
  match s with
  | c :: rest => if is_space c then lstrip rest else s
  | [] => []
  end.

(** [s.strip()] *)
Definition strip (s : list ascii) : list ascii :=
  reverse (lstrip (reverse (lstrip s))).

(** [s.split(sep)] for a separator of one character: the pieces between the
    separators, one more than there are separators. *)
Fixpoint split (sep : ascii) (s : list ascii) : list (list ascii) :=
  match s with
  | [] => [[]]
  | c :: rest =>
      if Ascii.eqb c sep then [] :: split sep rest
      else match split sep rest with
           | piece :: pieces => (c :: piece) :: pieces
           | [] => [[c]]
           end
  end.

(** [[s.strip() for s in cql_statements.split(';') if s.strip()]] *)
Definition statements_of (cql_statements : string) : list string :=
  (λ s, string_of_list_ascii (strip s)) <$>
  filter (λ s, strip s <> []) (split ";" (list_ascii_of_string cql_statements)).

(** [for stmt in statements: try: self.session.execute(stmt)
                            except Exception as e: raise] *)
Fixpoint execute_all (statements : list string) : Asks unit :=
  match statements with
  | [] => Give tt
  | stmt :: rest =>
      (_ <- (try (_ <- ask (cql_text stmt);; Give tt) except (fun e => Throw e));;
       execute_all rest)%asks
  end.

(** [run_cql_file], given what opening and reading the file gives: its text,
    or the error raised. *)
Definition run_cql_file (file : string + string) : Asks unit :=
  match file with
  | inl cql_statements => execute_all (statements_of cql_statements)
  | inr e => Throw e
  end.

(** The text [reset_cassandra] sends first. *)
Definition drop_keyspace : string :=
  "
                DROP KEYSPACE IF EXISTS reservation_system;
                ".

Definition reset_cassandra (schema_cql : string + string) : Asks unit :=
  (try (_ <- ask (cql_text drop_keyspace);; run_cql_file schema_cql)
   except (fun _ => Give tt))%asks.

(** The answer is a result, not an error. *)
Definition is_rows (a : Answer) : Prop :=
  match a with Rows _ => True | Error _ => False end.

(** [needle in hay] holds: the text occurs somewhere in [hay]. *)
Definition occurs_in (needle hay : string) : Prop :=
  exists before after, hay = before +:+ needle +:+ after.

(** The error is the ambiguous one: its text holds the driver's message of a
    conditional write whose outcome is unknown. *)
Definition ambiguous (e : string) : Prop :=
  occurs_in "CAS operation result is unknown" e.

(** The lengths of the pauses among some events, in order. *)
Fixpoint pauses (evs : list Event) : list Q :=
  match evs with
  | [] => []
  | Slept d :: rest => d :: pauses rest
  | Executed _ _ :: rest => pauses rest
  end.

(** The pause is the binary64 product [0.1 * k], which is within 2^-54 of one
    tenth of [k]. *)
Definition pause_of (d : Q) (k : nat) : Prop :=
  (d == seconds_of (float_mul float_0_1 (float_of_int (Z.of_nat k))) /\
   Qabs (d - (1 # 10) * inject_Z (Z.of_nat k)) <= 1 # 18014398509481984)%Q.



(** * Properties *)

(** ** Running programs: the equations *)

Lemma preceded_nil {A} (r : Run A) : preceded [] r = r.
Proof. destruct r; reflexivity. Qed.

Lemma preceded_preceded {A} (e1 e2 : list Event) (r : Run A) :
  preceded e1 (preceded e2 r) = preceded (e1 ++ e2) r.
Proof. unfold preceded; simpl. by rewrite app_assoc. Qed.

Lemma run_bind {A B} (p : Prog A) (f : A -> Prog B) (w : World) :
  run (bind p f) w =
  match outcome (run p w) with
  | Returns a => preceded (events (run p w)) (run (f a) (final (run p w)))
  | Raises e => mkRun (Raises e) (final (run p w)) (events (run p w))
  end.
Proof.
  revert w. induction p as [a|e|s k IH|k IH|d k IH]; intros w; simpl.
  - by rewrite preceded_nil.
  - reflexivity.
  - destruct (session_execute s w) as [r w']. rewrite IH.
    destruct (run (k r) w') as [[a|e] w1 evs]; simpl; [|reflexivity].
    by rewrite preceded_preceded.
  - apply IH.
  - rewrite IH. destruct (run k w) as [[a|e] w1 evs]; simpl; [|reflexivity].
    by rewrite preceded_preceded.
Qed.

Lemma run_try_except {A} (p : Prog A) (h : string -> Prog A) (w : World) :
  run (try_except p h) w =
  match outcome (run p w) with
  | Returns a => run p w
  | Raises e => preceded (events (run p w)) (run (h e) (final (run p w)))
  end.
Proof.
  revert w. induction p as [a|e|s k IH|k IH|d k IH]; intros w; simpl.
  - reflexivity.
  - by rewrite preceded_nil.
  - destruct (session_execute s w) as [r w']. rewrite IH.
    destruct (run (k r) w') as [[a|e] w1 evs]; simpl; [reflexivity|].
    by rewrite preceded_preceded.
  - apply IH.
  - rewrite IH. destruct (run k w) as [[a|e] w1 evs]; simpl; [reflexivity|].
    by rewrite preceded_preceded.
Qed.

Lemma run_execute (s : Statement) (w : World) :
  run (execute s) w =
  match (session_execute s w).1 with
  | Returned rs =>
      mkRun (Returns rs) (session_execute s w).2 [Executed s (Returned rs)]
  | Raised e => mkRun (Raises e) (session_execute s w).2 [Executed s (Raised e)]
  end.
Proof.
  unfold execute. simpl. destruct (session_execute s w) as [[rs|e] w']; reflexivity.
Qed.

(** A call either raises what the script says, or answers as the healthy store
    does. *)
Lemma session_execute_cases (s : Statement) (w : World) :
  (exists e c rest,
     faults w = Failure e c :: rest /\
     session_execute s w =
       (Raised e, mkWorld (if c then (cql s (db w)).2 else db w) rest
                          (clock w) (readings w))) \/
  ((forall e c rest, faults w <> Failure e c :: rest) /\
   session_execute s w =
     (Returned (cql s (db w)).1,
      mkWorld (cql s (db w)).2 (tail (faults w)) (clock w) (readings w))).
Proof.
  unfold session_execute. destruct (faults w) as [|[|e c] rest].
  - right. split; [discriminate|reflexivity].
  - right. split; [discriminate|reflexivity].
  - left. eauto.
Qed.

(** ** The health check *)

Ltac run_step :=
  cbn [outcome final events fst snd preceded app faults db cql].

Lemma run_print_peers (l : list (string * string)) (w : World) :
  run (print_peers ((λ p, PeerRow p.1 p.2) <$> l)) w = mkRun (Returns tt) w [].
Proof.
  induction l as [|p l IH]; simpl; [reflexivity|]. exact IH.
Qed.

Lemma check_cluster_health_run (w : World) :
  let total_nodes := (length (system_peers (db w)) + 1)%nat in
  let r := run check_cluster_health w in
  outcome r = Returns (reads_answered (faults w) && bool_decide (2 <= total_nodes)%nat) /\
  (reads_answered (faults w) = true ->
   events r =
     [Executed select_system_local (Returned (LocalRow <$> system_local (db w)));
      Executed select_system_peers
        (Returned ((λ p, PeerRow p.1 p.2) <$> system_peers (db w)))]) /\
  (reads_answered (faults w) = false <-> Exists is_raise (events r)).
Proof.
  intros total_nodes r. subst r total_nodes.
  unfold check_cluster_health.
  rewrite run_try_except, run_bind, run_execute.
  destruct (session_execute_cases select_system_local w) as
    [(e & c & rest & Hf & ->)|[Hf ->]]; run_step.
  - rewrite Hf. unfold reads_answered; simpl. split; [reflexivity|].
    split; [discriminate|]. split; [intros _; constructor; exact I|reflexivity].
  - rewrite run_bind, run_execute.
    match goal with |- context [session_execute _ ?w1] =>
      destruct (session_execute_cases select_system_peers w1) as
        [(e & c & rest & Hf1 & ->)|[Hf1 ->]]; run_step; cbn [faults] in Hf1
    end.
    + assert (Hra : reads_answered (faults w) = false).
      { unfold reads_answered. destruct (faults w) as [|f0 fs]; [discriminate|].
        simpl in Hf1. subst fs. simpl. by destruct f0. }
      rewrite Hra. split; [reflexivity|]. split; [discriminate|].
      split; [intros _; right; left; exact I|reflexivity].
    + rewrite run_bind, run_print_peers. run_step. rewrite length_fmap.
      assert (Hra : reads_answered (faults w) = true).
      { unfold reads_answered. destruct (faults w) as [|[|e c] fs]; simpl in *;
          try reflexivity; [|by destruct (Hf e c fs)].
        destruct fs as [|[|e c] fs]; try reflexivity. by destruct (Hf1 e c fs). }
      rewrite Hra.
      destruct (Nat.leb_spec 2 (length (system_peers (db w)) + 1)) as [Hle|Hlt];
        [rewrite bool_decide_eq_true_2 by exact Hle
        |rewrite bool_decide_eq_false_2 by lia];
        cbn [outcome final events fst snd preceded app run andb];
        (split; [reflexivity|split; [reflexivity|]]);
        (split; [discriminate|]); intros H;
        repeat (apply Exists_cons in H; destruct H as [[]|H]);
        apply Exists_nil in H; destruct H.
Qed.

(** C9: when its two reads are answered, [check_cluster_health] reads the
    local descriptor and then the peers, takes the number of peer rows plus
    one for the local node as the total, and returns [True] exactly when the
    total is at least 2.  The tables of movies, users and reservations play no
    part: any database with the same peers gives the same answer. *)
Theorem check_cluster_health_quorum (w : World) :
  reads_answered (faults w) = true ->
  let r := run check_cluster_health w in
  exists local peers,
    events r = [Executed select_system_local (Returned local);
                Executed select_system_peers (Returned peers)] /\
    outcome r = Returns (bool_decide (2 <= length peers + 1)%nat) /\
    forall d : Database,
      system_peers d = system_peers (db w) ->
      outcome (run check_cluster_health
                 (mkWorld d (faults w) (clock w) (readings w))) = outcome r.
Proof.
  intros Hra r. subst r.
  destruct (check_cluster_health_run w) as (Ho & Hev & _).
  exists (LocalRow <$> system_local (db w)),
         ((λ p, PeerRow p.1 p.2) <$> system_peers (db w)).
  split; [exact (Hev Hra)|]. rewrite length_fmap, Ho, Hra. split; [reflexivity|].
  intros d Hd.
  destruct (check_cluster_health_run (mkWorld d (faults w) (clock w) (readings w)))
    as (Ho' & _). rewrite Ho'. simpl. by rewrite Hd, Hra.
Qed.

Lemma check_cluster_health_quorum_witness :
  outcome (run check_cluster_health (demo_world [])) = Returns true.
Proof.
  destruct (check_cluster_health_quorum (demo_world []) eq_refl)
    as (local & peers & Hev & Ho & _).
  rewrite Ho. injection Hev as _ Hp. subst peers. reflexivity.
Defined.

(** C10: [check_cluster_health] never raises; whenever one of its reads
    raises, whatever the error, it returns [False]. *)
Theorem check_cluster_health_never_raises (w : World) :
  let r := run check_cluster_health w in
  (exists b, outcome r = Returns b) /\
  (Exists is_raise (events r) -> outcome r = Returns false).
Proof.
  intros r. subst r.
  destruct (check_cluster_health_run w) as (Ho & _ & Hraise).
  split; [eauto|]. intros H. apply Hraise in H. by rewrite Ho, H.
Qed.

Lemma check_cluster_health_never_raises_witness :
  outcome (run check_cluster_health
             (demo_world [Healthy; Failure "NoHostAvailable" false]))
  = Returns false.
Proof.
  apply (check_cluster_health_never_raises
           (demo_world [Healthy; Failure "NoHostAvailable" false])).
  right. left. exact I.
Defined.

(** ** The retry loops, one attempt at a time *)

Lemma make_reservation_unfold (m : string) (u : uuid) (s : string) :
  make_reservation m u s =
  (found <- movie_exists m;;
   if negb found then Ret (Some false) else
   found <- user_exists u;;
   if negb found then Ret (Some false) else
   now <- datetime_now;;
   try (for_in (range max_retries) (book_attempt m u s now) (Ret (Some false)))
   except (fun _ => Ret None)).
Proof. reflexivity. Qed.

Lemma update_reservation_unfold (m cur new : string) (u : uuid) :
  update_reservation m cur new u =
  (found <- movie_exists m;;
   if negb found then Ret (Some false) else
   found <- user_exists u;;
   if negb found then Ret (Some false) else
   now <- datetime_now;;
   try
     (rows <- execute (reservation_check_stmt m cur);;
      if negb (truthy rows) then Ret (Some false) else
      owner <- attr_user_id (one rows);;
      if negb (bool_decide (owner = u)) then Ret (Some false) else
      if bool_decide (new = cur) then Ret (Some true) else
      original_creation <- attr_creation (one rows);;
      for_in (range max_retries)
        (transfer_attempt m cur new u original_creation now) (Ret None))
   except (fun _ => Ret (Some false))).
Proof. reflexivity. Qed.

Lemma run_for_in_cons {R} (i : nat) (rest : list nat)
      (body : nat -> Prog (LoopCtl R)) (after : Prog R) (w : World) :
  run (for_in (i :: rest) body after) w =
  match outcome (run (body i) w) with
  | Returns (Return r) =>
      mkRun (Returns r) (final (run (body i) w)) (events (run (body i) w))
  | Returns Continue =>
      preceded (events (run (body i) w))
               (run (for_in rest body after) (final (run (body i) w)))
  | Raises e =>
      mkRun (Raises e) (final (run (body i) w)) (events (run (body i) w))
  end.
Proof.
  cbn [for_in]. rewrite run_bind.
  destruct (run (body i) w) as [[[|r]|e] w' evs]; cbn [outcome final events run];
    try reflexivity.
  unfold preceded; simpl. by rewrite app_nil_r.
Qed.

Lemma run_retry_or_raise {R} (attempt : nat) (e : string) (w : World) :
  run (@retry_or_raise R attempt e) w =
  if cas_unknown e && (attempt <? max_retries - 1)%nat
  then mkRun (Returns Continue) w [Slept (backoff attempt)]
  else mkRun (Raises e) w [].
Proof.
  unfold retry_or_raise.
  destruct (cas_unknown e && (attempt <? max_retries - 1)%nat); reflexivity.
Qed.

Lemma run_movie_exists (m : string) (w : World) :
  run (movie_exists m) w =
  mkRun (Returns (match (session_execute (movie_check_stmt m) w).1 with
                  | Returned rs => truthy rs
                  | Raised _ => false
                  end))
        (session_execute (movie_check_stmt m) w).2
        [Executed (movie_check_stmt m) (session_execute (movie_check_stmt m) w).1].
Proof.
  unfold movie_exists. rewrite run_try_except, run_bind, run_execute.
  destruct (session_execute (movie_check_stmt m) w) as [[rs|e] w']; reflexivity.
Qed.

Lemma run_user_exists (u : uuid) (w : World) :
  run (user_exists u) w =
  mkRun (Returns (match (session_execute (user_check_by_id_stmt u) w).1 with
                  | Returned rs => truthy rs
                  | Raised _ => false
                  end))
        (session_execute (user_check_by_id_stmt u) w).2
        [Executed (user_check_by_id_stmt u)
                  (session_execute (user_check_by_id_stmt u) w).1].
Proof.
  unfold user_exists. rewrite run_try_except, run_bind, run_execute.
  destruct (session_execute (user_check_by_id_stmt u) w) as [[rs|e] w']; reflexivity.
Qed.

(** A conditional statement is answered by its [[applied]] row, or raises. *)
Lemma insert_reply (m : string) (u : uuid) (s : string) (c md : datetime) (w : World) :
  let st := reservation_insert_stmt m u s c md in
  (session_execute st w).1 = Returned [AppliedRow (vacant (m, s) (reservations (db w)))]
  \/ exists e, (session_execute st w).1 = Raised e.
Proof.
  intros st. destruct (session_execute_cases st w) as
    [(e & c' & rest & _ & ->)|[_ ->]]; [right; eauto|left].
  subst st. cbn [fst cql]. by destruct (vacant (m, s) (reservations (db w))).
Qed.

Lemma delete_reply (m s : string) (u : uuid) (w : World) :
  let st := reservation_delete_stmt m s u in
  (exists b, (session_execute st w).1 = Returned [AppliedRow b])
  \/ exists e, (session_execute st w).1 = Raised e.
Proof.
  intros st. destruct (session_execute_cases st w) as
    [(e & c' & rest & _ & ->)|[_ ->]]; [right; eauto|left].
  subst st. cbn [fst cql].
  destruct (stored (m, s) (reservations (db w))) as [|r l]; [eauto|].
  destruct (bool_decide (user_id r = u)); eauto.
Qed.

(** One attempt of [make_reservation]: the insert is answered, and the method
    returns; or it raises, and the handler decides. *)
Lemma run_book_attempt (m : string) (u : uuid) (s : string) (now : datetime)
      (attempt : nat) (w : World) :
  let st := reservation_insert_stmt m u s now now in
  let x := session_execute st w in
  (exists b, x.1 = Returned [AppliedRow b] /\
     run (book_attempt m u s now attempt) w =
     mkRun (Returns (Return (Some b))) x.2 [Executed st x.1]) \/
  (exists e, x.1 = Raised e /\
     run (book_attempt m u s now attempt) w =
     preceded [Executed st x.1] (run (retry_or_raise attempt e) x.2)).
Proof.
  intros st x. unfold book_attempt. fold st.
  rewrite run_try_except, run_bind, run_execute. fold x.
  destruct (insert_reply m u s now now w) as [H|[e H]]; fold st in H; fold x in H;
    rewrite H; [left|right; eauto].
  eexists; split; [reflexivity|]. run_step.
  by destruct (vacant (m, s) (reservations (db w))).
Qed.

Lemma run_for_in_seq {R} (a n : nat) (body : nat -> Prog (LoopCtl R))
      (after : Prog R) (w : World) :
  run (for_in (seq a (S n)) body after) w =
  match outcome (run (body a) w) with
  | Returns (Return r) =>
      mkRun (Returns r) (final (run (body a) w)) (events (run (body a) w))
  | Returns Continue =>
      preceded (events (run (body a) w))
               (run (for_in (seq (S a) n) body after) (final (run (body a) w)))
  | Raises e =>
      mkRun (Raises e) (final (run (body a) w)) (events (run (body a) w))
  end.
Proof. exact (run_for_in_cons a (seq (S a) n) body after w). Qed.

(** The loop of [make_reservation] from attempt [a] on: some attempts raise the
    ambiguous error and are retried after their pause, then one attempt ends
    the loop, by an answer or by an error that is raised further. *)
Lemma run_book_loop (m : string) (u : uuid) (s : string) (now : datetime) :
  forall (n a : nat) (w : World),
    (a + S n = max_retries)%nat ->
    let st := reservation_insert_stmt m u s now now in
    let r := run (for_in (seq a (S n)) (book_attempt m u s now) (Ret (Some false))) w in
    exists es reply,
      (length es <= n)%nat /\
      Forall (λ e, cas_unknown e = true) es /\
      events r = retry_events st a es ++ [Executed st reply] /\
      match reply with
      | Returned rs => exists b, rs = [AppliedRow b] /\ outcome r = Returns (Some b)
      | Raised e => outcome r = Raises e /\ (cas_unknown e = true -> length es = n)
      end.
Proof.
  induction n as [|n IH]; intros a w Ha st r; subst r;
    rewrite run_for_in_seq;
    (destruct (run_book_attempt m u s now a w) as [(b & Hx & ->)|(e & Hx & ->)];
     fold st in Hx; fold st; [|rewrite run_retry_or_raise]).
  - exists [], (Returned [AppliedRow b]). run_step. rewrite Hx.
    repeat split; [simpl; lia|constructor|]. eauto.
  - replace (a <? max_retries - 1)%nat with false
      by (symmetry; apply Nat.ltb_ge; unfold max_retries in *; lia).
    rewrite andb_false_r. run_step. rewrite Hx.
    exists [], (Raised e). repeat split; [simpl; lia|constructor].
  - exists [], (Returned [AppliedRow b]). run_step. rewrite Hx.
    repeat split; [simpl; lia|constructor|]. eauto.
  - destruct (cas_unknown e) eqn:Hcas; cbn [andb].
    + replace (a <? max_retries - 1)%nat with true
        by (symmetry; apply Nat.ltb_lt; unfold max_retries in *; lia).
      run_step.
      destruct (IH (S a) (session_execute st w).2 ltac:(lia))
        as (es & reply & Hlen & Hall & Hev & Hout).
      exists (e :: es), reply. cbn [outcome final events preceded].
      rewrite Hev, Hx. split; [simpl; lia|]. split; [by constructor|].
      split; [reflexivity|].
      destruct reply as [rs|e']; [exact Hout|].
      destruct Hout as [Ho Hl]. split; [exact Ho|]. intros Hc. simpl. by rewrite Hl.
    + run_step. rewrite Hx. exists [], (Raised e).
      repeat split; [simpl; lia|constructor|]. intros Hc. congruence.
Qed.

Lemma run_try_const {A} (p : Prog A) (v : A) (w : World) :
  run (try p except (fun _ => Ret v)) w =
  mkRun (match outcome (run p w) with Returns a => Returns a | Raises _ => Returns v end)
        (final (run p w)) (events (run p w)).
Proof.
  rewrite run_try_except. destruct (run p w) as [[a|e] w' evs]; cbn; [reflexivity|].
  unfold preceded; cbn. by rewrite app_nil_r.
Qed.

Lemma session_execute_clock (st : Statement) (w : World) :
  clock (session_execute st w).2 = clock w /\
  readings (session_execute st w).2 = readings w.
Proof.
  destruct (session_execute_cases st w) as [(e & c & rest & _ & ->)|[_ ->]];
    split; reflexivity.
Qed.

(** [make_reservation] up to its loop. *)
Lemma run_make_reservation (m : string) (u : uuid) (s : string) (w : World) :
  let movie_read := session_execute (movie_check_stmt m) w in
  let user_read := session_execute (user_check_by_id_stmt u) movie_read.2 in
  let now := clock w (readings w) in
  let checks := [Executed (movie_check_stmt m) movie_read.1;
                 Executed (user_check_by_id_stmt u) user_read.1] in
  let loop := run (for_in (range max_retries) (book_attempt m u s now)
                          (Ret (Some false)))
                  (read_clock user_read.2).2 in
  run (make_reservation m u s) w =
  if hit movie_read.1 then
    if hit user_read.1 then
      mkRun (match outcome loop with Returns a => Returns a | Raises _ => Returns None end)
            (final loop) (checks ++ events loop)
    else mkRun (Returns (Some false)) user_read.2 checks
  else mkRun (Returns (Some false)) movie_read.2
             [Executed (movie_check_stmt m) movie_read.1].
Proof.
  intros movie_read user_read now checks loop.
  rewrite make_reservation_unfold, run_bind, run_movie_exists. run_step.
  fold movie_read. unfold hit at 1.
  destruct (match movie_read.1 with Returned rs => truthy rs | Raised _ => false end);
    cbn [negb]; [|reflexivity].
  rewrite run_bind, run_user_exists. run_step. fold user_read. unfold hit.
  destruct (match user_read.1 with Returned rs => truthy rs | Raised _ => false end);
    cbn [negb]; [|reflexivity].
  rewrite run_bind. unfold datetime_now. cbn [run read_clock fst snd outcome events final].
  rewrite preceded_nil, run_try_const.
  assert (Hnow : clock user_read.2 (readings user_read.2) = now).
  { subst now user_read.
    destruct (session_execute_clock (user_check_by_id_stmt u) movie_read.2) as [-> ->].
    subst movie_read.
    by destruct (session_execute_clock (movie_check_stmt m) w) as [-> ->]. }
  rewrite Hnow. reflexivity.
Qed.

(** ** Booking *)

(** C2: [make_reservation] returns [False] after the movie read alone when
    that read misses, and after the movie and user reads alone when the user
    read misses: no insert is attempted.  When both reads hit, the next call is
    the conditional insert for (movie, seat); if it is answered "applied" the
    method returns [True], if it is answered "not applied" the method returns
    [False], and in both cases that insert is the last call.  The method
    returns [True] only on an insert answered "applied". *)
Theorem make_reservation_checks_then_insert (m : string) (u : uuid) (s : string)
        (w : World) :
  let r := run (make_reservation m u s) w in
  let movie_read := session_execute (movie_check_stmt m) w in
  let user_read := session_execute (user_check_by_id_stmt u) movie_read.2 in
  let now := clock w (readings w) in
  let st := reservation_insert_stmt m u s now now in
  let claim := session_execute st (read_clock user_read.2).2 in
  let checks := [Executed (movie_check_stmt m) movie_read.1;
                 Executed (user_check_by_id_stmt u) user_read.1] in
  (movie_read.1 = Returned [] ->
   r = mkRun (Returns (Some false)) movie_read.2
             [Executed (movie_check_stmt m) (Returned [])]) /\
  (hit movie_read.1 = true -> user_read.1 = Returned [] ->
   r = mkRun (Returns (Some false)) user_read.2 checks) /\
  (hit movie_read.1 = true -> hit user_read.1 = true ->
   (exists rest, events r = checks ++ Executed st claim.1 :: rest) /\
   (forall b, claim.1 = Returned [AppliedRow b] ->
      r = mkRun (Returns (Some b)) claim.2 (checks ++ [Executed st claim.1])) /\
   (outcome r = Returns (Some true) ->
      exists evs, events r = evs ++ [Executed st (Returned [AppliedRow true])])).
Proof.
  intros r movie_read user_read now st claim checks.
  pose proof (run_make_reservation m u s w) as Hrun.
  cbv zeta in Hrun. fold movie_read user_read now checks r in Hrun.
  split; [|split].
  - intros Hmiss. rewrite Hrun, Hmiss. reflexivity.
  - intros Hm Hmiss. rewrite Hrun, Hm. subst checks. rewrite Hmiss. reflexivity.
  - intros Hm Hu. rewrite Hm, Hu in Hrun.
    set (w2 := (read_clock user_read.2).2) in *.
    unfold range, max_retries in Hrun.
    destruct (run_book_loop m u s now 4 0 w2 eq_refl)
      as (es & reply & Hlen & Hall & Hev & Hout). fold st in Hev.
    split; [|split].
    + rewrite Hrun. cbn [events]. rewrite run_for_in_seq.
      destruct (run_book_attempt m u s now 0 w2) as [(b & Hx & ->)|(e & Hx & ->)];
        fold st claim in Hx |- *.
      * exists []. reflexivity.
      * destruct (outcome (preceded [Executed st claim.1]
                             (run (retry_or_raise 0 e) claim.2))) as [[|v]|e'];
          cbn [events preceded app]; eauto.
    + intros b Hb. rewrite Hrun. rewrite run_for_in_seq.
      destruct (run_book_attempt m u s now 0 w2) as [(b' & Hx & ->)|(e & Hx & ->)];
        fold st claim in Hx |- *; [|congruence].
      assert (b' = b) by congruence. subst b'. reflexivity.
    + rewrite Hrun. cbn [outcome events]. rewrite Hev. intros Ho.
      destruct reply as [rs|e].
      * destruct Hout as (b & -> & Hb). rewrite Hb in Ho.
        assert (b = true) by congruence. subst b.
        exists (checks ++ retry_events st 0 es). by rewrite <- app_assoc.
      * destruct Hout as [Hb _]. rewrite Hb in Ho. discriminate.
Qed.

Lemma make_reservation_checks_then_insert_witness :
  outcome (run (make_reservation "Dune" 9%N "A1") (demo_world [])) = Returns (Some false) /\
  outcome (run (make_reservation "Dune" 7%N "A1") (demo_world [])) = Returns (Some true).
Proof.
  split.
  - destruct (make_reservation_checks_then_insert "Dune" 9%N "A1" (demo_world []))
      as (_ & H & _).
    rewrite (H eq_refl eq_refl). reflexivity.
  - destruct (make_reservation_checks_then_insert "Dune" 7%N "A1" (demo_world []))
      as (_ & _ & H).
    destruct (H eq_refl eq_refl) as (_ & Hb & _).
    rewrite (Hb true eq_refl). reflexivity.
Defined.

Lemma prefix_spec (a b : string) :
  String.prefix a b = true <-> exists c, b = a +:+ c.
Proof.
  revert a. induction b as [|y b IH]; intros [|x a]; cbn.
  - split; [by exists ""|done].
  - split; [done|intros [c Hc]; discriminate Hc].
  - split; [by exists (String y b)|done].
  - destruct (ascii_dec x y) as [->|Hne].
    + rewrite IH. split; intros [c Hc]; exists c; [by rewrite Hc|by injection Hc].
    + split; [done|]. intros [c Hc]. injection Hc as Hxy _. by destruct Hne.
Qed.

Lemma str_in_unfold (needle hay : string) :
  str_in needle hay =
  if String.prefix needle hay then true
  else match hay with
       | EmptyString => false
       | String _ rest => str_in needle rest
       end.
Proof. by destruct hay. Qed.

(** [str_in] is Python's [in] on strings. *)
Lemma str_in_spec (needle hay : string) :
  str_in needle hay = true <-> occurs_in needle hay.
Proof.
  unfold occurs_in. split.
  - induction hay as [|c hay IH]; rewrite str_in_unfold.
    + destruct (String.prefix needle "") eqn:Hp; [|done]. intros _.
      apply prefix_spec in Hp as [after ->]. by exists "", after.
    + destruct (String.prefix needle (String c hay)) eqn:Hp.
      * intros _. apply prefix_spec in Hp as [after ->]. by exists "", after.
      * intros H. destruct (IH H) as (before & after & ->).
        by exists (String c before), after.
  - intros (before & after & ->). induction before as [|c before IH];
      rewrite str_in_unfold.
    + replace (String.prefix needle ("" +:+ needle +:+ after)) with true; [done|].
      symmetry. apply prefix_spec. by exists after.
    + cbn [append]. by destruct (String.prefix needle _).
Qed.

Lemma cas_unknown_spec (e : string) : cas_unknown e = true <-> ambiguous e.
Proof. apply str_in_spec. Qed.

Lemma pauses_app (l1 l2 : list Event) : pauses (l1 ++ l2) = pauses l1 ++ pauses l2.
Proof.
  induction l1 as [|[st r|d] l1 IH]; cbn [app pauses]; [done|exact IH|by rewrite IH].
Qed.

Lemma pauses_retry_events (st : Statement) (es : list string) :
  forall a, pauses (retry_events st a es) = backoff <$> seq a (length es).
Proof.
  induction es as [|e es IH]; intros a; [done|].
  cbn [retry_events pauses length seq fmap list_fmap]. by rewrite IH.
Qed.

Lemma backoff_pause (attempt : nat) :
  (attempt < 4)%nat -> pause_of (backoff attempt) (S attempt).
Proof.
  intros H. unfold pause_of.
  do 4 (destruct attempt as [|attempt];
        [split; [vm_compute; reflexivity|vm_compute; discriminate]|]).
  lia.
Qed.

(** C8: once both reads have hit, [make_reservation] issues one and the same
    insert at most 5 times.  Every attempt that is followed by another raised
    an error whose text holds "CAS operation result is unknown", and is
    followed by one pause before the next attempt.  The pause after the k-th
    attempt is the floating-point product 0.1 * k, within 2^-54 of k tenths of
    a second (0.1, 0.2, 0.30000000000000004, 0.4).  An answer ends the loop at
    once, and so does any other error; an error with the ambiguous text ends
    it only in the 5th attempt.  When the last attempt raises, the method
    returns [None], not [True]. *)
Theorem make_reservation_retry_policy (m : string) (u : uuid) (s : string)
        (w : World) :
  let r := run (make_reservation m u s) w in
  let movie_read := session_execute (movie_check_stmt m) w in
  let user_read := session_execute (user_check_by_id_stmt u) movie_read.2 in
  let now := clock w (readings w) in
  let st := reservation_insert_stmt m u s now now in
  let checks := [Executed (movie_check_stmt m) movie_read.1;
                 Executed (user_check_by_id_stmt u) user_read.1] in
  hit movie_read.1 = true -> hit user_read.1 = true ->
  exists es reply,
    (length es + 1 <= 5)%nat /\
    Forall ambiguous es /\
    events r = checks ++ retry_events st 0 es ++ [Executed st reply] /\
    Forall2 pause_of (pauses (events r)) (seq 1 (length es)) /\
    match reply with
    | Returned rs => exists b, rs = [AppliedRow b] /\ outcome r = Returns (Some b)
    | Raised e =>
        outcome r = Returns None /\
        (ambiguous e -> (length es + 1 = 5)%nat)
    end.
Proof.
  intros r movie_read user_read now st checks Hm Hu.
  pose proof (run_make_reservation m u s w) as Hrun.
  cbv zeta in Hrun. fold movie_read user_read now checks r in Hrun.
  rewrite Hm, Hu in Hrun. unfold range, max_retries in Hrun.
  destruct (run_book_loop m u s now 4 0 (read_clock user_read.2).2 eq_refl)
    as (es & reply & Hlen & Hall & Hev & Hout). fold st in Hev.
  exists es, reply. rewrite Hrun. cbn [outcome events]. rewrite Hev.
  split; [unfold max_retries in Hlen; lia|]. split.
  { eapply Forall_impl; [exact Hall|]. intros e He. by apply cas_unknown_spec. }
  split; [reflexivity|]. split.
  { rewrite !pauses_app, pauses_retry_events. cbn [pauses app]. rewrite app_nil_r.
    assert (Hle : (length es <= 4)%nat) by (unfold max_retries in Hlen; lia).
    revert Hle. generalize (length es). intros n Hn.
    change (seq 1 n) with (seq (S 0) n). rewrite <- fmap_S_seq.
    apply Forall2_fmap, Forall_Forall2_diag, Forall_forall. intros i Hi.
    apply elem_of_seq in Hi. apply backoff_pause. lia. }
  destruct reply as [rs|e].
  - destruct Hout as (b & -> & ->). eauto.
  - destruct Hout as [-> Hl]. split; [reflexivity|]. intros Hc.
    apply cas_unknown_spec in Hc. rewrite (Hl Hc). reflexivity.
Qed.

Lemma make_reservation_retry_policy_witness :
  let timeouts n := demo_world (Healthy :: Healthy :: repeat (Failure cas_timeout false) n) in
  let st := reservation_insert_stmt "Dune" 7%N "A1" 1000%Z 1000%Z in
  let checks := [Executed (movie_check_stmt "Dune") (Returned [MovieRow "Dune"]);
                 Executed (user_check_by_id_stmt 7%N) (Returned [UserRow 7%N])] in
  (let r := run (make_reservation "Dune" 7%N "A1") (timeouts 2%nat) in
   events r = checks ++ retry_events st 0 [cas_timeout; cas_timeout]
                     ++ [Executed st (Returned [AppliedRow true])] /\
   Forall2 pause_of (pauses (events r)) [1; 2]%nat /\
   outcome r = Returns (Some true)) /\
  (let r := run (make_reservation "Dune" 7%N "A1") (timeouts 5%nat) in
   events r = checks ++ retry_events st 0 (repeat cas_timeout 4)
                     ++ [Executed st (Raised cas_timeout)] /\
   Forall2 pause_of (pauses (events r)) [1; 2; 3; 4]%nat /\
   outcome r = Returns None) /\
  ambiguous cas_timeout.
Proof.
  intros timeouts st checks.
  assert (Hamb : ambiguous cas_timeout).
  { exists "WriteTimeout: ", " - proposal accepted by 1 but not a quorum".
    reflexivity. }
  split; [|split; [|exact Hamb]].
  - destruct (make_reservation_retry_policy "Dune" 7%N "A1" (timeouts 2%nat)
                eq_refl eq_refl) as (es & reply & _ & _ & Hev & Hp & Hout).
    assert (Hes : es = [cas_timeout; cas_timeout] /\
                  reply = Returned [AppliedRow true]).
    { do 3 (destruct es as [|? es]; try discriminate Hev).
      injection Hev as <- <- <-. done. }
    destruct Hes as [-> ->]. split; [exact Hev|]. split; [exact Hp|].
    destruct Hout as (b & [= <-] & Ho). exact Ho.
  - destruct (make_reservation_retry_policy "Dune" 7%N "A1" (timeouts 5%nat)
                eq_refl eq_refl) as (es & reply & _ & _ & Hev & Hp & Hout).
    assert (Hes : es = repeat cas_timeout 4 /\ reply = Raised cas_timeout).
    { do 5 (destruct es as [|? es]; try discriminate Hev).
      injection Hev as <- <- <- <- <-. done. }
    destruct Hes as [-> ->]. split; [exact Hev|]. split; [exact Hp|].
    by destruct Hout as [Ho _].
Defined.

(** ** Transfer, up to its loop and one attempt at a time *)

Lemma session_execute_select (st : Statement) (w : World) :
  is_select st = true -> db (session_execute st w).2 = db w.
Proof.
  intros Hs.
  assert (Hc : (cql st (db w)).2 = db w) by (destruct st; try discriminate; reflexivity).
  destruct (session_execute_cases st w) as [(e & c & rest & _ & ->)|[_ ->]];
    cbn [snd db]; [destruct c|]; congruence.
Qed.

Lemma check_reply (m cur : string) (w : World) :
  let st := reservation_check_stmt m cur in
  (session_execute st w).1 =
    Returned ((λ r, ReservationRow (user_id r) (creation r))
                <$> stored (m, cur) (reservations (db w)))
  \/ exists e, (session_execute st w).1 = Raised e.
Proof.
  intros st. destruct (session_execute_cases st w) as
    [(e & c' & rest & _ & ->)|[_ ->]]; [right; eauto|left]. reflexivity.
Qed.

Lemma run_datetime_now {A} (f : datetime -> Prog A) (w : World) :
  run (now <- datetime_now;; f now) w = run (f (clock w (readings w))) (read_clock w).2.
Proof. reflexivity. Qed.

(** [update_reservation] up to its loop: the two existence checks, the read of
    the current reservation, the ownership test and the same-seat shortcut. *)
Lemma run_update_reservation (m cur new : string) (u : uuid) (w : World) :
  let movie_read := session_execute (movie_check_stmt m) w in
  let user_read := session_execute (user_check_by_id_stmt u) movie_read.2 in
  let now := clock w (readings w) in
  let checks := [Executed (movie_check_stmt m) movie_read.1;
                 Executed (user_check_by_id_stmt u) user_read.1] in
  let chk := reservation_check_stmt m cur in
  let check := session_execute chk (read_clock user_read.2).2 in
  let reads := checks ++ [Executed chk check.1] in
  run (update_reservation m cur new u) w =
  if hit movie_read.1 then
    if hit user_read.1 then
      match check.1, stored (m, cur) (reservations (db w)) with
      | Returned _, row :: _ =>
          if bool_decide (user_id row = u) then
            if bool_decide (new = cur) then mkRun (Returns (Some true)) check.2 reads
            else
              let loop := run (for_in (range max_retries)
                                 (transfer_attempt m cur new u (creation row) now)
                                 (Ret None)) check.2 in
              mkRun (match outcome loop with
                     | Returns a => Returns a
                     | Raises _ => Returns (Some false)
                     end)
                    (final loop) (reads ++ events loop)
          else mkRun (Returns (Some false)) check.2 reads
      | _, _ => mkRun (Returns (Some false)) check.2 reads
      end
    else mkRun (Returns (Some false)) user_read.2 checks
  else mkRun (Returns (Some false)) movie_read.2
             [Executed (movie_check_stmt m) movie_read.1].
Proof.
  intros movie_read user_read now checks chk check reads.
  rewrite update_reservation_unfold, run_bind, run_movie_exists. run_step.
  fold movie_read. unfold hit at 1.
  destruct (match movie_read.1 with Returned rs => truthy rs | Raised _ => false end);
    cbn [negb]; [|reflexivity].
  rewrite run_bind, run_user_exists. run_step. fold user_read. unfold hit.
  destruct (match user_read.1 with Returned rs => truthy rs | Raised _ => false end);
    cbn [negb]; [|reflexivity].
  rewrite run_datetime_now, run_try_const.
  assert (Hnow : clock user_read.2 (readings user_read.2) = now).
  { subst now user_read.
    destruct (session_execute_clock (user_check_by_id_stmt u) movie_read.2) as [-> ->].
    subst movie_read.
    by destruct (session_execute_clock (movie_check_stmt m) w) as [-> ->]. }
  rewrite Hnow.
  assert (Hdb : db (read_clock user_read.2).2 = db w).
  { cbn [read_clock snd db]. subst user_read.
    rewrite session_execute_select by reflexivity. subst movie_read.
    by rewrite session_execute_select. }
  rewrite run_bind, run_execute. fold chk check.
  destruct (check_reply m cur (read_clock user_read.2).2) as [Hc|[e Hc]];
    fold chk check in Hc; rewrite Hc; rewrite ?Hdb in *; run_step.
  2: { unfold preceded; cbn. subst reads checks. by rewrite Hc. }
  destruct (stored (m, cur) (reservations (db w))) as [|row rows];
    cbn [fmap list_fmap truthy negb one head attr_user_id attr_creation bind run
         outcome final events preceded app].
  { unfold preceded; cbn. subst reads checks. by rewrite Hc. }
  destruct (bool_decide (user_id row = u)); cbn [negb run outcome final events].
  2: { unfold preceded; cbn. subst reads checks. by rewrite Hc. }
  destruct (bool_decide (new = cur)); cbn [negb run outcome final events].
  { unfold preceded; cbn. subst reads checks. by rewrite Hc. }
  unfold preceded; cbn [outcome final events]. subst reads checks. rewrite Hc.
  cbn [app]. reflexivity.
Qed.

(** One attempt of [update_reservation], by the answers to its calls: the
    claim, then the release, then the rollback. *)
Lemma run_transfer_attempt (m cur new : string) (u : uuid) (created now : datetime)
      (attempt : nat) (w : World) :
  let claim := reservation_insert_stmt m u new created now in
  let release := reservation_delete_stmt m cur u in
  let rollback := reservation_delete_stmt m new u in
  let x1 := session_execute claim w in
  let x2 := session_execute release x1.2 in
  let x3 := session_execute rollback x2.2 in
  let r := run (transfer_attempt m cur new u created now attempt) w in
  (exists e, x1.1 = Raised e /\
     r = preceded [Executed claim x1.1] (run (retry_or_raise attempt e) x1.2)) \/
  (x1.1 = Returned [AppliedRow false] /\
     r = mkRun (Returns (Return (Some false))) x1.2 [Executed claim x1.1]) \/
  (x1.1 = Returned [AppliedRow true] /\
   ((exists e, x2.1 = Raised e /\
       r = preceded [Executed claim x1.1; Executed release x2.1]
                    (run (retry_or_raise attempt e) x2.2)) \/
    (x2.1 = Returned [AppliedRow true] /\
       r = mkRun (Returns (Return (Some true))) x2.2
                 [Executed claim x1.1; Executed release x2.1]) \/
    (x2.1 = Returned [AppliedRow false] /\
     ((exists e, x3.1 = Raised e /\
         r = preceded [Executed claim x1.1; Executed release x2.1;
                       Executed rollback x3.1]
                      (run (retry_or_raise attempt e) x3.2)) \/
      (exists rs, x3.1 = Returned rs /\
         r = mkRun (Returns (Return (Some false))) x3.2
                   [Executed claim x1.1; Executed release x2.1;
                    Executed rollback x3.1]))))).
Proof.
  intros claim release rollback x1 x2 x3 r. subst r.
  unfold transfer_attempt. fold claim release rollback.
  rewrite run_try_except, run_bind, run_execute. fold x1.
  destruct (insert_reply m u new created now w) as [H1|[e H1]];
    fold claim in H1; fold x1 in H1; rewrite H1; [|left; eauto].
  right. run_step.
  destruct (vacant (m, new) (reservations (db w)));
    cbn [was_applied bind negb run outcome final events preceded app];
    [right|left; split; reflexivity].
  split; [reflexivity|].
  rewrite run_bind, run_execute. fold x2.
  destruct (delete_reply m cur u x1.2) as [[b H2]|[e H2]];
    fold release in H2; fold x2 in H2; rewrite H2; [|left; eauto].
  right. run_step.
  destruct b; cbn [was_applied bind run outcome final events preceded app];
    [left; split; reflexivity|right].
  split; [reflexivity|].
  rewrite run_bind, run_execute. fold x3.
  destruct x3.1 as [rs|e] eqn:H3; run_step; cbn [run outcome final events preceded app];
    [right|left]; eauto.
Qed.

(** ** Reading the events of a retry loop *)

Lemma retried_spec (claim : Statement) :
  forall (pre : list Event) (a : nat) (evs : list Event) (st : Statement)
         (e : string) (post : list Event),
    retried claim a evs ->
    evs = pre ++ Executed st (Raised e) :: post ->
    post <> [] ->
    cas_unknown e = true /\
    (a + sleeps pre < max_retries - 1)%nat /\
    exists reply post',
      post = Slept (backoff (a + sleeps pre)) :: Executed claim reply :: post'.
Proof.
  induction pre as [|ev pre IH]; intros a evs st e post Hr -> Hpost.
  - cbn in Hr. destruct Hr as [[->|(Hc & reply & post' & ->)] Hrest]; [done|].
    cbn in Hrest. destruct Hrest as [Ha _]. rewrite Nat.add_0_r.
    split; [exact Hc|]. split; [exact Ha|]. eauto.
  - destruct ev as [st' [rs|e']|d]; cbn [app retried sleeps] in *.
    + exact (IH _ _ _ _ _ Hr eq_refl Hpost).
    + destruct Hr as [_ Hr]. exact (IH _ _ _ _ _ Hr eq_refl Hpost).
    + destruct Hr as [_ Hr]. rewrite <- Nat.add_succ_comm.
      exact (IH _ _ _ _ _ Hr eq_refl Hpost).
Qed.

Lemma retried_sleeps (claim : Statement) :
  forall (evs : list Event) (a : nat),
    (a <= max_retries - 1)%nat ->
    retried claim a evs -> (a + sleeps evs <= max_retries - 1)%nat.
Proof.
  induction evs as [|[st [rs|e]|d] evs IH]; intros a Hle Hr;
    cbn [retried sleeps] in *.
  - lia.
  - auto.
  - destruct Hr as [_ Hr]. auto.
  - destruct Hr as [Ha Hr]. apply IH in Hr; lia.
Qed.

Lemma only_last_spec (P : Event -> Prop) :
  forall (pre : list Event) (evs : list Event) (ev : Event) (post : list Event),
    only_last P evs -> evs = pre ++ ev :: post -> P ev -> post = [].
Proof.
  induction pre as [|x pre IH]; intros evs ev post Ho -> Hp; cbn in Ho.
  - destruct Ho as [H _]. auto.
  - destruct Ho as [_ Ho]. exact (IH _ _ _ Ho eq_refl Hp).
Qed.

Lemma attempt_trace_head (claim release rollback : Statement)
      (steps : list Event) (en : AttemptEnd) :
  attempt_trace claim release rollback steps en ->
  exists reply rest, steps = Executed claim reply :: rest.
Proof. destruct 1; eauto. Qed.

Lemma loop_trace_head (claim release rollback : Statement) (a : nat)
      (evs : list Event) (o : Outcome (option bool)) :
  loop_trace claim release rollback a evs o ->
  exists reply rest, evs = Executed claim reply :: rest.
Proof.
  destruct 1 as [a steps H|a steps H|a steps H|a steps e H _|a steps e evs o H _ _ _];
    destruct (attempt_trace_head _ _ _ _ _ H) as (reply & rest & ->); cbn; eauto.
Qed.

(** The loop keeps the retry discipline. *)
Lemma loop_trace_retried (claim release rollback : Statement) (a : nat)
      (evs : list Event) (o : Outcome (option bool)) :
  loop_trace claim release rollback a evs o -> retried claim a evs.
Proof.
  induction 1 as [a steps H|a steps H|a steps H|a steps e H Hend
                 |a steps e evs o H Hc Ha Hl IH].
  - inversion H; subst; cbn; auto.
  - inversion H; subst; cbn; auto.
  - inversion H; subst; cbn; auto.
  - inversion H; subst; cbn; auto.
  - destruct (loop_trace_head _ _ _ _ _ _ Hl) as (reply & rest & ->).
    inversion H; subst; cbn [app retried]; repeat split; eauto 10.
Qed.

(** A refused claim ends the loop: nothing is done after it. *)
Lemma loop_trace_refused_last (claim release rollback : Statement) (a : nat)
      (evs : list Event) (o : Outcome (option bool)) :
  claim <> release ->
  loop_trace claim release rollback a evs o ->
  only_last (λ ev, ev = Executed claim (Returned [AppliedRow false])) evs.
Proof.
  intros Hne.
  induction 1 as [a steps H|a steps H|a steps H|a steps e H Hend
                 |a steps e evs o H Hc Ha Hl IH];
    inversion H; subst; cbn [app only_last]; repeat split; auto;
    intros Heq; try discriminate Heq; injection Heq as Heq; congruence.
Qed.

(** How the loop ends, read off its last events. *)
Lemma loop_trace_end (claim release rollback : Statement) (a : nat)
      (evs : list Event) (o : Outcome (option bool)) :
  loop_trace claim release rollback a evs o ->
  exists pre ev, evs = pre ++ [ev] /\
    match o with
    | Returns (Some true) =>
        ev = Executed release (Returned [AppliedRow true]) /\
        exists pre', pre = pre' ++ [Executed claim (Returned [AppliedRow true])]
    | Returns (Some false) =>
        ev = Executed claim (Returned [AppliedRow false]) \/
        exists rs, ev = Executed rollback (Returned rs)
    | Returns None => False
    | Raises e => exists st, ev = Executed st (Raised e)
    end.
Proof.
  induction 1 as [a steps H|a steps H|a steps H|a steps e H Hend
                 |a steps e evs o H Hc Ha Hl IH].
  - inversion H; subst. eexists [_], _. split; [reflexivity|]. split; [reflexivity|].
    by exists [].
  - inversion H; subst. exists [], (Executed claim (Returned [AppliedRow false])). eauto.
  - inversion H; subst. eexists [_; _], _. split; [reflexivity|]. eauto.
  - inversion H; subst.
    + exists [], (Executed claim (Raised e)). eauto.
    + eexists [_], _. split; [reflexivity|]. eauto.
    + eexists [_; _], _. split; [reflexivity|]. eauto.
  - destruct IH as (pre & ev & -> & Hev).
    exists (steps ++ Slept (backoff a) :: pre), ev.
    split; [by rewrite <- app_assoc|].
    destruct o as [[[|]|]|e']; try exact Hev.
    destruct Hev as [-> [pre' ->]]. split; [reflexivity|].
    exists (steps ++ Slept (backoff a) :: pre'). by rewrite <- app_assoc.
Qed.

Local Ltac failed_attempt Heq Hstep steps retry :=
  rewrite run_for_in_seq, Heq, run_retry_or_raise;
  match goal with
  | |- context [cas_unknown ?e && (?a <? _)%nat] =>
      let Hc := fresh "Hc" in
      let Hlt := fresh "Hlt" in
      destruct (cas_unknown e) eqn:Hc;
      destruct (Nat.ltb_spec a (max_retries - 1)) as [Hlt|Hlt];
      cbn [andb]; run_step; rewrite ?Hstep;
      [ refine (loop_retry _ _ _ a steps e _ _ _ Hc Hlt _);
        [constructor|retry]
      | apply loop_raise; [constructor|auto]
      | apply loop_raise; [constructor|auto]
      | apply loop_raise; [constructor|auto] ]
  end.

(** The loop of [update_reservation] behaves as [loop_trace] says. *)
Lemma run_transfer_loop_trace (m cur new : string) (u : uuid)
      (created now : datetime) :
  forall (n a : nat) (w : World),
    (a + S n = max_retries)%nat ->
    let r := run (for_in (seq a (S n)) (transfer_attempt m cur new u created now)
                         (Ret None)) w in
    loop_trace (reservation_insert_stmt m u new created now)
               (reservation_delete_stmt m cur u)
               (reservation_delete_stmt m new u)
               a (events r) (outcome r).
Proof.
  set (claim := reservation_insert_stmt m u new created now).
  set (release := reservation_delete_stmt m cur u).
  set (rollback := reservation_delete_stmt m new u).
  induction n as [|n IH]; intros a w Ha r; subst r;
    (destruct (run_transfer_attempt m cur new u created now a w)
      as [(e & H1 & Heq)|[(H1 & Heq)|(H1 & [(e & H2 & Heq)|[(H2 & Heq)|
            (H2 & [(e & H3 & Heq)|(rs & H3 & Heq)])]])]];
      fold claim release rollback in H1, Heq |- *;
      try fold claim release rollback in H2; try fold claim release rollback in H3).
  - failed_attempt Heq H1 [Executed claim (Raised e)]
      ltac:(unfold max_retries in *; lia).
  - rewrite run_for_in_seq, Heq. run_step. rewrite H1. apply loop_refused. constructor.
  - rewrite H1 in Heq.
    failed_attempt Heq H2 [Executed claim (Returned [AppliedRow true]);
                           Executed release (Raised e)]
      ltac:(unfold max_retries in *; lia).
  - rewrite run_for_in_seq, Heq. run_step. rewrite H1, H2. apply loop_moved. constructor.
  - rewrite H1, H2 in Heq.
    failed_attempt Heq H3 [Executed claim (Returned [AppliedRow true]);
                           Executed release (Returned [AppliedRow false]);
                           Executed rollback (Raised e)]
      ltac:(unfold max_retries in *; lia).
  - rewrite run_for_in_seq, Heq. run_step. rewrite H1, H2, H3.
    apply loop_rolled_back. constructor.
  - failed_attempt Heq H1 [Executed claim (Raised e)]
      ltac:(apply IH; lia).
  - rewrite run_for_in_seq, Heq. run_step. rewrite H1. apply loop_refused. constructor.
  - rewrite H1 in Heq.
    failed_attempt Heq H2 [Executed claim (Returned [AppliedRow true]);
                           Executed release (Raised e)]
      ltac:(apply IH; lia).
  - rewrite run_for_in_seq, Heq. run_step. rewrite H1, H2. apply loop_moved. constructor.
  - rewrite H1, H2 in Heq.
    failed_attempt Heq H3 [Executed claim (Returned [AppliedRow true]);
                           Executed release (Returned [AppliedRow false]);
                           Executed rollback (Raised e)]
      ltac:(apply IH; lia).
  - rewrite run_for_in_seq, Heq. run_step. rewrite H1, H2, H3.
    apply loop_rolled_back. constructor.
Qed.

(** ** What the statements do to the tables *)

Lemma session_execute_returned (st : Statement) (w : World) (rs : ResultSet) :
  (session_execute st w).1 = Returned rs ->
  rs = (cql st (db w)).1 /\ db (session_execute st w).2 = (cql st (db w)).2.
Proof.
  destruct (session_execute_cases st w) as [(e & c & rest & _ & ->)|[_ ->]];
    cbn [fst snd db]; [discriminate|]. intros [= <-]. done.
Qed.

Lemma session_execute_db (st : Statement) (w : World) :
  db (session_execute st w).2 = db w \/
  db (session_execute st w).2 = (cql st (db w)).2.
Proof.
  destruct (session_execute_cases st w) as [(e & c & rest & _ & ->)|[_ ->]];
    cbn [snd db]; [destruct c|]; auto.
Qed.

Lemma stored_app (k : Key) (l1 l2 : list Reservation) :
  stored k (l1 ++ l2) = stored k l1 ++ stored k l2.
Proof. apply filter_app. Qed.

Lemma stored_singleton_eq (k : Key) (r : Reservation) :
  key_of r = k -> stored k [r] = [r].
Proof. intros H. unfold stored. rewrite filter_cons_True by exact H. done. Qed.

Lemma stored_singleton_ne (k : Key) (r : Reservation) :
  key_of r <> k -> stored k [r] = [].
Proof. intros H. unfold stored. rewrite filter_cons_False by exact H. done. Qed.

Lemma stored_released_eq (k : Key) (l : list Reservation) :
  stored k (filter (λ r, key_of r ≠ k) l) = [].
Proof.
  unfold stored. induction l as [|r l IH]; [done|].
  destruct (decide (key_of r = k)) as [Heq|Hne].
  - rewrite filter_cons_False by (intros H; exact (H Heq)). exact IH.
  - rewrite filter_cons_True by exact Hne.
    rewrite filter_cons_False by exact Hne. exact IH.
Qed.

Lemma stored_released_ne (k k' : Key) (l : list Reservation) :
  k <> k' -> stored k (filter (λ r, key_of r ≠ k') l) = stored k l.
Proof.
  intros Hkk. unfold stored. induction l as [|r l IH]; [done|].
  destruct (decide (key_of r = k')) as [Heq|Hne].
  - rewrite filter_cons_False by (intros H; exact (H Heq)).
    rewrite (filter_cons_False (λ r, key_of r = k)) by congruence. exact IH.
  - rewrite filter_cons_True by exact Hne.
    destruct (decide (key_of r = k)) as [Heq'|Hne'].
    + rewrite !filter_cons_True by exact Heq'. by rewrite IH.
    + rewrite !filter_cons_False by exact Hne'. exact IH.
Qed.

Lemma vacant_stored (k : Key) (l : list Reservation) :
  vacant k l = true <-> stored k l = [].
Proof. unfold vacant. destruct (stored k l); split; congruence. Qed.

(** [INSERT ... IF NOT EXISTS] *)
Lemma cql_insert (m : string) (u : uuid) (s : string) (c md : datetime)
      (d : Database) :
  cql (reservation_insert_stmt m u s c md) d =
  if vacant (m, s) (reservations d)
  then ([AppliedRow true],
        set_reservations d (reservations d ++ [mkReservation m s u c md]))
  else ([AppliedRow false], d).
Proof. reflexivity. Qed.

(** [DELETE ... IF user_id = ?], when the key holds a row of that user. *)
Lemma cql_delete_owned (m s : string) (u : uuid) (d : Database)
      (r : Reservation) (l : list Reservation) :
  stored (m, s) (reservations d) = r :: l -> user_id r = u ->
  cql (reservation_delete_stmt m s u) d =
  ([AppliedRow true],
   set_reservations d (filter (λ r, key_of r ≠ (m, s)) (reservations d))).
Proof.
  intros Hs Hu. cbn [cql]. rewrite Hs. by rewrite bool_decide_eq_true_2.
Qed.

(** An occupied key stays as it is under an insert, committed or not. *)
Lemma session_execute_insert_occupied (m : string) (u : uuid) (s : string)
      (c md : datetime) (w : World) :
  vacant (m, s) (reservations (db w)) = false ->
  let x := session_execute (reservation_insert_stmt m u s c md) w in
  db x.2 = db w /\ x.1 <> Returned [AppliedRow true].
Proof.
  intros Hocc x. subst x.
  assert (Hc : cql (reservation_insert_stmt m u s c md) (db w) = ([AppliedRow false], db w))
    by (rewrite cql_insert, Hocc; reflexivity).
  destruct (session_execute_cases (reservation_insert_stmt m u s c md) w)
    as [(e & c' & rest & _ & ->)|[_ ->]]; cbn [fst snd db]; rewrite Hc.
  - split; [by destruct c'|discriminate].
  - split; [reflexivity|discriminate].
Qed.

Lemma run_clock {A} (p : Prog A) (w : World) :
  clock (final (run p w)) = clock w /\
  (readings w <= readings (final (run p w)))%nat.
Proof.
  revert w. induction p as [a|e|s k IH|k IH|d k IH]; intros w; cbn [run].
  - done.
  - done.
  - destruct (session_execute_clock s w) as [Hc Hr].
    destruct (session_execute s w) as [r w']. cbn [snd] in *.
    destruct (IH r w') as [Hc' Hr']. cbn [final preceded]. split; [congruence|lia].
  - cbn [read_clock]. match goal with |- context [run (k ?t) ?w'] =>
      destruct (IH t w') as [Hc' Hr'] end.
    cbn [clock readings] in *. split; [congruence|lia].
  - cbn [final preceded]. apply IH.
Qed.

(** ** What the loops do to the tables *)

(** Booking an occupied seat changes nothing and never succeeds. *)
Lemma book_loop_occupied (m : string) (u : uuid) (s : string) (now : datetime) :
  forall (n a : nat) (w : World),
    vacant (m, s) (reservations (db w)) = false ->
    let r := run (for_in (seq a n) (book_attempt m u s now) (Ret (Some false))) w in
    db (final r) = db w /\ outcome r <> Returns (Some true).
Proof.
  induction n as [|n IH]; intros a w Hocc r; subst r.
  - cbn. split; [reflexivity|discriminate].
  - rewrite run_for_in_seq.
    destruct (session_execute_insert_occupied m u s now now w Hocc) as [Hdb Hno].
    destruct (run_book_attempt m u s now a w) as [(b & Hx & ->)|(e & Hx & ->)].
    + run_step. split; [exact Hdb|]. intros [= ->]. exact (Hno Hx).
    + rewrite run_retry_or_raise.
      destruct (cas_unknown e && (a <? max_retries - 1)%nat); run_step.
      * rewrite <- Hdb in Hocc. destruct (IH (S a) _ Hocc) as [Hd Ho].
        split; [congruence|exact Ho].
      * split; [exact Hdb|discriminate].
Qed.

(** A booking that succeeds found the seat vacant and added its row. *)
Lemma book_loop_success (m : string) (u : uuid) (s : string) (now : datetime) :
  forall (n a : nat) (w : World),
    let r := run (for_in (seq a n) (book_attempt m u s now) (Ret (Some false))) w in
    outcome r = Returns (Some true) ->
    vacant (m, s) (reservations (db w)) = true /\
    db (final r) =
      set_reservations (db w) (reservations (db w) ++ [mkReservation m s u now now]).
Proof.
  induction n as [|n IH]; intros a w r Ho; subst r; [discriminate Ho|].
  destruct (vacant (m, s) (reservations (db w))) eqn:Hvac.
  2: { by destruct (book_loop_occupied m u s now (S n) a w Hvac) as [_ []]. }
  split; [reflexivity|]. revert Ho. rewrite run_for_in_seq.
  set (st := reservation_insert_stmt m u s now now).
  assert (Hcql : (cql st (db w)).2 =
            set_reservations (db w) (reservations (db w) ++ [mkReservation m s u now now]))
    by (subst st; rewrite cql_insert, Hvac; reflexivity).
  destruct (run_book_attempt m u s now a w) as [(b & Hx & ->)|(e & Hx & ->)];
    fold st in Hx |- *.
  - run_step. intros _. apply session_execute_returned in Hx as [_ ->]. exact Hcql.
  - rewrite run_retry_or_raise.
    destruct (cas_unknown e && (a <? max_retries - 1)%nat); run_step; [|discriminate].
    intros Ho. destruct (session_execute_db st w) as [Hdb|Hdb].
    + destruct (IH (S a) _ Ho) as [_ ->]. by rewrite Hdb.
    + assert (Hocc : vacant (m, s) (reservations (db (session_execute st w).2)) = false).
      { rewrite Hdb, Hcql. cbn [reservations set_reservations]. unfold vacant.
        rewrite stored_app, stored_singleton_eq by reflexivity.
        apply vacant_stored in Hvac. by rewrite Hvac. }
      by destruct (book_loop_occupied m u s now n (S a) _ Hocc) as [_ []].
Qed.

(** A transfer to an occupied seat changes nothing, issues no delete and never
    succeeds. *)
Lemma transfer_loop_occupied (m cur new : string) (u : uuid)
      (created now : datetime) :
  forall (n a : nat) (w : World),
    vacant (m, new) (reservations (db w)) = false ->
    let r := run (for_in (seq a n) (transfer_attempt m cur new u created now)
                         (Ret None)) w in
    db (final r) = db w /\ outcome r <> Returns (Some true) /\
    Forall (λ ev, ~ is_delete ev) (events r).
Proof.
  induction n as [|n IH]; intros a w Hocc r; subst r.
  - cbn. split; [reflexivity|]. split; [discriminate|constructor].
  - rewrite run_for_in_seq.
    destruct (session_execute_insert_occupied m u new created now w Hocc) as [Hdb Hno].
    destruct (run_transfer_attempt m cur new u created now a w)
      as [(e & H1 & ->)|[(H1 & ->)|(H1 & _)]]; [| |by destruct (Hno H1)].
    + rewrite run_retry_or_raise.
      destruct (cas_unknown e && (a <? max_retries - 1)%nat); run_step.
      * rewrite <- Hdb in Hocc. destruct (IH (S a) _ Hocc) as (Hd & Ho & Hev).
        split; [congruence|]. split; [exact Ho|].
        repeat (constructor; [cbn; tauto|]). exact Hev.
      * split; [exact Hdb|]. split; [discriminate|].
        repeat (constructor; [cbn; tauto|]). constructor.
    + run_step. split; [exact Hdb|]. split; [discriminate|].
      repeat (constructor; [cbn; tauto|]). constructor.
Qed.

(** A transfer that succeeds found the new seat vacant, added the row of the
    new seat and removed the row of the old one; nothing else changed. *)
Lemma transfer_loop_success (m cur new : string) (u : uuid)
      (created now : datetime) :
  forall (n a : nat) (w : World) (orig : Reservation) (others : list Reservation),
    new <> cur ->
    stored (m, cur) (reservations (db w)) = orig :: others ->
    user_id orig = u ->
    let r := run (for_in (seq a n) (transfer_attempt m cur new u created now)
                         (Ret None)) w in
    outcome r = Returns (Some true) ->
    vacant (m, new) (reservations (db w)) = true /\
    db (final r) =
      set_reservations (db w)
        (filter (λ x, key_of x ≠ (m, cur))
                (reservations (db w) ++ [mkReservation m new u created now])).
Proof.
  induction n as [|n IH]; intros a w orig others Hne Hcur Hown r Ho; subst r;
    [discriminate Ho|].
  destruct (vacant (m, new) (reservations (db w))) eqn:Hvac.
  2: { by destruct (transfer_loop_occupied m cur new u created now (S n) a w Hvac)
         as (_ & [] & _). }
  split; [reflexivity|]. revert Ho. rewrite run_for_in_seq.
  set (claim := reservation_insert_stmt m u new created now).
  set (release := reservation_delete_stmt m cur u).
  set (row := mkReservation m new u created now).
  set (d1 := set_reservations (db w) (reservations (db w) ++ [row])).
  assert (Hcql : (cql claim (db w)).2 = d1)
    by (subst claim; rewrite cql_insert, Hvac; reflexivity).
  assert (Hkey : key_of row ≠ (m, cur))
    by (intros Hk; apply Hne; subst row; unfold key_of in Hk; cbn in Hk; congruence).
  assert (Hcur1 : stored (m, cur) (reservations d1) = orig :: others).
  { subst d1. cbn [reservations set_reservations].
    rewrite stored_app, stored_singleton_ne, app_nil_r by exact Hkey. exact Hcur. }
  assert (Hocc1 : vacant (m, new) (reservations d1) = false).
  { subst d1. cbn [reservations set_reservations]. unfold vacant.
    rewrite stored_app, stored_singleton_eq by reflexivity.
    apply vacant_stored in Hvac. by rewrite Hvac. }
  assert (Hrel : cql release d1 =
            ([AppliedRow true],
             set_reservations (db w)
               (filter (λ x, key_of x ≠ (m, cur)) (reservations (db w) ++ [row]))))
    by (subst release; rewrite (cql_delete_owned _ _ _ _ _ _ Hcur1 Hown); reflexivity).
  assert (Hocc2 : vacant (m, new) (reservations (cql release d1).2) = false).
  { rewrite Hrel. cbn [snd reservations set_reservations]. unfold vacant.
    rewrite stored_released_ne by congruence.
    rewrite stored_app, stored_singleton_eq by reflexivity.
    apply vacant_stored in Hvac. by rewrite Hvac. }
  destruct (run_transfer_attempt m cur new u created now a w)
    as [(e & H1 & ->)|[(H1 & ->)|(H1 & [(e & H2 & ->)|[(H2 & ->)|(H2 & _)]])]];
    fold claim release in H1 |- *; try fold claim release in H2.
  - rewrite run_retry_or_raise.
    destruct (cas_unknown e && (a <? max_retries - 1)%nat); run_step; [|discriminate].
    intros Ho. destruct (session_execute_db claim w) as [Hdb|Hdb].
    + rewrite <- Hdb in Hcur. destruct (IH (S a) _ _ _ Hne Hcur Hown Ho) as [_ ->].
      by rewrite Hdb.
    + rewrite Hcql in Hdb. rewrite <- Hdb in Hocc1.
      by destruct (transfer_loop_occupied m cur new u created now n (S a) _ Hocc1)
        as (_ & [] & _).
  - discriminate.
  - apply session_execute_returned in H1 as [_ H1]. rewrite Hcql in H1.
    rewrite run_retry_or_raise.
    destruct (cas_unknown e && (a <? max_retries - 1)%nat); run_step; [|discriminate].
    intros Ho.
    assert (Hocc : vacant (m, new)
              (reservations (db (session_execute release (session_execute claim w).2).2))
              = false).
    { destruct (session_execute_db release (session_execute claim w).2) as [Hdb|Hdb];
        rewrite Hdb, H1; [exact Hocc1|exact Hocc2]. }
    by destruct (transfer_loop_occupied m cur new u created now n (S a) _ Hocc)
      as (_ & [] & _).
  - run_step. intros _.
    apply session_execute_returned in H1 as [_ H1]. rewrite Hcql in H1.
    apply session_execute_returned in H2 as [_ H2]. rewrite H2, H1, Hrel. reflexivity.
  - apply session_execute_returned in H1 as [_ H1]. rewrite Hcql in H1.
    apply session_execute_returned in H2 as [H2 _]. rewrite H1, Hrel in H2.
    discriminate H2.
Qed.

(** ** The whole methods, when they succeed *)

Lemma make_reservation_booked (m : string) (u : uuid) (s : string) (w : World) :
  let r := run (make_reservation m u s) w in
  let now := clock w (readings w) in
  outcome r = Returns (Some true) ->
  vacant (m, s) (reservations (db w)) = true /\
  db (final r) =
    set_reservations (db w) (reservations (db w) ++ [mkReservation m s u now now]) /\
  (readings w < readings (final r))%nat.
Proof.
  intros r now. subst r. rewrite run_make_reservation. fold now.
  set (movie_read := session_execute (movie_check_stmt m) w).
  set (user_read := session_execute (user_check_by_id_stmt u) movie_read.2).
  destruct (hit movie_read.1); [|discriminate].
  destruct (hit user_read.1); [|discriminate].
  cbn [outcome final]. unfold range. intros Ho.
  set (w2 := (read_clock user_read.2).2) in *.
  assert (Hdb : db w2 = db w).
  { subst w2 user_read movie_read. cbn [read_clock snd db].
    by rewrite !session_execute_select. }
  assert (Hrd : readings w2 = S (readings w)).
  { subst w2 user_read movie_read. cbn [read_clock snd readings].
    destruct (session_execute_clock (user_check_by_id_stmt u)
                (session_execute (movie_check_stmt m) w).2) as [_ ->].
    by destruct (session_execute_clock (movie_check_stmt m) w) as [_ ->]. }
  destruct (book_loop_success m u s now max_retries 0 w2) as [Hv Hd].
  { destruct (outcome (run _ w2)) as [a|e]; [exact Ho|discriminate Ho]. }
  rewrite Hdb in Hv, Hd. split; [exact Hv|]. split; [exact Hd|].
  match goal with |- context [run ?p w2] =>
    destruct (run_clock p w2) as [_ Hr] end. lia.
Qed.

Lemma update_reservation_moved (m cur new : string) (u : uuid) (w : World) :
  let r := run (update_reservation m cur new u) w in
  let now := clock w (readings w) in
  new <> cur ->
  outcome r = Returns (Some true) ->
  exists orig others,
    stored (m, cur) (reservations (db w)) = orig :: others /\
    user_id orig = u /\
    vacant (m, new) (reservations (db w)) = true /\
    db (final r) =
      set_reservations (db w)
        (filter (λ x, key_of x ≠ (m, cur))
                (reservations (db w) ++ [mkReservation m new u (creation orig) now])) /\
    (readings w < readings (final r))%nat.
Proof.
  intros r now Hne. subst r. rewrite run_update_reservation. fold now.
  set (movie_read := session_execute (movie_check_stmt m) w).
  set (user_read := session_execute (user_check_by_id_stmt u) movie_read.2).
  set (w2 := (read_clock user_read.2).2).
  set (check := session_execute (reservation_check_stmt m cur) w2).
  destruct (hit movie_read.1); [|discriminate].
  destruct (hit user_read.1); [|discriminate].
  destruct check.1 as [rows|e]; [|discriminate].
  destruct (stored (m, cur) (reservations (db w))) as [|orig others] eqn:Hcur;
    [discriminate|].
  destruct (bool_decide (user_id orig = u)) eqn:Hown; [|discriminate].
  apply bool_decide_eq_true_1 in Hown.
  rewrite bool_decide_eq_false_2 by exact Hne.
  cbn [outcome final]. unfold range. intros Ho.
  assert (Hdb : db check.2 = db w).
  { subst check w2 user_read movie_read.
    rewrite session_execute_select by reflexivity. cbn [read_clock snd db].
    by rewrite !session_execute_select. }
  assert (Hrd : readings check.2 = S (readings w)).
  { subst check w2 user_read movie_read.
    destruct (session_execute_clock (reservation_check_stmt m cur)
      (read_clock (session_execute (user_check_by_id_stmt u)
         (session_execute (movie_check_stmt m) w).2).2).2) as [_ ->].
    cbn [read_clock snd readings].
    destruct (session_execute_clock (user_check_by_id_stmt u)
                (session_execute (movie_check_stmt m) w).2) as [_ ->].
    by destruct (session_execute_clock (movie_check_stmt m) w) as [_ ->]. }
  rewrite <- Hdb in Hcur.
  destruct (transfer_loop_success m cur new u (creation orig) now max_retries 0
              check.2 orig others Hne Hcur Hown) as [Hv Hd].
  { destruct (outcome (run _ check.2)) as [a|e]; [exact Ho|discriminate Ho]. }
  rewrite Hdb in Hv, Hd, Hcur. exists orig, others.
  split; [reflexivity|]. repeat (split; [assumption|]).
  match goal with |- context [run ?p check.2] =>
    destruct (run_clock p check.2) as [_ Hr] end. lia.
Qed.

Lemma stored_head_key (k : Key) (l : list Reservation) (r : Reservation)
      (others : list Reservation) :
  stored k l = r :: others -> key_of r = k.
Proof.
  intros H. assert (Hin : r ∈ stored k l) by (rewrite H; left).
  unfold stored in Hin. apply list_elem_of_filter in Hin. tauto.
Qed.

(** The tables after a transfer that succeeded, key by key. *)
Lemma moved_tables (m cur new : string) (row : Reservation) (l : list Reservation) :
  new <> cur -> key_of row = (m, new) -> vacant (m, new) l = true ->
  let l' := filter (λ x, key_of x ≠ (m, cur)) (l ++ [row]) in
  stored (m, new) l' = [row] /\
  stored (m, cur) l' = [] /\
  forall k, k <> (m, cur) -> k <> (m, new) -> stored k l' = stored k l.
Proof.
  intros Hne Hkey Hvac l'. subst l'. apply vacant_stored in Hvac.
  split; [|split].
  - rewrite stored_released_ne by congruence.
    by rewrite stored_app, Hvac, stored_singleton_eq.
  - apply stored_released_eq.
  - intros k Hk1 Hk2. rewrite stored_released_ne by exact Hk1.
    rewrite stored_app, stored_singleton_ne, app_nil_r by congruence. reflexivity.
Qed.

(** ** Transfer *)

(** C5: after a transfer from the current seat to a different seat that
    returned [True], the new seat holds exactly one row; it has the user and
    the creation time of the row read at the current seat, the same movie, the
    new seat, and the time of this call as modification time.  The current
    seat holds no row any more and no other key has changed. *)
Theorem update_reservation_keeps_creation (m cur new : string) (u : uuid)
        (w : World) :
  let r := run (update_reservation m cur new u) w in
  new <> cur ->
  outcome r = Returns (Some true) ->
  exists original moved,
    head (stored (m, cur) (reservations (db w))) = Some original /\
    stored (m, new) (reservations (db (final r))) = [moved] /\
    user_id original = u /\
    user_id moved = user_id original /\
    creation moved = creation original /\
    movie_name moved = movie_name original /\
    seat moved = new /\
    modification moved = clock w (readings w) /\
    stored (m, cur) (reservations (db (final r))) = [] /\
    forall k, k <> (m, cur) -> k <> (m, new) ->
      stored k (reservations (db (final r))) = stored k (reservations (db w)).
Proof.
  intros r Hne Ho.
  destruct (update_reservation_moved m cur new u w Hne Ho)
    as (orig & others & Hcur & Hown & Hvac & Hdb & _).
  fold r in Hdb. rewrite Hdb. cbn [reservations set_reservations].
  set (row := mkReservation m new u (creation orig) (clock w (readings w))).
  destruct (moved_tables m cur new row (reservations (db w)) Hne eq_refl Hvac)
    as (Hnew & Hold & Hframe).
  exists orig, row. rewrite Hcur. split; [reflexivity|]. split; [exact Hnew|].
  split; [exact Hown|]. split; [by rewrite Hown|]. split; [reflexivity|].
  split. { apply stored_head_key in Hcur. unfold key_of in Hcur. cbn. congruence. }
  split; [reflexivity|]. split; [reflexivity|]. split; [exact Hold|exact Hframe].
Qed.

Lemma update_reservation_keeps_creation_witness :
  let w := final (run (make_reservation "Dune" 7%N "A1") (demo_world [])) in
  stored ("Dune", "A2")
         (reservations (db (final (run (update_reservation "Dune" "A1" "A2" 7%N) w))))
  = [mkReservation "Dune" "A2" 7%N 1000%Z 1001%Z].
Proof.
  intros w.
  destruct (update_reservation_keeps_creation "Dune" "A1" "A2" 7%N w
              ltac:(discriminate) eq_refl)
    as (original & moved & Horig & -> & _ & Hu & Hc & Hm & Hs & Hmod & _).
  injection Horig as <-. destruct moved; cbn in *. by subst.
Defined.




(** ** The events of a whole call *)

Lemma hit_returned (r : Reply) : hit r = true -> exists rs, r = Returned rs.
Proof. destruct r; [eauto|discriminate]. Qed.

Lemma retried_reads (claim : Statement) (a : nat) (reads evs : list Event) :
  Forall answered_read reads -> retried claim a evs -> retried claim a (reads ++ evs).
Proof.
  induction 1 as [|ev reads Hev _ IH]; intros Hr; [exact Hr|].
  destruct ev as [st [rs|e]|d]; cbn in Hev |- *; try done. auto.
Qed.

Lemma retried_last_read (claim : Statement) (a : nat) (last : Event) :
  is_read last -> retried claim a [last].
Proof. destruct last as [st [rs|e]|d]; cbn; auto; done. Qed.

Lemma only_last_reads (P : Event -> Prop) (reads evs : list Event) :
  Forall (λ ev, ~ P ev) reads -> only_last P evs -> only_last P (reads ++ evs).
Proof.
  induction 1 as [|ev reads Hev _ IH]; intros Hr; [exact Hr|].
  cbn. split; [intros H; by destruct (Hev H)|auto].
Qed.

Lemma retried_retry_events (st : Statement) (reply : Reply) :
  forall (es : list string) (a : nat),
    Forall (λ e, cas_unknown e = true) es ->
    (a + length es <= max_retries - 1)%nat ->
    retried st a (retry_events st a es ++ [Executed st reply]).
Proof.
  induction es as [|e es IH]; intros a Hall Hlen; cbn [retry_events app].
  - destruct reply; cbn; auto.
  - inversion Hall as [|? ? Hc Hall']; subst. cbn [length] in Hlen.
    cbn [retried]. split.
    + right. split; [exact Hc|]. destruct es as [|e' es]; cbn; eauto.
    + split; [lia|]. apply IH; [exact Hall'|lia].
Qed.

(** What [update_reservation] does, as a whole: it ends on one of its reads,
    or it reaches its retry loop after three answered reads. *)
Lemma update_reservation_shape (m cur new : string) (u : uuid) (w : World) :
  let r := run (update_reservation m cur new u) w in
  let now := clock w (readings w) in
  (exists reads last b,
     events r = reads ++ [last] /\ Forall answered_read reads /\ is_read last /\
     outcome r = Returns (Some b) /\ (is_raise last -> b = false)) \/
  (exists created reads evs o,
     new <> cur /\
     events r = reads ++ evs /\ Forall answered_read reads /\
     loop_trace (reservation_insert_stmt m u new created now)
                (reservation_delete_stmt m cur u)
                (reservation_delete_stmt m new u) 0 evs o /\
     outcome r = match o with
                 | Returns a => Returns a
                 | Raises _ => Returns (Some false)
                 end).
Proof.
  intros r now. subst r. rewrite run_update_reservation. fold now.
  set (movie_read := session_execute (movie_check_stmt m) w).
  set (user_read := session_execute (user_check_by_id_stmt u) movie_read.2).
  set (w2 := (read_clock user_read.2).2).
  set (check := session_execute (reservation_check_stmt m cur) w2).
  destruct (hit movie_read.1) eqn:Hm.
  2: { left. exists [], (Executed (movie_check_stmt m) movie_read.1), false.
       repeat split; auto. }
  apply hit_returned in Hm as [rs1 Hm]. rewrite Hm.
  destruct (hit user_read.1) eqn:Hu.
  2: { left. exists [Executed (movie_check_stmt m) (Returned rs1)],
         (Executed (user_check_by_id_stmt u) user_read.1), false.
       split; [reflexivity|]. split; [repeat constructor|]. repeat split; auto. }
  apply hit_returned in Hu as [rs2 Hu]. rewrite Hu.
  set (reads := [Executed (movie_check_stmt m) (Returned rs1);
                 Executed (user_check_by_id_stmt u) (Returned rs2)]).
  assert (Hreads : Forall answered_read reads) by (repeat constructor).
  assert (Hearly : forall b, (is_raise (Executed (reservation_check_stmt m cur) check.1)
                              -> b = false) ->
    exists reads' last b',
      reads ++ [Executed (reservation_check_stmt m cur) check.1] = reads' ++ [last] /\
      Forall answered_read reads' /\ is_read last /\
      @Returns (option bool) (Some b) = Returns (Some b') /\ (is_raise last -> b' = false)).
  { intros b Hb. exists reads, (Executed (reservation_check_stmt m cur) check.1), b.
    repeat split; auto. }
  destruct check.1 as [rows|e] eqn:Hc.
  2: { left. cbn [outcome events]. apply Hearly. auto. }
  destruct (stored (m, cur) (reservations (db w))) as [|orig others].
  { left. cbn [outcome events]. apply Hearly. auto. }
  destruct (bool_decide (user_id orig = u)).
  2: { left. cbn [outcome events]. apply Hearly. auto. }
  destruct (bool_decide (new = cur)) eqn:Hne.
  { left. cbn [outcome events]. apply Hearly. intros []. }
  apply bool_decide_eq_false_1 in Hne.
  right. cbn [outcome events].
  exists (creation orig), (reads ++ [Executed (reservation_check_stmt m cur) (Returned rows)]).
  eexists _, _. split; [exact Hne|]. split; [reflexivity|].
  split. { apply Forall_app. split; [exact Hreads|]. repeat constructor. }
  split; [|reflexivity].
  apply (run_transfer_loop_trace m cur new u (creation orig) now 4 0 check.2 eq_refl).
Qed.

(** What [make_reservation] does, as a whole: it ends on one of its two reads,
    or it reaches its retry loop after they were answered. *)
Lemma make_reservation_shape (m : string) (u : uuid) (s : string) (w : World) :
  let r := run (make_reservation m u s) w in
  let now := clock w (readings w) in
  let st := reservation_insert_stmt m u s now now in
  (exists reads last,
     events r = reads ++ [last] /\ Forall answered_read reads /\ is_read last /\
     outcome r = Returns (Some false)) \/
  (exists reads es reply,
     events r = reads ++ retry_events st 0 es ++ [Executed st reply] /\
     Forall answered_read reads /\
     (length es <= max_retries - 1)%nat /\
     Forall (λ e, cas_unknown e = true) es /\
     match reply with
     | Returned rs => exists b, rs = [AppliedRow b] /\ outcome r = Returns (Some b)
     | Raised e => outcome r = Returns None
     end).
Proof.
  intros r now st. subst r. rewrite run_make_reservation. fold now.
  set (movie_read := session_execute (movie_check_stmt m) w).
  set (user_read := session_execute (user_check_by_id_stmt u) movie_read.2).
  destruct (hit movie_read.1) eqn:Hm.
  2: { left. exists [], (Executed (movie_check_stmt m) movie_read.1).
       repeat split; auto. }
  apply hit_returned in Hm as [rs1 Hm]. rewrite Hm.
  destruct (hit user_read.1) eqn:Hu.
  2: { left. exists [Executed (movie_check_stmt m) (Returned rs1)],
         (Executed (user_check_by_id_stmt u) user_read.1).
       split; [reflexivity|]. split; [repeat constructor|]. repeat split; auto. }
  apply hit_returned in Hu as [rs2 Hu]. rewrite Hu.
  right. cbn [outcome events]. unfold range, max_retries.
  destruct (run_book_loop m u s now 4 0 (read_clock user_read.2).2 eq_refl)
    as (es & reply & Hlen & Hall & Hev & Hout). fold st in Hev.
  eexists _, es, reply. rewrite Hev. split; [reflexivity|].
  split; [repeat constructor|]. split; [cbn; lia|].
  split; [exact Hall|].
  destruct reply as [rs|e].
  - destruct Hout as (b & -> & ->). eauto.
  - destruct Hout as [-> _]. reflexivity.
Qed.

Lemma gave_up_spec :
  forall (pre : list Event) (a : nat) (evs : list Event) (st : Statement) (e : string),
    gave_up a evs ->
    evs = pre ++ [Executed st (Raised e)] ->
    cas_unknown e = true -> is_select st = false ->
    (max_retries - 1 <= a + sleeps pre)%nat.
Proof.
  induction pre as [|ev pre IH]; intros a evs st e Hg -> Hc Hs.
  - cbn in Hg. destruct Hg as [Hg _]. cbn. rewrite Nat.add_0_r. auto.
  - destruct ev as [st' [rs|e']|d]; cbn [app gave_up sleeps] in *.
    + exact (IH _ _ _ _ Hg eq_refl Hc Hs).
    + destruct Hg as [_ Hg]. exact (IH _ _ _ _ Hg eq_refl Hc Hs).
    + rewrite <- Nat.add_succ_comm. exact (IH _ _ _ _ Hg eq_refl Hc Hs).
Qed.

Lemma gave_up_reads (a : nat) (reads evs : list Event) :
  Forall answered_read reads -> gave_up a evs -> gave_up a (reads ++ evs).
Proof.
  induction 1 as [|ev reads Hev _ IH]; intros Hg; [exact Hg|].
  destruct ev as [st [rs|e]|d]; cbn in Hev |- *; try done. auto.
Qed.

Lemma gave_up_last_read (a : nat) (last : Event) :
  is_read last -> gave_up a [last].
Proof.
  destruct last as [st [rs|e]|d]; cbn.
  - auto.
  - intros Hs. split; [|exact I]. intros _ _ Hs'. congruence.
  - done.
Qed.

Lemma loop_trace_gave_up (claim release rollback : Statement) (a : nat)
      (evs : list Event) (o : Outcome (option bool)) :
  loop_trace claim release rollback a evs o -> gave_up a evs.
Proof.
  induction 1 as [a steps H|a steps H|a steps H|a steps e H Hend
                 |a steps e evs o H Hc Ha Hl IH].
  - inversion H; subst; cbn; auto.
  - inversion H; subst; cbn; auto.
  - inversion H; subst; cbn; auto.
  - inversion H; subst; cbn; (split; [|exact I]); intros _ Hc _;
      (destruct Hend as [Hend|Hend]; [congruence|exact Hend]).
  - inversion H; subst; cbn [app gave_up]; repeat split; auto; discriminate.
Qed.

Lemma update_reservation_gave_up (m cur new : string) (u : uuid) (w : World) :
  gave_up 0 (events (run (update_reservation m cur new u) w)).
Proof.
  destruct (update_reservation_shape m cur new u w)
    as [(reads & last & b & Hev & Hreads & Hlast & _)
       |(created & reads & evs & o & _ & Hev & Hreads & Hloop & _)];
    rewrite Hev.
  - apply gave_up_reads; [exact Hreads|]. by apply gave_up_last_read.
  - apply gave_up_reads; [exact Hreads|].
    exact (loop_trace_gave_up _ _ _ _ _ _ Hloop).
Qed.

Lemma update_reservation_retried (m cur new : string) (u : uuid) (w : World) :
  let r := run (update_reservation m cur new u) w in
  exists created,
    retried (reservation_insert_stmt m u new created (clock w (readings w))) 0 (events r).
Proof.
  intros r.
  destruct (update_reservation_shape m cur new u w)
    as [(reads & last & b & Hev & Hreads & Hlast & _)
       |(created & reads & evs & o & _ & Hev & Hreads & Hloop & _)];
    fold r in Hev; rewrite Hev.
  - exists 0%Z. apply retried_reads; [exact Hreads|]. by apply retried_last_read.
  - exists created. apply retried_reads; [exact Hreads|].
    exact (loop_trace_retried _ _ _ _ _ _ Hloop).
Qed.

Lemma make_reservation_retried (m : string) (u : uuid) (s : string) (w : World) :
  let r := run (make_reservation m u s) w in
  let now := clock w (readings w) in
  retried (reservation_insert_stmt m u s now now) 0 (events r).
Proof.
  intros r now.
  destruct (make_reservation_shape m u s w)
    as [(reads & last & Hev & Hreads & Hlast & _)
       |(reads & es & reply & Hev & Hreads & Hlen & Hall & _)];
    fold r now in Hev; rewrite Hev.
  - apply retried_reads; [exact Hreads|]. by apply retried_last_read.
  - apply retried_reads; [exact Hreads|]. apply retried_retry_events; [exact Hall|lia].
Qed.

(** A call that raised something else than the ambiguous error is the last
    thing a method under the retry discipline does. *)
Lemma retried_other_error_last (claim : Statement) (evs pre post : list Event)
      (st : Statement) (e : string) :
  retried claim 0 evs ->
  evs = pre ++ Executed st (Raised e) :: post ->
  cas_unknown e = false -> post = [].
Proof.
  intros Hr Hev Hc. destruct post as [|ev post]; [reflexivity|].
  destruct (retried_spec claim pre 0 evs st e (ev :: post) Hr Hev) as [Hc' _];
    [discriminate|congruence].
Qed.

Lemma last_event (pre pre' : list Event) (ev ev' : Event) :
  pre ++ [ev] = pre' ++ [ev'] -> ev = ev'.
Proof. intros H. by apply app_inj_tail in H as [_ ->]. Qed.

(** The retry loop of [update_reservation] as it runs: one loop around the
    claim, the release and the rollback.  There are at most 4 pauses, so at
    most 5 attempts in all.  A call that raises and is not the last thing the
    method does (whether it was the claim, the release or the rollback) raised
    the ambiguous error, and is followed by the pause of the attempt and then
    by the claim insert again.  And a write that raises the ambiguous error is
    the last thing the method does only in the 5th attempt. *)
Lemma update_reservation_retries_whole_attempt (m cur new : string) (u : uuid)
        (w : World) :
  let r := run (update_reservation m cur new u) w in
  let now := clock w (readings w) in
  (sleeps (events r) <= max_retries - 1)%nat /\
  (forall pre st e post,
     events r = pre ++ Executed st (Raised e) :: post ->
     post <> [] ->
     cas_unknown e = true /\
     (sleeps pre < max_retries - 1)%nat /\
     exists created reply post',
       post = Slept (backoff (sleeps pre))
                :: Executed (reservation_insert_stmt m u new created now) reply
                :: post') /\
  (forall pre st e,
     events r = pre ++ [Executed st (Raised e)] ->
     cas_unknown e = true -> is_select st = false ->
     (sleeps pre = max_retries - 1)%nat).
Proof.
  intros r now. destruct (update_reservation_retried m cur new u w) as [created Hr].
  fold r now in Hr.
  pose proof (retried_sleeps _ _ 0 ltac:(lia) Hr) as Hle. cbn [Nat.add] in Hle.
  split; [exact Hle|]. split.
  - intros pre st e post Hev Hpost.
    destruct (retried_spec _ pre 0 _ st e post Hr Hev Hpost)
      as (Hc & Hs & reply & post' & ->).
    split; [exact Hc|]. split; [exact Hs|]. eauto.
  - intros pre st e Hev Hc Hs.
    pose proof (gave_up_spec pre 0 _ st e (update_reservation_gave_up m cur new u w)
                  Hev Hc Hs) as Hge. fold r in Hev.
    rewrite Hev in Hle.
    assert (Hsl : sleeps (pre ++ [Executed st (Raised e)]) = sleeps pre).
    { clear. induction pre as [|[? ?|?] pre IH]; cbn; congruence. }
    rewrite Hsl in Hle. cbn [Nat.add] in Hge. lia.
Qed.

(** C3: the release is not retried on its own.  User 7 holds A1 and moves to
    A2; the claim of A2 is applied and the release of A1 raises the ambiguous
    error (the delete was not committed).  After the pause the method issues
    the claim of A2 again, not the release.  That claim is refused by the row
    the call itself wrote a moment before, so the method stops with [False]
    ("new seat is already taken"); the release is never tried again and
    nothing is rolled back: the user is left with both seats. *)
Theorem release_timeout_restarts_at_the_claim :
  let w := booked_world [Healthy; Healthy; Healthy; Healthy;
                         Failure cas_timeout false] in
  let r := run (update_reservation "Dune" "A1" "A2" 7%N) w in
  ambiguous cas_timeout /\
  events r =
    [Executed (movie_check_stmt "Dune") (Returned [MovieRow "Dune"]);
     Executed (user_check_by_id_stmt 7%N) (Returned [UserRow 7%N]);
     Executed (reservation_check_stmt "Dune" "A1")
              (Returned [ReservationRow 7%N 1000%Z]);
     Executed (reservation_insert_stmt "Dune" 7%N "A2" 1000%Z 1001%Z)
              (Returned [AppliedRow true]);
     Executed (reservation_delete_stmt "Dune" "A1" 7%N) (Raised cas_timeout);
     Slept (backoff 0);
     Executed (reservation_insert_stmt "Dune" 7%N "A2" 1000%Z 1001%Z)
              (Returned [AppliedRow false])] /\
  outcome r = Returns (Some false) /\
  reservations (db (final r)) =
    [mkReservation "Dune" "A1" 7%N 1000%Z 1000%Z;
     mkReservation "Dune" "A2" 7%N 1000%Z 1001%Z] /\
  ~ release_retried_alone "Dune" "A1" "A2" 7%N w.
Proof.
  intros w r.
  split. { exists "WriteTimeout: ", " - proposal accepted by 1 but not a quorum".
           reflexivity. }
  split; [reflexivity|]. split; [reflexivity|]. split; [reflexivity|].
  intros H.
  destruct (H [Executed (movie_check_stmt "Dune") (Returned [MovieRow "Dune"]);
               Executed (user_check_by_id_stmt 7%N) (Returned [UserRow 7%N]);
               Executed (reservation_check_stmt "Dune" "A1")
                        (Returned [ReservationRow 7%N 1000%Z]);
               Executed (reservation_insert_stmt "Dune" 7%N "A2" 1000%Z 1001%Z)
                        (Returned [AppliedRow true])]
              cas_timeout
              [Slept (backoff 0);
               Executed (reservation_insert_stmt "Dune" 7%N "A2" 1000%Z 1001%Z)
                        (Returned [AppliedRow false])]
              eq_refl eq_refl ltac:(cbn; lia)) as (reply & post' & Heq).
  discriminate Heq.
Qed.

(** ** Errors *)

(** How the two methods end on an error that is not the ambiguous one: the
    call that raised it is the last thing the method does, and the method
    returns. *)
Lemma store_errors_end_the_call (o : Op) (w : World) :
  let r := run (call o) w in
  (exists v, outcome r = Returns v) /\
  forall pre st e post,
    events r = pre ++ Executed st (Raised e) :: post ->
    cas_unknown e = false ->
    post = [] /\
    outcome r = Returns (match o with
                         | Book _ _ _ => if is_select st then Some false else None
                         | Transfer _ _ _ _ => Some false
                         end).
Proof.
  intros r. destruct o as [m u s|m cur new u]; cbn [call] in r.
  - pose proof (make_reservation_retried m u s w) as Hr. cbv zeta in Hr. fold r in Hr.
    destruct (make_reservation_shape m u s w)
      as [(reads & last & Hev & Hreads & Hlast & Ho)
         |(reads & es & reply & Hev & Hreads & Hlen & Hall & Ho)];
      fold r in Hev, Ho.
    + split; [eauto|]. intros pre st e post Hpre Hc.
      assert (post = []) as -> by exact (retried_other_error_last _ _ _ _ _ _ Hr Hpre Hc).
      split; [reflexivity|]. rewrite Hev in Hpre. apply last_event in Hpre. subst last.
      cbn in Hlast. by rewrite Hlast.
    + split. { destruct reply; [destruct Ho as (b & _ & ->)|]; eauto. }
      intros pre st e post Hpre Hc.
      assert (post = []) as -> by exact (retried_other_error_last _ _ _ _ _ _ Hr Hpre Hc).
      split; [reflexivity|]. rewrite Hev, app_assoc in Hpre. apply last_event in Hpre.
      injection Hpre as <- ->. exact Ho.
  - destruct (update_reservation_retried m cur new u w) as [created Hr]. fold r in Hr.
    destruct (update_reservation_shape m cur new u w)
      as [(reads & last & b & Hev & Hreads & Hlast & Ho & Hb)
         |(created' & reads & evs & lo & _ & Hev & Hreads & Hloop & Ho)];
      fold r in Hev, Ho.
    + split; [eauto|]. intros pre st e post Hpre Hc.
      assert (post = []) as -> by exact (retried_other_error_last _ _ _ _ _ _ Hr Hpre Hc).
      split; [reflexivity|]. rewrite Hev in Hpre. apply last_event in Hpre. subst last.
      rewrite Ho, Hb; [reflexivity|exact I].
    + split. { destruct lo; eauto. }
      intros pre st e post Hpre Hc.
      assert (post = []) as -> by exact (retried_other_error_last _ _ _ _ _ _ Hr Hpre Hc).
      split; [reflexivity|].
      destruct (loop_trace_end _ _ _ _ _ _ Hloop) as (pre' & ev & -> & Hend).
      rewrite Hev, app_assoc in Hpre. apply last_event in Hpre. subst ev.
      rewrite Ho. destruct lo as [[[|]|]|e']; try reflexivity.
      * destruct Hend as [Hend _]. discriminate Hend.
      * destruct Hend.
Qed.

(** C4, as the code has it: neither method ever raises.  A call to the store
    that raises an error other than the ambiguous one is the last thing the
    method does (no retry, no further call), and the error becomes a return
    value that is not [True]: [update_reservation] returns [False], and so
    does [make_reservation] when one of its reads raised. *)
Theorem store_errors_become_results (o : Op) (w : World) :
  let r := run (call o) w in
  (exists v, outcome r = Returns v) /\
  forall pre st e post,
    events r = pre ++ Executed st (Raised e) :: post ->
    ~ ambiguous e ->
    post = [] /\
    outcome r <> Returns (Some true) /\
    match o with
    | Book _ _ _ => is_select st = true -> outcome r = Returns (Some false)
    | Transfer _ _ _ _ => outcome r = Returns (Some false)
    end.
Proof.
  intros r. destruct (store_errors_end_the_call o w) as [Hret Hend]. fold r in Hret, Hend.
  split; [exact Hret|]. intros pre st e post Hev Hamb.
  assert (Hc : cas_unknown e = false).
  { destruct (cas_unknown e) eqn:Hc; [|reflexivity].
    by apply cas_unknown_spec in Hc. }
  destruct (Hend pre st e post Hev Hc) as [-> Ho]. split; [reflexivity|].
  rewrite Ho. destruct o as [m u s|m cur new u].
  - split; [by destruct (is_select st)|]. by intros ->.
  - by split.
Qed.

Lemma store_errors_become_results_witness :
  outcome (run (call (Transfer "Dune" "A1" "A2" 7%N))
               (booked_world [Healthy; Healthy; Healthy;
                              Failure "NoHostAvailable" false]))
  = Returns (Some false).
Proof.
  destruct (store_errors_become_results (Transfer "Dune" "A1" "A2" 7%N)
              (booked_world [Healthy; Healthy; Healthy;
                             Failure "NoHostAvailable" false]))
    as [_ H].
  destruct (H [Executed (movie_check_stmt "Dune") (Returned [MovieRow "Dune"]);
               Executed (user_check_by_id_stmt 7%N) (Returned [UserRow 7%N]);
               Executed (reservation_check_stmt "Dune" "A1")
                        (Returned [ReservationRow 7%N 1000%Z])]
              (reservation_insert_stmt "Dune" 7%N "A2" 1000%Z 1001%Z)
              "NoHostAvailable" [] eq_refl) as (_ & _ & Ho).
  - intros Hamb. apply cas_unknown_spec in Hamb. discriminate Hamb.
  - exact Ho.
Defined.

(** C4, as stated, fails for both methods: the store is unreachable when the
    insert of a booking, or the claim of a transfer, is issued; neither method
    raises the error. *)
Lemma store_errors_do_not_propagate :
  ~ propagates (Book "Dune" 7%N "A1")
      (demo_world [Healthy; Healthy; Failure "NoHostAvailable" false]) /\
  ~ propagates (Transfer "Dune" "A1" "A2" 7%N)
      (booked_world [Healthy; Healthy; Healthy; Failure "NoHostAvailable" false]).
Proof.
  split; intros H.
  - specialize (H [Executed (movie_check_stmt "Dune") (Returned [MovieRow "Dune"]);
                   Executed (user_check_by_id_stmt 7%N) (Returned [UserRow 7%N])]
                  (reservation_insert_stmt "Dune" 7%N "A1" 1000%Z 1000%Z)
                  "NoHostAvailable" [] eq_refl eq_refl).
    discriminate H.
  - specialize (H [Executed (movie_check_stmt "Dune") (Returned [MovieRow "Dune"]);
                   Executed (user_check_by_id_stmt 7%N) (Returned [UserRow 7%N]);
                   Executed (reservation_check_stmt "Dune" "A1")
                            (Returned [ReservationRow 7%N 1000%Z])]
                  (reservation_insert_stmt "Dune" 7%N "A2" 1000%Z 1001%Z)
                  "NoHostAvailable" [] eq_refl eq_refl).
    discriminate H.
Qed.

(** ** A transfer to a seat that is taken *)

Lemma loop_trace_refused_claim_last (claim : Statement) (m cur new : string)
      (u : uuid) (a : nat) (evs : list Event) (o : Outcome (option bool)) :
  loop_trace claim (reservation_delete_stmt m cur u) (reservation_delete_stmt m new u)
             a evs o ->
  only_last refused_claim evs.
Proof.
  induction 1 as [a steps H|a steps H|a steps H|a steps e H Hend
                 |a steps e evs o H Hc Ha Hl IH];
    inversion H; subst; cbn [app only_last]; repeat split; auto;
    try (intros []); destruct claim; cbn; intros Hf; try destruct Hf; done.
Qed.

Lemma answered_read_not_refused (reads : list Event) :
  Forall answered_read reads -> Forall (λ ev, ~ refused_claim ev) reads.
Proof.
  intros H. eapply Forall_impl; [exact H|].
  intros ev Ha Hr. destruct ev as [st [rs|e]|d]; [destruct st| |];
    cbn in Ha, Hr; try discriminate Ha; done.
Qed.

Lemma answered_read_not_delete (reads : list Event) :
  Forall answered_read reads -> Forall (λ ev, ~ is_delete ev) reads.
Proof.
  intros H. eapply Forall_impl; [exact H|].
  intros ev Ha Hr. destruct ev as [st [rs|e]|d]; [destruct st| |];
    cbn in Ha, Hr; try discriminate Ha; done.
Qed.

Lemma update_reservation_occupied (m cur new : string) (u : uuid) (w : World) :
  let r := run (update_reservation m cur new u) w in
  vacant (m, new) (reservations (db w)) = false ->
  db (final r) = db w /\
  Forall (λ ev, ~ is_delete ev) (events r) /\
  (new <> cur -> outcome r = Returns (Some false)).
Proof.
  intros r Hocc. subst r. rewrite run_update_reservation.
  set (movie_read := session_execute (movie_check_stmt m) w).
  set (user_read := session_execute (user_check_by_id_stmt u) movie_read.2).
  set (w2 := (read_clock user_read.2).2).
  set (check := session_execute (reservation_check_stmt m cur) w2).
  assert (Hd1 : db movie_read.2 = db w)
    by (subst movie_read; by rewrite session_execute_select).
  assert (Hd2 : db user_read.2 = db w)
    by (subst user_read; by rewrite session_execute_select).
  assert (Hd3 : db check.2 = db w).
  { subst check w2. rewrite session_execute_select by reflexivity. exact Hd2. }
  assert (Hnd : forall st reply, is_select st = true -> ~ is_delete (Executed st reply))
    by (intros [] reply Hs; cbn; try discriminate Hs; tauto).
  destruct (hit movie_read.1).
  2: { cbn [final events outcome]. split; [exact Hd1|].
       split; [|reflexivity]. repeat constructor. by apply Hnd. }
  destruct (hit user_read.1).
  2: { cbn [final events outcome]. split; [exact Hd2|].
       split; [|reflexivity]. repeat constructor; by apply Hnd. }
  assert (Hreads : Forall (λ ev, ~ is_delete ev)
            ([Executed (movie_check_stmt m) movie_read.1;
              Executed (user_check_by_id_stmt u) user_read.1] ++
             [Executed (reservation_check_stmt m cur) check.1]))
    by (repeat constructor; by apply Hnd).
  destruct check.1 as [rows|e] eqn:Hc.
  2: { cbn [final events outcome]. split; [exact Hd3|]. split; [exact Hreads|done]. }
  destruct (stored (m, cur) (reservations (db w))) as [|orig others].
  { cbn [final events outcome]. split; [exact Hd3|]. split; [exact Hreads|done]. }
  destruct (bool_decide (user_id orig = u)).
  2: { cbn [final events outcome]. split; [exact Hd3|]. split; [exact Hreads|done]. }
  destruct (bool_decide (new = cur)) eqn:Hne.
  { apply bool_decide_eq_true_1 in Hne. cbn [final events outcome].
    split; [exact Hd3|]. split; [exact Hreads|]. intros Hn. by destruct (Hn Hne). }
  unfold range. rewrite <- Hd3 in Hocc.
  destruct (transfer_loop_occupied m cur new u (creation orig) (clock w (readings w))
              max_retries 0 check.2 Hocc) as (Hdb & Ho & Hev).
  pose proof (run_transfer_loop_trace m cur new u (creation orig)
                (clock w (readings w)) 4 0 check.2 eq_refl) as Hloop.
  cbv zeta in Hloop. apply loop_trace_end in Hloop as (pre & ev & _ & Hend).
  cbn [final events outcome]. split; [congruence|].
  split; [apply Forall_app; split; [exact Hreads|exact Hev]|].
  intros _. unfold max_retries in *.
  destruct (outcome (run _ check.2)) as [[[|]|]|e']; try reflexivity.
  - by destruct Ho.
  - destruct Hend.
Qed.

(** What a refused claim leaves: when the claim of the new seat is answered
    "not applied", [update_reservation] does nothing more and returns [False]:
    no release, no rollback, no further call; and the refused claim itself
    writes nothing.  A transfer to a seat that is occupied when the call
    starts leaves every table as it was, issues no delete at all and, the
    seats being different, returns [False]. *)
Lemma update_reservation_refused_claim (m cur new : string) (u : uuid)
        (w : World) :
  let r := run (update_reservation m cur new u) w in
  (forall pre created modified post,
     events r = pre ++ Executed (reservation_insert_stmt m u new created modified)
                                (Returned [AppliedRow false]) :: post ->
     post = [] /\ outcome r = Returns (Some false)) /\
  (forall created modified (w0 : World),
     (session_execute (reservation_insert_stmt m u new created modified) w0).1
       = Returned [AppliedRow false] ->
     db (session_execute (reservation_insert_stmt m u new created modified) w0).2
       = db w0) /\
  (vacant (m, new) (reservations (db w)) = false ->
   db (final r) = db w /\
   Forall (λ ev, ~ is_delete ev) (events r) /\
   (new <> cur -> outcome r = Returns (Some false))).
Proof.
  intros r. split; [|split; [|exact (update_reservation_occupied m cur new u w)]].
  2: { intros created modified w0 Hr.
       apply session_execute_returned in Hr as [Hr ->]. rewrite cql_insert in Hr |- *.
       by destruct (vacant (m, new) (reservations (db w0))). }
  intros pre created modified post Hpre.
  destruct (update_reservation_shape m cur new u w)
    as [(reads & last & b & Hev & Hreads & Hlast & Ho & Hb)
       |(created' & reads & evs & lo & _ & Hev & Hreads & Hloop & Ho)];
    fold r in Hev, Ho.
  - exfalso.
    assert (Hin : Executed (reservation_insert_stmt m u new created modified)
                           (Returned [AppliedRow false]) ∈ reads ++ [last]).
    { rewrite <- Hev, Hpre. apply elem_of_app. right. left. }
    apply elem_of_app in Hin as [Hin|Hin].
    + rewrite Forall_forall in Hreads. apply Hreads in Hin. cbn in Hin. discriminate.
    + apply list_elem_of_singleton in Hin. subst last. cbn in Hlast. discriminate.
  - assert (Hol : only_last refused_claim (events r)).
    { rewrite Hev. apply only_last_reads; [by apply answered_read_not_refused|].
      exact (loop_trace_refused_claim_last _ _ _ _ _ _ _ _ Hloop). }
    assert (post = []) as -> by exact (only_last_spec _ _ _ _ _ Hol Hpre I).
    split; [reflexivity|].
    destruct (loop_trace_end _ _ _ _ _ _ Hloop) as (pre' & ev & -> & Hend).
    rewrite Hev, app_assoc in Hpre. apply last_event in Hpre. subst ev.
    rewrite Ho. destruct lo as [[[|]|]|e']; try reflexivity.
    + destruct Hend as [Hend _]. discriminate Hend.
    + destruct Hend.
Qed.


(** ** One reservation per seat *)

Lemma vacant_not_in (k : Key) (rs : list Reservation) :
  vacant k rs = true -> k ∉ key_of <$> rs.
Proof.
  intros Hv Hin. apply vacant_stored in Hv.
  apply list_elem_of_fmap in Hin as (r & Hk & Hr).
  assert (Hin : r ∈ stored k rs) by (apply list_elem_of_filter; split; [done|exact Hr]).
  rewrite Hv in Hin. by apply elem_of_nil in Hin.
Qed.

(** Every statement keeps the keys of the table distinct: the insert because
    it is conditional, the delete because it only removes. *)
Lemma cql_unique (st : Statement) (d : Database) :
  unique_keys (reservations d) -> unique_keys (reservations (cql st d).2).
Proof.
  intros Hu. destruct st as [m u s c md|m s|m s u|name|id| |]; cbn [cql]; try exact Hu.
  - destruct (vacant (m, s) (reservations d)) eqn:Hv; [|exact Hu].
    cbn [snd reservations set_reservations]. unfold unique_keys.
    rewrite fmap_app. apply NoDup_app. split; [exact Hu|]. split.
    + intros k Hk Hin. apply list_elem_of_singleton in Hin. subst k.
      exact (vacant_not_in _ _ Hv Hk).
    + apply NoDup_singleton.
  - destruct (stored (m, s) (reservations d)) as [|r l]; [exact Hu|].
    destruct (bool_decide (user_id r = u)); [|exact Hu].
    cbn [snd reservations set_reservations]. unfold unique_keys.
    eapply sublist_NoDup; [exact Hu|]. apply fmap_sublist, sublist_filter.
Qed.

Lemma session_execute_unique (st : Statement) (w : World) :
  unique_keys (reservations (db w)) ->
  unique_keys (reservations (db (session_execute st w).2)).
Proof.
  intros Hu. destruct (session_execute_db st w) as [->| ->];
    [exact Hu|by apply cql_unique].
Qed.

Lemma run_unique {A} (p : Prog A) (w : World) :
  unique_keys (reservations (db w)) ->
  unique_keys (reservations (db (final (run p w)))).
Proof.
  revert w. induction p as [a|e|s k IH|k IH|d k IH]; intros w Hu; cbn [run].
  - exact Hu.
  - exact Hu.
  - pose proof (session_execute_unique s w Hu) as Hu'.
    destruct (session_execute s w) as [r w']. cbn [final preceded]. by apply IH.
  - cbn [read_clock]. apply IH. exact Hu.
  - cbn [final preceded]. by apply IH.
Qed.

Lemma step_thread_unique {A} (i : nat) (c : Config A) :
  unique_keys (reservations (db (world c))) ->
  unique_keys (reservations (db (world (step_thread i c)))).
Proof.
  intros Hu. unfold step_thread.
  destruct (threads c !! i) as [[a|e|s k|k|d k]|]; try exact Hu.
  pose proof (session_execute_unique s (world c) Hu) as Hu'.
  destruct (session_execute s (world c)) as [r w']. exact Hu'.
Qed.

Lemma run_schedule_snoc {A} (schedule : list nat) (i : nat) (c : Config A) :
  run_schedule (schedule ++ [i]) c = step_thread i (run_schedule schedule c).
Proof. unfold run_schedule. by rewrite fold_left_app. Qed.

Lemma run_schedule_unique {A} (schedule : list nat) (c : Config A) :
  unique_keys (reservations (db (world c))) ->
  unique_keys (reservations (db (world (run_schedule schedule c)))).
Proof.
  intros Hu. induction schedule as [|i schedule IH] using rev_ind; [exact Hu|].
  rewrite run_schedule_snoc. by apply step_thread_unique.
Qed.

(** A claim answered "applied" found the key vacant and left it occupied. *)
Lemma claim_applied (k : Key) (st : Statement) (w : World) :
  claims k st ->
  (session_execute st w).1 = Returned [AppliedRow true] ->
  vacant k (reservations (db w)) = true /\
  vacant k (reservations (db (session_execute st w).2)) = false.
Proof.
  intros Hk Hr. destruct st as [m u s c md| | | | | |]; cbn in Hk; try done.
  subst k.
  apply session_execute_returned in Hr as [Hr Hdb]. rewrite Hdb.
  rewrite cql_insert in Hr |- *.
  destruct (vacant (m, s) (reservations (db w))) eqn:Hv; [|discriminate Hr].
  split; [reflexivity|]. cbn [snd reservations set_reservations]. unfold vacant.
  rewrite stored_app, stored_singleton_eq by reflexivity.
  apply vacant_stored in Hv. by rewrite Hv.
Qed.

(** An occupied key stays occupied under every statement but a delete on it. *)
Lemma occupied_stays (k : Key) (st : Statement) (w : World) :
  vacant k (reservations (db w)) = false ->
  ~ releases k (Executed st (session_execute st w).1) ->
  vacant k (reservations (db (session_execute st w).2)) = false.
Proof.
  intros Hocc Hrel.
  assert (Hcql : vacant k (reservations (cql st (db w)).2) = false).
  { destruct st as [m u s c md|m s|m s u|name|id| |]; cbn [cql snd]; try exact Hocc.
    - destruct (vacant (m, s) (reservations (db w))); [|exact Hocc].
      cbn [snd reservations set_reservations]. unfold vacant in *.
      rewrite stored_app. by destruct (stored k (reservations (db w))).
    - destruct (stored (m, s) (reservations (db w))) as [|r l]; [exact Hocc|].
      destruct (bool_decide (user_id r = u)); [|exact Hocc].
      cbn [snd reservations set_reservations]. unfold vacant in *.
      rewrite stored_released_ne; [exact Hocc|].
      intros ->. apply Hrel. reflexivity. }
  destruct (session_execute_db st w) as [->| ->]; [exact Hocc|exact Hcql].
Qed.

(** ** Concurrent bookings of one seat *)

Lemma pending_book_loop (m : string) (u : uuid) (s : string) (now : datetime) :
  forall items : list nat,
    pending (m, s)
      (try (for_in items (book_attempt m u s now) (Ret (Some false)))
       except (fun _ => Ret None)).
Proof.
  induction items as [|i items IH]; [cbn; discriminate|].
  cbn [for_in book_attempt execute bind try_except pending].
  intros [rs|e].
  - destruct rs as [|[| | |[|]| |] [|? ?]]; cbn;
      try (right; unfold retry_or_raise; cbn; discriminate).
    + left. split; [reflexivity|]. split; reflexivity.
  - right. cbn [bind try_except]. unfold retry_or_raise.
    destruct (cas_unknown e && (i <? max_retries - 1)%nat); cbn; [exact IH|discriminate].
Qed.

Lemma pending_make_reservation (m : string) (u : uuid) (s : string) :
  pending (m, s) (make_reservation m u s).
Proof.
  rewrite make_reservation_unfold.
  cbn [movie_exists execute bind try_except pending]. intros [rs|e]; right.
  2: { cbn. discriminate. }
  destruct rs as [|row rs]; [cbn; discriminate|].
  cbn [truthy negb bind try_except user_exists execute pending].
  intros [rs'|e]; right.
  2: { cbn. discriminate. }
  destruct rs' as [|row' rs']; [cbn; discriminate|].
  cbn [truthy negb bind try_except datetime_now pending].
  intros t. apply pending_book_loop.
Qed.

(** One step of one thread keeps [one_winner], when the step either leaves the
    thread pending or makes it the winner by claiming the vacant seat, and
    does not vacate the seat. *)
Lemma one_winner_step (ops : list Op) (m s : string) (c : Config (option bool))
      (i0 : nat) (t0 t' : Prog (option bool)) (w' : World) (h' : list Event) :
  threads c !! i0 = Some t0 ->
  t0 <> Ret (Some true) ->
  (vacant (m, s) (reservations (db (world c))) = false ->
   vacant (m, s) (reservations (db w')) = false) ->
  (pending (m, s) t0 ->
   (t' = Ret (Some true) /\
    vacant (m, s) (reservations (db (world c))) = true /\
    vacant (m, s) (reservations (db w')) = false) \/
   pending (m, s) t') ->
  one_winner ops m s c ->
  one_winner ops m s (mkConfig (<[i0 := t']> (threads c)) w' h').
Proof.
  intros Ht0 Hnot Hstay Hnew (Hb & Hc & Hd).
  assert (Hlt : (i0 < length (threads c))%nat) by (eapply lookup_lt_Some; exact Ht0).
  assert (Hwin : forall u, ops !! i0 = Some (Book m u s) -> t' = Ret (Some true) ->
            vacant (m, s) (reservations (db (world c))) = true /\
            vacant (m, s) (reservations (db w')) = false).
  { intros u Hop Ht'. destruct (Hb i0 u t0 Hop Ht0) as [Hdone|Hp]; [by destruct Hnot|].
    destruct (Hnew Hp) as [(_ & Hv & Hv')|Hp']; [done|].
    rewrite Ht' in Hp'. cbn in Hp'. by destruct Hp'. }
  split; [|split]; cbn [threads world].
  - intros i u t Hop Hth. destruct (decide (i = i0)) as [->|Hne].
    + rewrite list_lookup_insert_eq in Hth by exact Hlt. injection Hth as <-.
      destruct (Hb i0 u t0 Hop Ht0) as [Hdone|Hp]; [by destruct Hnot|].
      destruct (Hnew Hp) as [(-> & _)|Hp']; auto.
    + rewrite list_lookup_insert_ne in Hth by done. eauto.
  - intros i u Hop Hth. destruct (decide (i = i0)) as [->|Hne].
    + rewrite list_lookup_insert_eq in Hth by exact Hlt. injection Hth as Hth.
      by destruct (Hwin u Hop Hth).
    + rewrite list_lookup_insert_ne in Hth by done. eauto.
  - intros i j ui uj Hi Hj Hti Htj.
    destruct (decide (i = i0)) as [->|Hni]; destruct (decide (j = i0)) as [->|Hnj];
      [reflexivity| | |].
    + rewrite list_lookup_insert_eq in Hti by exact Hlt. injection Hti as Hti.
      rewrite list_lookup_insert_ne in Htj by done.
      destruct (Hwin ui Hi Hti) as [Hv _]. rewrite (Hc j uj Hj Htj) in Hv. discriminate.
    + rewrite list_lookup_insert_eq in Htj by exact Hlt. injection Htj as Htj.
      rewrite list_lookup_insert_ne in Hti by done.
      destruct (Hwin uj Hj Htj) as [Hv _]. rewrite (Hc i ui Hi Hti) in Hv. discriminate.
    + rewrite list_lookup_insert_ne in Hti, Htj by done. eauto.
Qed.

Lemma step_thread_history {A} (i : nat) (c : Config A) :
  exists evs, history (step_thread i c) = history c ++ evs.
Proof.
  unfold step_thread. destruct (threads c !! i) as [[a|e|s k|k|d k]|];
    try (exists []; by rewrite app_nil_r); cbn [read_clock].
  - destruct (session_execute s (world c)). cbn. eauto.
  - cbn. eauto.
Qed.

Lemma step_thread_one_winner (ops : list Op) (m s : string) (i : nat)
      (c : Config (option bool)) :
  Forall (λ ev, ~ releases (m, s) ev) (history (step_thread i c)) ->
  one_winner ops m s c -> one_winner ops m s (step_thread i c).
Proof.
  unfold step_thread. destruct (threads c !! i) as [[a|e|st k|k|d k]|] eqn:Ht;
    try (intros _ H; exact H).
  - pose proof (occupied_stays (m, s) st (world c)) as Hstay.
    pose proof (claim_applied (m, s) st (world c)) as Hclaim.
    destruct (session_execute st (world c)) as [reply w'] eqn:Hx. cbn [fst snd] in *.
    cbn [history]. intros Hno. apply Forall_app in Hno as [_ Hno].
    rewrite Forall_singleton in Hno.
    apply (one_winner_step ops m s c i (Exec st k)); [exact Ht|discriminate| |].
    + intros Hocc. exact (Hstay Hocc Hno).
    + intros Hp. cbn in Hp. destruct (Hp reply) as [(Hk & -> & Hwin)|Hp']; [left|by right].
      split; [exact Hwin|]. by apply Hclaim.
  - cbn [read_clock]. intros _.
    apply (one_winner_step ops m s c i (Now k)); [exact Ht|discriminate|done|].
    intros Hp. right. apply Hp.
  - intros _.
    apply (one_winner_step ops m s c i (Sleep d k)); [exact Ht|discriminate|done|].
    intros Hp. right. exact Hp.
Qed.

Lemma run_schedule_one_winner (ops : list Op) (m s : string) (schedule : list nat)
      (c : Config (option bool)) :
  Forall (λ ev, ~ releases (m, s) ev) (history (run_schedule schedule c)) ->
  one_winner ops m s c -> one_winner ops m s (run_schedule schedule c).
Proof.
  induction schedule as [|i schedule IH] using rev_ind; intros Hno Hc; [exact Hc|].
  rewrite run_schedule_snoc in Hno |- *.
  apply step_thread_one_winner; [exact Hno|]. apply IH; [|exact Hc].
  destruct (step_thread_history i (run_schedule schedule c)) as [evs Hev].
  rewrite Hev in Hno. by apply Forall_app in Hno as [Hno _].
Qed.

Lemma one_winner_start (ops : list Op) (m s : string) (w : World)
      (h : list Event) :
  one_winner ops m s (mkConfig (call <$> ops) w h).
Proof.
  assert (Hstart : forall i u t, ops !! i = Some (Book m u s) ->
            (call <$> ops) !! i = Some t -> t = make_reservation m u s).
  { intros i u t Hop Ht. rewrite list_lookup_fmap, Hop in Ht. by injection Ht as <-. }
  assert (Hnot : forall u, make_reservation m u s <> Ret (Some true)) by (intros u; discriminate).
  split; [|split]; cbn [threads world].
  - intros i u t Hop Ht. right. rewrite (Hstart i u t Hop Ht).
    apply pending_make_reservation.
  - intros i u Hop Ht. apply (Hstart i u _ Hop) in Ht. by destruct (Hnot u).
  - intros i j ui uj Hi _ Ht _. apply (Hstart i ui _ Hi) in Ht. by destruct (Hnot ui).
Qed.

(** ** Calls one after the other are one of the interleavings *)

Lemma run_schedule_app {A} (s1 s2 : list nat) (c : Config A) :
  run_schedule (s1 ++ s2) c = run_schedule s2 (run_schedule s1 c).
Proof. unfold run_schedule. apply fold_left_app. Qed.

Lemma run_schedule_cons {A} (i : nat) (schedule : list nat) (c : Config A) :
  run_schedule (i :: schedule) c = run_schedule schedule (step_thread i c).
Proof. reflexivity. Qed.

Lemma step_thread_exec {A} (i : nat) (c : Config A) (s : Statement)
      (k : Reply -> Prog A) :
  threads c !! i = Some (Exec s k) ->
  step_thread i c =
  mkConfig (<[i := k (session_execute s (world c)).1]> (threads c))
           (session_execute s (world c)).2
           (history c ++ [Executed s (session_execute s (world c)).1]).
Proof.
  intros H. unfold step_thread. rewrite H.
  by destruct (session_execute s (world c)).
Qed.

Lemma step_thread_now {A} (i : nat) (c : Config A) (k : datetime -> Prog A) :
  threads c !! i = Some (Now k) ->
  step_thread i c =
  mkConfig (<[i := k (read_clock (world c)).1]> (threads c))
           (read_clock (world c)).2 (history c).
Proof. intros H. unfold step_thread. by rewrite H. Qed.

Lemma step_thread_sleep {A} (i : nat) (c : Config A) (d : Q) (k : Prog A) :
  threads c !! i = Some (Sleep d k) ->
  step_thread i c =
  mkConfig (<[i := k]> (threads c)) (world c) (history c ++ [Slept d]).
Proof. intros H. unfold step_thread. by rewrite H. Qed.

Lemma run_as_schedule {A} (p : Prog A) :
  forall (pool : list (Prog A)) (w : World) (h : list Event) (i : nat),
    pool !! i = Some p ->
    exists schedule,
      run_schedule schedule (mkConfig pool w h) =
      mkConfig (<[i := finished (outcome (run p w))]> pool)
               (final (run p w)) (h ++ events (run p w)).
Proof.
  induction p as [a|e|s k IH|k IH|d k IH]; intros pool w h i Hi.
  - exists []. cbn. by rewrite list_insert_id, app_nil_r.
  - exists []. cbn. by rewrite list_insert_id, app_nil_r.
  - assert (Hlt : (i < length pool)%nat) by (eapply lookup_lt_Some; exact Hi).
    destruct (IH (session_execute s w).1 (<[i := k (session_execute s w).1]> pool)
                (session_execute s w).2
                (h ++ [Executed s (session_execute s w).1]) i
                (list_lookup_insert_eq _ _ _ Hlt)) as [schedule Hs].
    exists (i :: schedule).
    rewrite run_schedule_cons, (step_thread_exec i _ s k) by exact Hi.
    cbn [threads world history]. rewrite Hs. cbn [run].
    destruct (session_execute s w) as [r w']. cbn [fst snd outcome final events preceded].
    by rewrite list_insert_insert_eq, <- app_assoc.
  - assert (Hlt : (i < length pool)%nat) by (eapply lookup_lt_Some; exact Hi).
    destruct (IH (read_clock w).1 (<[i := k (read_clock w).1]> pool)
                (read_clock w).2 h i (list_lookup_insert_eq _ _ _ Hlt))
      as [schedule Hs].
    exists (i :: schedule).
    rewrite run_schedule_cons, (step_thread_now i _ k) by exact Hi.
    cbn [threads world history]. rewrite Hs.
    by rewrite list_insert_insert_eq.
  - assert (Hlt : (i < length pool)%nat) by (eapply lookup_lt_Some; exact Hi).
    destruct (IH (<[i := k]> pool) w (h ++ [Slept d]) i
                (list_lookup_insert_eq _ _ _ Hlt)) as [schedule Hs].
    exists (i :: schedule).
    rewrite run_schedule_cons, (step_thread_sleep i _ d k) by exact Hi.
    cbn [threads world history]. rewrite Hs. cbn [run outcome final events preceded].
    by rewrite list_insert_insert_eq, <- app_assoc.
Qed.

Lemma run_ops_as_schedule (ops : list Op) :
  forall (before : list (Prog (option bool))) (w : World) (h : list Event),
    exists schedule,
      run_schedule schedule (mkConfig (before ++ (call <$> ops)) w h) =
      mkConfig (before ++ (finished <$> (run_ops ops w).1.1))
               (run_ops ops w).1.2 (h ++ (run_ops ops w).2).
Proof.
  induction ops as [|o ops IH]; intros before w h.
  - exists []. cbn. by rewrite !app_nil_r.
  - cbn [run_ops fmap list_fmap].
    destruct (run_as_schedule (call o) (before ++ call o :: (call <$> ops)) w h
                (length before)) as [s1 Hs1].
    { by rewrite list_lookup_middle. }
    destruct (IH (before ++ [finished (outcome (run (call o) w))])
                 (final (run (call o) w)) (h ++ events (run (call o) w)))
      as [s2 Hs2].
    exists (s1 ++ s2). rewrite run_schedule_app.
    change (list_fmap Op (Prog (option bool)) call ops) with (call <$> ops) in *.
    rewrite Hs1, insert_app_r_alt, Nat.sub_diag by lia. cbn [insert list_insert].
    rewrite (cons_middle _ before), app_assoc, Hs2.
    destruct (run_ops ops (final (run (call o) w))) as [[os w'] evs].
    cbn [fst snd fmap list_fmap]. by rewrite <- !app_assoc.
Qed.

(** C1: calls of [make_reservation] and [update_reservation] run against a
    table with distinct keys (an empty one, in particular), one after the other
    or interleaved call by call under any schedule and any faults.  At every
    moment the table holds at most one row per (movie, seat).  And as long as
    no delete is issued on a seat, at most one of the bookings of that seat
    has returned [True]: any other that has returned gave [False] or [None]. *)
Theorem one_reservation_per_seat (ops : list Op) (w : World) :
  unique_keys (reservations (db w)) ->
  (forall schedule,
     let c := run_schedule schedule (mkConfig (call <$> ops) w []) in
     unique_keys (reservations (db (world c))) /\
     forall m s,
       Forall (λ ev, ~ releases (m, s) ev) (history c) ->
       forall i j ui uj,
         ops !! i = Some (Book m ui s) -> ops !! j = Some (Book m uj s) ->
         threads c !! i = Some (Ret (Some true)) ->
         threads c !! j = Some (Ret (Some true)) -> i = j) /\
  (let '(outcomes, w', evs) := run_ops ops w in
   unique_keys (reservations (db w')) /\
   forall m s,
     Forall (λ ev, ~ releases (m, s) ev) evs ->
     forall i j ui uj,
       ops !! i = Some (Book m ui s) -> ops !! j = Some (Book m uj s) ->
       outcomes !! i = Some (Returns (Some true)) ->
       outcomes !! j = Some (Returns (Some true)) -> i = j).
Proof.
  intros Hu.
  assert (Hpool : forall schedule,
     let c := run_schedule schedule (mkConfig (call <$> ops) w []) in
     unique_keys (reservations (db (world c))) /\
     forall m s,
       Forall (λ ev, ~ releases (m, s) ev) (history c) ->
       forall i j ui uj,
         ops !! i = Some (Book m ui s) -> ops !! j = Some (Book m uj s) ->
         threads c !! i = Some (Ret (Some true)) ->
         threads c !! j = Some (Ret (Some true)) -> i = j).
  { intros schedule c. split; [by apply run_schedule_unique|].
    intros m s Hno.
    exact (proj2 (proj2 (run_schedule_one_winner ops m s schedule _ Hno
                           (one_winner_start ops m s w [])))). }
  split; [exact Hpool|].
  destruct (run_ops_as_schedule ops [] w []) as [schedule Hs].
  specialize (Hpool schedule). cbv zeta in Hpool.
  cbn [app] in Hs. rewrite Hs in Hpool. cbn [world history threads] in Hpool.
  destruct (run_ops ops w) as [[outcomes w'] evs]. cbn [fst snd] in Hpool.
  destruct Hpool as [Hu' Hone]. split; [exact Hu'|].
  intros m s Hno i j ui uj Hi Hj Hoi Hoj.
  apply (Hone m s Hno i j ui uj Hi Hj).
  - by rewrite list_lookup_fmap, Hoi.
  - by rewrite list_lookup_fmap, Hoj.
Qed.

Lemma one_reservation_per_seat_witness :
  let ops := [Book "Dune" 7%N "A1"; Book "Dune" 8%N "A1"] in
  let c := run_schedule [0; 1; 0; 1; 1; 0; 1; 0]%nat
             (mkConfig (call <$> ops) (demo_world []) []) in
  unique_keys (reservations (db (world c))) /\
  threads c !! 1%nat = Some (Ret (Some true)) /\
  threads c !! 0%nat <> Some (Ret (Some true)).
Proof.
  intros ops c.
  destruct (one_reservation_per_seat ops (demo_world []) (NoDup_nil_2 (A:=Key)))
    as [Hpool _].
  destruct (Hpool [0; 1; 0; 1; 1; 0; 1; 0]%nat) as [Hu Hone]. fold c in Hu, Hone.
  split; [exact Hu|]. split; [reflexivity|]. intros H0.
  assert (Hno : Forall (λ ev, ~ releases ("Dune", "A1") ev) (history c)).
  { subst c ops. vm_compute. repeat (constructor; [tauto|]). constructor. }
  specialize (Hone "Dune" "A1" Hno 0%nat 1%nat 7%N 8%N eq_refl eq_refl H0 eq_refl).
  discriminate Hone.
Defined.

(** ** Worked examples *)

Example cas_unknown_examples :
  cas_unknown cas_timeout = true /\ cas_unknown "NoHostAvailable" = false.
Proof. split; reflexivity. Qed.

(** The four pauses are the binary64 numbers 0.1, 0.2, 0.30000000000000004
    and 0.4, each within 2^-54 of the tenths; and [float_0_1] is 1.0 / 10.0. *)
Example backoff_values :
  (backoff 0 == 7205759403792794 # 72057594037927936)%Q /\
  (backoff 1 == 7205759403792794 # 36028797018963968)%Q /\
  (backoff 2 == 5404319552844596 # 18014398509481984)%Q /\
  (backoff 3 == 7205759403792794 # 18014398509481984)%Q /\
  Forall (fun attempt : nat =>
            (Qabs (backoff attempt - (1 # 10) * inject_Z (Z.of_nat (attempt + 1)))
             <= 1 # 18014398509481984)%Q)
         [0; 1; 2; 3]%nat /\
  float_0_1 = SFdiv 53 1024 (float_of_int 1) (float_of_int 10).
Proof.
  repeat split; try (vm_compute; reflexivity).
  repeat constructor; vm_compute; discriminate.
Qed.

(** A booking whose first insert times out after the replicas committed it:
    the retry finds the seat taken (by this very call) and the method returns
    [False], with the row in the table. *)
Example committed_timeout_then_refused :
  let r := run (make_reservation "Dune" 7%N "A1")
               (demo_world [Healthy; Healthy; Failure cas_timeout true]) in
  outcome r = Returns (Some false) /\
  reservations (db (final r)) = [mkReservation "Dune" "A1" 7%N 1000%Z 1000%Z].
Proof. split; reflexivity. Qed.

(** Two bookings of one seat, interleaved call by call: the second thread
    inserts first and wins; the first is refused. *)
Example interleaved_bookings :
  let c := run_schedule [0; 1; 0; 1; 1; 0; 1; 0]%nat
             (mkConfig [make_reservation "Dune" 7%N "A1";
                        make_reservation "Dune" 8%N "A1"] (demo_world []) []) in
  threads c = [Ret (Some false); Ret (Some true)] /\
  reservations (db (world c)) = [mkReservation "Dune" "A1" 8%N 1000%Z 1000%Z].
Proof. split; reflexivity. Qed.

(** * More of the code *)

(** ** The existence checks *)

Lemma session_execute_reply (st : Statement) (w : World) :
  (session_execute st w).1 =
  match faults w with
  | Failure e _ :: _ => Raised e
  | _ => Returned (cql st (db w)).1
  end.
Proof. unfold session_execute. by destruct (faults w) as [|[|e c] rest]. Qed.

Lemma hit_movie_check (m : string) (w : World) :
  hit (session_execute (movie_check_stmt m) w).1 =
  answered (faults w !! 0%nat) && bool_decide (m ∈ movies (db w)).
Proof.
  rewrite session_execute_reply.
  destruct (faults w) as [|[|e c] rest]; cbn; try reflexivity;
    by destruct (bool_decide (m ∈ movies (db w))).
Qed.

Lemma hit_user_check (u : uuid) (w : World) :
  hit (session_execute (user_check_by_id_stmt u) w).1 =
  answered (faults w !! 0%nat) && bool_decide (u ∈ users (db w)).
Proof.
  rewrite session_execute_reply.
  destruct (faults w) as [|[|e c] rest]; cbn; try reflexivity;
    by destruct (bool_decide (u ∈ users (db w))).
Qed.

(** X1: [movie_exists] and [user_exists] never raise.  Each makes one call to
    the store, its read, and nothing else.  They return [True] exactly when
    the read is answered and the key is in the table; an error of the store
    reads as "does not exist".  They change no table. *)
Theorem existence_checks (m : string) (u : uuid) (w : World) :
  (outcome (run (movie_exists m) w) =
     Returns (answered (faults w !! 0%nat) && bool_decide (m ∈ movies (db w))) /\
   events (run (movie_exists m) w) =
     [Executed (movie_check_stmt m) (session_execute (movie_check_stmt m) w).1] /\
   db (final (run (movie_exists m) w)) = db w) /\
  (outcome (run (user_exists u) w) =
     Returns (answered (faults w !! 0%nat) && bool_decide (u ∈ users (db w))) /\
   events (run (user_exists u) w) =
     [Executed (user_check_by_id_stmt u)
               (session_execute (user_check_by_id_stmt u) w).1] /\
   db (final (run (user_exists u) w)) = db w).
Proof.
  split.
  - rewrite run_movie_exists. cbn [outcome final events].
    split; [|split; [reflexivity|by apply session_execute_select]].
    f_equal. apply hit_movie_check.
  - rewrite run_user_exists. cbn [outcome final events].
    split; [|split; [reflexivity|by apply session_execute_select]].
    f_equal. apply hit_user_check.
Qed.

(** ** What a booking writes *)

Lemma book_loop_writes (m : string) (u : uuid) (s : string) (now : datetime) :
  forall (n a : nat) (w : World),
    let r := run (for_in (seq a n) (book_attempt m u s now) (Ret (Some false))) w in
    db (final r) = db w \/
    (vacant (m, s) (reservations (db w)) = true /\
     db (final r) =
       set_reservations (db w) (reservations (db w) ++ [mkReservation m s u now now])).
Proof.
  induction n as [|n IH]; intros a w r; subst r; [by left|].
  destruct (vacant (m, s) (reservations (db w))) eqn:Hvac.
  2: { left. by destruct (book_loop_occupied m u s now (S n) a w Hvac). }
  rewrite run_for_in_seq.
  set (st := reservation_insert_stmt m u s now now).
  assert (Hcql : (cql st (db w)).2 =
            set_reservations (db w) (reservations (db w) ++ [mkReservation m s u now now]))
    by (subst st; rewrite cql_insert, Hvac; reflexivity).
  assert (Hocc : db (session_execute st w).2 = (cql st (db w)).2 ->
            vacant (m, s) (reservations (db (session_execute st w).2)) = false).
  { intros ->. rewrite Hcql. cbn [reservations set_reservations]. unfold vacant.
    rewrite stored_app, stored_singleton_eq by reflexivity.
    apply vacant_stored in Hvac. by rewrite Hvac. }
  destruct (run_book_attempt m u s now a w) as [(b & Hx & ->)|(e & Hx & ->)];
    fold st in Hx |- *.
  - run_step. right. split; [reflexivity|].
    apply session_execute_returned in Hx as [_ ->]. exact Hcql.
  - rewrite run_retry_or_raise.
    destruct (cas_unknown e && (a <? max_retries - 1)%nat); run_step.
    + destruct (session_execute_db st w) as [Hdb|Hdb].
      * destruct (IH (S a) (session_execute st w).2) as [Hd|[_ Hd]]; rewrite Hd, Hdb; auto.
      * destruct (book_loop_occupied m u s now n (S a) _ (Hocc Hdb)) as [-> _].
        right. by rewrite Hdb, Hcql.
    + destruct (session_execute_db st w) as [->| ->]; auto.
Qed.

(** X2: Whatever it returns and whatever fails, [make_reservation] leaves the
    tables as they were or adds exactly one row: its own, for a seat that was
    vacant, with the time of the call as creation and modification time.  It
    writes only for a movie and a user that are in their tables, and when it
    returns [True] it has written.  So it never removes or alters a row. *)
Theorem make_reservation_writes_at_most_its_row (m : string) (u : uuid)
        (s : string) (w : World) :
  let r := run (make_reservation m u s) w in
  let now := clock w (readings w) in
  let written :=
    set_reservations (db w) (reservations (db w) ++ [mkReservation m s u now now]) in
  (db (final r) = db w \/
   (vacant (m, s) (reservations (db w)) = true /\
    m ∈ movies (db w) /\ u ∈ users (db w) /\ db (final r) = written)) /\
  (outcome r = Returns (Some true) -> db (final r) = written) /\
  (forall k, stored k (reservations (db w)) <> [] ->
     stored k (reservations (db (final r))) = stored k (reservations (db w))).
Proof.
  intros r now written.
  assert (Hmain : db (final r) = db w \/
   (vacant (m, s) (reservations (db w)) = true /\
    m ∈ movies (db w) /\ u ∈ users (db w) /\ db (final r) = written)).
  { subst r. rewrite run_make_reservation. fold now.
    set (movie_read := session_execute (movie_check_stmt m) w).
    set (user_read := session_execute (user_check_by_id_stmt u) movie_read.2).
    assert (Hd1 : db movie_read.2 = db w)
      by (subst movie_read; by rewrite session_execute_select).
    assert (Hd2 : db user_read.2 = db w)
      by (subst user_read; by rewrite session_execute_select).
    destruct (hit movie_read.1) eqn:Hm; [|by left].
    destruct (hit user_read.1) eqn:Hu; [|by left].
    subst movie_read. rewrite hit_movie_check in Hm.
    apply andb_true_iff in Hm as [_ Hm]. apply bool_decide_eq_true_1 in Hm.
    subst user_read. rewrite hit_user_check in Hu.
    apply andb_true_iff in Hu as [_ Hu]. apply bool_decide_eq_true_1 in Hu.
    rewrite Hd1 in Hu. cbn [final]. unfold range.
    match goal with |- context [run ?p ?w2] =>
      destruct (book_loop_writes m u s now max_retries 0 w2) as [Hd|[Hv Hd]];
      assert (Hd3 : db w2 = db w) by exact Hd2 end;
      rewrite Hd, ?Hd3; [by left|right]. rewrite Hd3 in Hv. done. }
  split; [exact Hmain|]. split.
  - intros Ho. by destruct (make_reservation_booked m u s w Ho) as (_ & Hd & _).
  - intros k Hk. destruct Hmain as [->|(Hv & _ & _ & ->)]; [reflexivity|].
    subst written. cbn [reservations set_reservations].
    rewrite stored_app, stored_singleton_ne, app_nil_r; [reflexivity|].
    intros <-. apply vacant_stored in Hv. exact (Hk Hv).
Qed.

Lemma make_reservation_writes_at_most_its_row_witness :
  let w := booked_world [] in
  stored ("Dune", "A1")
         (reservations (db (final (run (make_reservation "Dune" 8%N "A1") w))))
  = stored ("Dune", "A1") (reservations (db w)).
Proof.
  intros w.
  destruct (make_reservation_writes_at_most_its_row "Dune" 8%N "A1" w) as (_ & _ & H).
  apply H. discriminate.
Defined.

(** ** A transfer that ends before its loop *)

Lemma session_execute_faults (st : Statement) (w : World) :
  faults (session_execute st w).2 = tail (faults w).
Proof. unfold session_execute. by destruct (faults w) as [|[|e c] rest]. Qed.

Lemma session_execute_answered (st : Statement) (w : World) :
  answered (faults w !! 0%nat) =
  match (session_execute st w).1 with Returned _ => true | Raised _ => false end.
Proof. rewrite session_execute_reply. by destruct (faults w) as [|[|e c] rest]. Qed.

(** X3: When the current seat holds no row, or a row of another user, or when the
    new seat is the current seat, [update_reservation] only reads: it issues
    no insert and no delete and leaves every table as it was.  It returns
    [True] in one case only: its three reads were answered, movie and user
    exist, the row is the user's (and so the two seats are the same);
    otherwise it returns [False]. *)
Theorem update_reservation_only_reads (m cur new : string) (u : uuid) (w : World) :
  let r := run (update_reservation m cur new u) w in
  let current := head (stored (m, cur) (reservations (db w))) in
  (forall row, current = Some row -> user_id row = u -> new = cur) ->
  Forall is_read (events r) /\
  db (final r) = db w /\
  outcome r =
    Returns (Some (answered (faults w !! 0%nat) && bool_decide (m ∈ movies (db w)) &&
                   (answered (faults w !! 1%nat) && bool_decide (u ∈ users (db w))) &&
                   answered (faults w !! 2%nat) &&
                   match current with
                   | Some row => bool_decide (user_id row = u)
                   | None => false
                   end)).
Proof.
  intros r current Hearly. subst r. rewrite run_update_reservation.
  set (movie_read := session_execute (movie_check_stmt m) w).
  set (user_read := session_execute (user_check_by_id_stmt u) movie_read.2).
  set (w2 := (read_clock user_read.2).2).
  set (check := session_execute (reservation_check_stmt m cur) w2).
  assert (Hd1 : db movie_read.2 = db w)
    by (subst movie_read; by rewrite session_execute_select).
  assert (Hd2 : db user_read.2 = db w)
    by (subst user_read; by rewrite session_execute_select).
  assert (Hd3 : db check.2 = db w).
  { subst check w2. rewrite session_execute_select by reflexivity. exact Hd2. }
  assert (Hm : hit movie_read.1 =
            answered (faults w !! 0%nat) && bool_decide (m ∈ movies (db w)))
    by apply hit_movie_check.
  assert (Hu : hit user_read.1 =
            answered (faults w !! 1%nat) && bool_decide (u ∈ users (db w))).
  { subst user_read. rewrite hit_user_check, Hd1. subst movie_read.
    by rewrite session_execute_faults, lookup_tail. }
  assert (Hc : answered (faults w !! 2%nat) =
            match check.1 with Returned _ => true | Raised _ => false end).
  { subst check. rewrite <- session_execute_answered. subst w2. cbn [read_clock snd faults].
    subst user_read movie_read.
    by rewrite !session_execute_faults, !lookup_tail. }
  rewrite <- Hm, <- Hu, Hc.
  assert (Hrd : forall st reply, is_select st = true -> is_read (Executed st reply))
    by (intros st reply H; exact H).
  destruct (hit movie_read.1).
  2: { cbn [events final outcome andb]. repeat split; auto. }
  destruct (hit user_read.1).
  2: { cbn [events final outcome andb]. repeat split; auto. }
  assert (Hreads : Forall is_read
            ([Executed (movie_check_stmt m) movie_read.1;
              Executed (user_check_by_id_stmt u) user_read.1] ++
             [Executed (reservation_check_stmt m cur) check.1]))
    by (repeat constructor; by apply Hrd).
  subst current.
  destruct check.1 as [rows|e]; cbn [andb].
  2: { cbn [events final outcome]. by destruct (stored (m, cur) (reservations (db w))). }
  destruct (stored (m, cur) (reservations (db w))) as [|row others]; cbn [head].
  { cbn [events final outcome]. done. }
  cbn [head] in Hearly.
  destruct (bool_decide (user_id row = u)) eqn:Hown.
  2: { cbn [events final outcome]. done. }
  apply bool_decide_eq_true_1 in Hown.
  rewrite (bool_decide_eq_true_2 _ (Hearly row eq_refl Hown)).
  cbn [events final outcome]. done.
Qed.

Lemma update_reservation_only_reads_witness :
  let r := run (update_reservation "Dune" "A1" "A1" 7%N) (booked_world []) in
  Forall is_read (events r) /\
  db (final r) = db (booked_world []) /\
  outcome r = Returns (Some true).
Proof.
  apply (update_reservation_only_reads "Dune" "A1" "A1" 7%N (booked_world [])).
  intros row _ _. reflexivity.
Defined.

(** ** What a transfer leaves alone *)

Lemma cql_frame (k : Key) (st : Statement) (d : Database) :
  touches st <> Some k ->
  stored k (reservations (cql st d).2) = stored k (reservations d).
Proof.
  intros Hk. destruct st as [m u s c md|m s|m s u|name|id| |]; cbn [cql snd];
    try reflexivity; cbn [touches] in Hk.
  - destruct (vacant (m, s) (reservations d)); [|reflexivity].
    cbn [snd reservations set_reservations].
    rewrite stored_app, stored_singleton_ne, app_nil_r; [reflexivity|].
    intros Heq. apply Hk. unfold key_of in Heq. cbn in Heq. by rewrite Heq.
  - destruct (stored (m, s) (reservations d)) as [|r l]; [reflexivity|].
    destruct (bool_decide (user_id r = u)); [|reflexivity].
    cbn [snd reservations set_reservations]. apply stored_released_ne.
    intros Heq. apply Hk. by rewrite Heq.
Qed.

Lemma cql_tables (st : Statement) (d : Database) :
  movies (cql st d).2 = movies d /\ users (cql st d).2 = users d /\
  system_local (cql st d).2 = system_local d /\
  system_peers (cql st d).2 = system_peers d.
Proof.
  destruct st as [m u s c md|m s|m s u|name|id| |]; cbn [cql snd]; try done.
  - by destruct (vacant (m, s) (reservations d)).
  - destruct (stored (m, s) (reservations d)) as [|r l]; [done|].
    by destruct (bool_decide (user_id r = u)).
Qed.

Lemma run_frame {A} (k : Key) (p : Prog A) :
  forall w : World,
    Forall (spares k) (events (run p w)) ->
    stored k (reservations (db (final (run p w)))) = stored k (reservations (db w)).
Proof.
  induction p as [a|e|s cont IH|cont IH|d cont IH]; intros w Hev; cbn [run] in *.
  - reflexivity.
  - reflexivity.
  - destruct (session_execute s w) as [reply w'] eqn:Hx.
    cbn [events final preceded app] in *. apply Forall_cons in Hev as [Hs Hev].
    rewrite (IH reply w' Hev). cbn in Hs.
    replace w' with (session_execute s w).2 by (by rewrite Hx).
    destruct (session_execute_db s w) as [->| ->]; [reflexivity|by apply cql_frame].
  - cbn [read_clock] in *. by rewrite IH.
  - cbn [events final preceded app] in *. apply Forall_cons in Hev as [_ Hev]. auto.
Qed.

Lemma run_tables {A} (p : Prog A) :
  forall w : World,
    movies (db (final (run p w))) = movies (db w) /\
    users (db (final (run p w))) = users (db w) /\
    system_local (db (final (run p w))) = system_local (db w) /\
    system_peers (db (final (run p w))) = system_peers (db w).
Proof.
  induction p as [a|e|s cont IH|cont IH|d cont IH]; intros w; cbn [run].
  - done.
  - done.
  - destruct (session_execute s w) as [reply w'] eqn:Hx. cbn [final preceded].
    destruct (IH reply w') as (-> & -> & -> & ->).
    replace w' with (session_execute s w).2 by (by rewrite Hx).
    destruct (session_execute_db s w) as [->| ->]; [done|apply cql_tables].
  - cbn [read_clock]. exact (IH _ _).
  - cbn [final preceded]. apply IH.
Qed.

Lemma loop_trace_spares (k : Key) (claim release rollback : Statement) (a : nat)
      (evs : list Event) (o : Outcome (option bool)) :
  touches claim <> Some k -> touches release <> Some k ->
  touches rollback <> Some k ->
  loop_trace claim release rollback a evs o -> Forall (spares k) evs.
Proof.
  intros H1 H2 H3.
  induction 1 as [a steps H|a steps H|a steps H|a steps e H Hend
                 |a steps e evs o H Hc Ha Hl IH];
    inversion H; subst; cbn [app]; repeat (constructor; [done|]);
    first [exact IH|constructor].
Qed.

Lemma answered_read_spares (k : Key) (reads : list Event) :
  Forall answered_read reads -> Forall (spares k) reads.
Proof.
  intros H. eapply Forall_impl; [exact H|].
  intros ev Ha. destruct ev as [st [rs|e]|d]; [destruct st| |]; cbn in Ha |- *;
    try discriminate Ha; done.
Qed.

(** X4: Whatever it returns and whatever fails, [update_reservation] leaves the
    movies, the users and the system tables as they were, and leaves every
    seat other than the current and the new one with the rows it had. *)
Theorem update_reservation_frame (m cur new : string) (u : uuid) (w : World) :
  let r := run (update_reservation m cur new u) w in
  movies (db (final r)) = movies (db w) /\
  users (db (final r)) = users (db w) /\
  system_local (db (final r)) = system_local (db w) /\
  system_peers (db (final r)) = system_peers (db w) /\
  forall k, k <> (m, cur) -> k <> (m, new) ->
    stored k (reservations (db (final r))) = stored k (reservations (db w)).
Proof.
  intros r. destruct (run_tables (update_reservation m cur new u) w) as (? & ? & ? & ?).
  repeat (split; [assumption|]). intros k Hcur Hnew. apply run_frame.
  destruct (update_reservation_shape m cur new u w)
    as [(reads & last & b & Hev & Hreads & Hlast & _)
       |(created & reads & evs & o & _ & Hev & Hreads & Hloop & _)];
    rewrite Hev; apply Forall_app; (split; [by apply answered_read_spares|]).
  - constructor; [|constructor].
    destruct last as [st reply|d]; [destruct st|]; cbn in Hlast |- *;
      try discriminate Hlast; done.
  - eapply loop_trace_spares; [| | |exact Hloop]; cbn; congruence.
Qed.

Lemma update_reservation_frame_witness :
  let w := final (run (make_reservation "Dune" 8%N "B7") (booked_world [])) in
  let r := run (update_reservation "Dune" "A1" "A2" 7%N) w in
  stored ("Dune", "B7") (reservations (db (final r)))
  = stored ("Dune", "B7") (reservations (db w)).
Proof.
  intros w r.
  destruct (update_reservation_frame "Dune" "A1" "A2" 7%N w) as (_ & _ & _ & _ & H).
  apply H; discriminate.
Defined.

(** ** Serialized calls on a healthy store: the count of reservations *)

Lemma session_execute_healthy (st : Statement) (w : World) :
  faults w = [] ->
  session_execute st w =
  (Returned (cql st (db w)).1, mkWorld (cql st (db w)).2 [] (clock w) (readings w)).
Proof. intros H. unfold session_execute. by rewrite H. Qed.

Lemma run_healthy {A} (p : Prog A) :
  forall w : World, faults w = [] -> faults (final (run p w)) = [].
Proof.
  induction p as [a|e|s cont IH|cont IH|d cont IH]; intros w Hw; cbn [run].
  - exact Hw.
  - exact Hw.
  - rewrite (session_execute_healthy s w Hw). cbn [final preceded]. by apply IH.
  - cbn [read_clock]. by apply IH.
  - cbn [final preceded]. by apply IH.
Qed.

Lemma unique_stored (k : Key) (rs : list Reservation) (r : Reservation)
      (others : list Reservation) :
  unique_keys rs -> stored k rs = r :: others -> others = [].
Proof.
  unfold unique_keys, stored. revert r others.
  induction rs as [|x rs IH]; intros r others Hu Hs; [discriminate Hs|].
  rewrite fmap_cons in Hu. apply NoDup_cons in Hu as [Hx Hu].
  destruct (decide (key_of x = k)) as [Hk|Hk].
  - rewrite filter_cons_True in Hs by exact Hk. injection Hs as <- <-.
    destruct (filter (λ r, key_of r = k) rs) as [|y l] eqn:Hf; [reflexivity|].
    exfalso. apply Hx. assert (Hy : y ∈ filter (λ r, key_of r = k) rs)
      by (rewrite Hf; left).
    apply list_elem_of_filter in Hy as [Hyk Hy].
    apply list_elem_of_fmap. exists y. split; [congruence|exact Hy].
  - rewrite filter_cons_False in Hs by exact Hk. eauto.
Qed.

Lemma length_released (k : Key) (rs : list Reservation) :
  (length (filter (λ r, key_of r ≠ k) rs) + length (stored k rs) = length rs)%nat.
Proof.
  unfold stored. induction rs as [|x rs IH]; [reflexivity|].
  destruct (decide (key_of x = k)) as [Hk|Hk].
  - rewrite filter_cons_False by (intros H; exact (H Hk)).
    rewrite filter_cons_True by exact Hk. cbn [length]. lia.
  - rewrite filter_cons_True by exact Hk.
    rewrite filter_cons_False by exact Hk. cbn [length]. lia.
Qed.

(** On a healthy store a booking returns [True] and adds its row, or returns
    [False] and changes nothing. *)
Lemma make_reservation_healthy (m : string) (u : uuid) (s : string) (w : World) :
  faults w = [] ->
  let r := run (make_reservation m u s) w in
  (outcome r = Returns (Some true) /\
   length (reservations (db (final r))) = S (length (reservations (db w)))) \/
  (outcome r = Returns (Some false) /\ db (final r) = db w).
Proof.
  intros Hw r. subst r. rewrite run_make_reservation.
  set (movie_read := session_execute (movie_check_stmt m) w).
  set (user_read := session_execute (user_check_by_id_stmt u) movie_read.2).
  assert (Hd1 : db movie_read.2 = db w)
    by (subst movie_read; by rewrite session_execute_select).
  assert (Hd2 : db user_read.2 = db w)
    by (subst user_read; by rewrite session_execute_select).
  assert (Hf2 : faults (read_clock user_read.2).2 = []).
  { cbn [read_clock snd faults]. subst user_read movie_read.
    by rewrite !session_execute_faults, Hw. }
  destruct (hit movie_read.1); [|by right].
  destruct (hit user_read.1); [|by right].
  cbn [outcome final]. unfold range, max_retries.
  set (w2 := (read_clock user_read.2).2) in *.
  assert (Hd3 : db w2 = db w) by exact Hd2.
  rewrite run_for_in_seq.
  destruct (run_book_attempt m u s (clock w (readings w)) 0 w2)
    as [(b & Hx & ->)|(e & Hx & _)].
  2: { rewrite session_execute_healthy in Hx by exact Hf2. discriminate Hx. }
  cbn [outcome final].
  apply session_execute_returned in Hx as [Hx ->].
  rewrite cql_insert, Hd3 in Hx |- *.
  destruct (vacant (m, s) (reservations (db w))); injection Hx as <-.
  - left. split; [reflexivity|]. cbn [snd reservations set_reservations].
    rewrite length_app. cbn. lia.
  - right. split; [reflexivity|]. cbn [snd]. first [reflexivity|exact Hd3].
Qed.

(** On a healthy store a transfer returns [True] or changes nothing. *)
Lemma update_reservation_healthy (m cur new : string) (u : uuid) (w : World) :
  faults w = [] ->
  let r := run (update_reservation m cur new u) w in
  outcome r = Returns (Some true) \/
  (outcome r = Returns (Some false) /\ db (final r) = db w).
Proof.
  intros Hw r. subst r. rewrite run_update_reservation.
  set (movie_read := session_execute (movie_check_stmt m) w).
  set (user_read := session_execute (user_check_by_id_stmt u) movie_read.2).
  set (w2 := (read_clock user_read.2).2).
  set (check := session_execute (reservation_check_stmt m cur) w2).
  assert (Hd1 : db movie_read.2 = db w)
    by (subst movie_read; by rewrite session_execute_select).
  assert (Hd2 : db user_read.2 = db w)
    by (subst user_read; by rewrite session_execute_select).
  assert (Hd3 : db check.2 = db w).
  { subst check w2. rewrite session_execute_select by reflexivity. exact Hd2. }
  assert (Hf3 : faults check.2 = []).
  { subst check w2. rewrite session_execute_faults. cbn [read_clock snd faults].
    subst user_read movie_read. by rewrite !session_execute_faults, Hw. }
  destruct (hit movie_read.1); [|by right].
  destruct (hit user_read.1); [|by right].
  destruct check.1 as [rows|e]; [|by right].
  destruct (stored (m, cur) (reservations (db w))) as [|orig others] eqn:Hcur;
    [by right|].
  destruct (bool_decide (user_id orig = u)) eqn:Hown; [|by right].
  apply bool_decide_eq_true_1 in Hown.
  destruct (bool_decide (new = cur)) eqn:Hne; [by left|].
  apply bool_decide_eq_false_1 in Hne.
  cbn [outcome final]. unfold range, max_retries. rewrite run_for_in_seq.
  set (claim := reservation_insert_stmt m u new (creation orig) (clock w (readings w))).
  set (release := reservation_delete_stmt m cur u).
  destruct (run_transfer_attempt m cur new u (creation orig) (clock w (readings w))
              0 check.2)
    as [(e & H1 & _)|[(H1 & ->)|(H1 & [(e & H2 & _)|[(H2 & ->)|(H2 & _)]])]];
    fold claim release in H1; try fold claim release in H2.
  - rewrite session_execute_healthy in H1 by exact Hf3. discriminate H1.
  - right. cbn [outcome final]. split; [reflexivity|].
    apply session_execute_returned in H1 as [H1 Hdb1]. subst claim. rewrite Hdb1.
    rewrite cql_insert in H1 |- *.
    destruct (vacant (m, new) (reservations (db check.2))); [discriminate H1|exact Hd3].
  - rewrite session_execute_healthy in H2; [discriminate H2|].
    by rewrite session_execute_faults, Hf3.
  - by left.
  - exfalso. apply session_execute_returned in H1 as [H1 Hdb1].
    subst claim. rewrite cql_insert in H1, Hdb1.
    destruct (vacant (m, new) (reservations (db check.2))); [|discriminate H1].
    cbn [snd] in Hdb1.
    apply session_execute_returned in H2 as [H2 _]. rewrite Hdb1 in H2.
    subst release. rewrite (cql_delete_owned m cur u _ orig others) in H2;
      [discriminate H2| |exact Hown].
    cbn [reservations set_reservations]. rewrite Hd3.
    rewrite stored_app, stored_singleton_ne, app_nil_r; [exact Hcur|].
    unfold key_of. cbn. congruence.
Qed.

Lemma update_reservation_same_seat (m cur : string) (u : uuid) (w : World) :
  db (final (run (update_reservation m cur cur u) w)) = db w.
Proof.
  rewrite run_update_reservation.
  set (movie_read := session_execute (movie_check_stmt m) w).
  set (user_read := session_execute (user_check_by_id_stmt u) movie_read.2).
  set (w2 := (read_clock user_read.2).2).
  set (check := session_execute (reservation_check_stmt m cur) w2).
  assert (Hd1 : db movie_read.2 = db w)
    by (subst movie_read; by rewrite session_execute_select).
  assert (Hd2 : db user_read.2 = db w)
    by (subst user_read; by rewrite session_execute_select).
  assert (Hd3 : db check.2 = db w).
  { subst check w2. rewrite session_execute_select by reflexivity. exact Hd2. }
  rewrite (bool_decide_eq_true_2 (cur = cur) eq_refl).
  destruct (hit movie_read.1); [|exact Hd1].
  destruct (hit user_read.1); [|exact Hd2].
  destruct check.1; [|exact Hd3].
  destruct (stored (m, cur) (reservations (db w))) as [|row rows]; [exact Hd3|].
  by destruct (bool_decide (user_id row = u)).
Qed.

Lemma update_reservation_same_count (m cur new : string) (u : uuid) (w : World) :
  unique_keys (reservations (db w)) ->
  let r := run (update_reservation m cur new u) w in
  outcome r = Returns (Some true) ->
  length (reservations (db (final r))) = length (reservations (db w)).
Proof.
  intros Hu r Ho. destruct (decide (new = cur)) as [->|Hne].
  - subst r. by rewrite update_reservation_same_seat.
  - destruct (update_reservation_moved m cur new u w Hne Ho)
      as (orig & others & Hcur & _ & _ & Hdb & _). fold r in Hdb. rewrite Hdb.
    cbn [reservations set_reservations]. rewrite filter_app, length_app.
    pose proof (length_released (m, cur) (reservations (db w))) as Hlen.
    rewrite Hcur, (unique_stored _ _ _ _ Hu Hcur) in Hlen. cbn [length] in Hlen.
    rewrite filter_cons_True by (unfold key_of; cbn; congruence). cbn. lia.
Qed.

(** X5: Calls made one after the other on a store that answers every request, as
    the workers of the random-operations test make them while they hold the
    coordination lock: the number of stored reservations grows by exactly the
    number of [make_reservation] calls that returned [True].  A call of
    [update_reservation] never changes the number, whatever it returns, and a
    [make_reservation] that returns [False] wrote nothing. *)
Theorem serialized_calls_count (ops : list Op) (w : World) :
  faults w = [] ->
  unique_keys (reservations (db w)) ->
  let results := (run_ops ops w).1.1 in
  let w' := (run_ops ops w).1.2 in
  length results = length ops /\
  length (reservations (db w')) =
    (length (reservations (db w)) + bookings_made ops results)%nat.
Proof.
  revert w. induction ops as [|o ops IH]; intros w Hw Hu results w';
    subst results w'.
  - cbn. split; [reflexivity|lia].
  - cbn [run_ops].
    set (r := run (call o) w).
    assert (Hw1 : faults (final r) = []) by (subst r; by apply run_healthy).
    assert (Hu1 : unique_keys (reservations (db (final r))))
      by (subst r; by apply run_unique).
    destruct (IH (final r) Hw1 Hu1) as [Hlen Hcount].
    destruct (run_ops ops (final r)) as [[rs w1] evs] eqn:Hrest.
    cbn [fst snd] in Hlen, Hcount |- *.
    split; [cbn [length]; by rewrite Hlen|].
    rewrite Hcount. unfold bookings_made. cbn [zip zip_with List.filter].
    destruct o as [m u s|m c n u]; cbn [call] in r.
    + destruct (make_reservation_healthy m u s w Hw) as [[Ho Hl]|[Ho Hd]];
        fold r in Ho; try fold r in Hl; try fold r in Hd; rewrite Ho; cbn [booked].
      * rewrite Hl. cbn [length]. lia.
      * rewrite Hd. lia.
    + destruct (update_reservation_healthy m c n u w Hw) as [Ho|[Ho Hd]];
        fold r in Ho; try fold r in Hd; rewrite Ho; cbn [booked].
      * pose proof (update_reservation_same_count m c n u w Hu Ho) as Hl.
        fold r in Hl. rewrite Hl. lia.
      * rewrite Hd. lia.
Qed.

Lemma serialized_calls_count_witness :
  let ops := [Book "Dune" 7%N "A1"; Book "Dune" 8%N "A1";
              Transfer "Dune" "A1" "A2" 7%N; Book "Dune" 8%N "A1";
              Transfer "Dune" "A2" "A1" 7%N] in
  length (reservations (db (run_ops ops (demo_world [])).1.2)) = 2%nat.
Proof.
  intros ops.
  destruct (serialized_calls_count ops (demo_world []) eq_refl
              (NoDup_nil_2 (A:=Key))) as [_ H].
  rewrite H. reflexivity.
Defined.

(** ** Pools that only book *)

Lemma issues_only_bind {A B} (P : Statement -> Prop) (p : Prog A) (f : A -> Prog B) :
  issues_only P p -> (forall a, issues_only P (f a)) -> issues_only P (bind p f).
Proof.
  intros Hp Hf. induction p as [a|e|s k IH|k IH|d k IH]; cbn in *; auto.
  - destruct Hp as [Hs Hk]. split; [exact Hs|]. intros r. apply IH, Hk.
Qed.

Lemma issues_only_try {A} (P : Statement -> Prop) (p : Prog A) (h : string -> Prog A) :
  issues_only P p -> (forall e, issues_only P (h e)) -> issues_only P (try_except p h).
Proof.
  intros Hp Hh. induction p as [a|e|s k IH|k IH|d k IH]; cbn in *; auto.
  - destruct Hp as [Hs Hk]. split; [exact Hs|]. intros r. apply IH, Hk.
Qed.

Lemma issues_only_for_in {R} (P : Statement -> Prop) (items : list nat)
      (body : nat -> Prog (LoopCtl R)) (after : Prog R) :
  (forall i, issues_only P (body i)) -> issues_only P after ->
  issues_only P (for_in items body after).
Proof.
  intros Hb Ha. induction items as [|i items IH]; [exact Ha|].
  cbn [for_in]. apply issues_only_bind; [apply Hb|].
  intros [|r]; [exact IH|exact I].
Qed.

Lemma issues_only_execute (P : Statement -> Prop) (st : Statement) :
  P st -> issues_only P (execute st).
Proof. intros H. split; [exact H|]. by intros [rs|e]. Qed.

Lemma issues_only_retry {R} (P : Statement -> Prop) (attempt : nat) (e : string) :
  issues_only P (retry_or_raise (R:=R) attempt e).
Proof.
  unfold retry_or_raise. by destruct (cas_unknown e && (attempt <? max_retries - 1)%nat).
Qed.

Lemma issues_only_was_applied (P : Statement -> Prop) (rs : ResultSet) :
  issues_only P (was_applied rs).
Proof. unfold was_applied. by destruct rs as [|[| | |b| |] [|? ?]]. Qed.

(** [make_reservation] reads the movie and the user and inserts; it issues
    nothing else. *)
Lemma issues_only_make_reservation (P : Statement -> Prop) (m : string) (u : uuid)
      (s : string) :
  P (movie_check_stmt m) -> P (user_check_by_id_stmt u) ->
  (forall now, P (reservation_insert_stmt m u s now now)) ->
  issues_only P (make_reservation m u s).
Proof.
  intros Hm Hu Hi. rewrite make_reservation_unfold.
  apply issues_only_bind.
  { apply issues_only_try; [|done].
    apply issues_only_bind; [by apply issues_only_execute|done]. }
  intros [|]; cbn [negb]; [|exact I].
  apply issues_only_bind.
  { apply issues_only_try; [|done].
    apply issues_only_bind; [by apply issues_only_execute|done]. }
  intros [|]; cbn [negb]; [|exact I].
  apply issues_only_bind; [by intros t|]. intros now.
  apply issues_only_try; [|done].
  apply issues_only_for_in; [|exact I]. intros i. unfold book_attempt.
  apply issues_only_try; [|apply issues_only_retry].
  apply issues_only_bind; [by apply issues_only_execute|]. intros rs.
  apply issues_only_bind; [apply issues_only_was_applied|by intros [|]].
Qed.

Lemma never_deletes_make_reservation (m : string) (u : uuid) (s : string) :
  never_deletes (make_reservation m u s).
Proof. by apply issues_only_make_reservation. Qed.

Lemma step_thread_issues_only {A} (P : Statement -> Prop) (i : nat) (c : Config A) :
  Forall (issues_only P) (threads c) ->
  Forall (issued P) (history c) ->
  Forall (issues_only P) (threads (step_thread i c)) /\
  Forall (issued P) (history (step_thread i c)).
Proof.
  intros Ht Hh. unfold step_thread.
  destruct (threads c !! i) as [[a|e|st k|k|d k]|] eqn:Hi; try done.
  - pose proof (Forall_lookup_1 _ _ _ _ Ht Hi) as [Hst Hk].
    destruct (session_execute st (world c)) as [r w']. cbn [threads history].
    split; [by apply Forall_insert|].
    apply Forall_app. split; [exact Hh|]. by apply Forall_singleton.
  - pose proof (Forall_lookup_1 _ _ _ _ Ht Hi) as Hk. cbn [read_clock threads history].
    split; [|exact Hh]. apply Forall_insert; [exact Ht|apply Hk].
  - pose proof (Forall_lookup_1 _ _ _ _ Ht Hi) as Hk. cbn [threads history].
    split; [by apply Forall_insert|].
    apply Forall_app. split; [exact Hh|]. by apply Forall_singleton.
Qed.

Lemma run_schedule_issues_only {A} (P : Statement -> Prop) (schedule : list nat)
      (c : Config A) :
  Forall (issues_only P) (threads c) ->
  Forall (issued P) (history c) ->
  Forall (issues_only P) (threads (run_schedule schedule c)) /\
  Forall (issued P) (history (run_schedule schedule c)).
Proof.
  induction schedule as [|i schedule IH] using rev_ind; intros Ht Hh; [done|].
  rewrite run_schedule_snoc. destruct (IH Ht Hh) as [Ht' Hh'].
  by apply step_thread_issues_only.
Qed.

Lemma run_schedule_never_deletes {A} (schedule : list nat) (c : Config A) :
  Forall never_deletes (threads c) ->
  Forall (λ ev, ~ is_delete ev) (history c) ->
  Forall never_deletes (threads (run_schedule schedule c)) /\
  Forall (λ ev, ~ is_delete ev) (history (run_schedule schedule c)).
Proof.
  intros Ht Hh.
  destruct (run_schedule_issues_only (λ st, deletes st = false) schedule c Ht)
    as [Ht' Hh'].
  { eapply Forall_impl; [exact Hh|]. intros [st r|d] Hev; [|exact I].
    destruct st; cbn in Hev |- *; tauto. }
  split; [exact Ht'|]. eapply Forall_impl; [exact Hh'|].
  intros [st r|d] Hev; [|by intros []]. destruct st; cbn in Hev |- *; (discriminate Hev || tauto).
Qed.

Lemma NoDup_omap_lookup {A B} (f : A -> option B) (l : list A) :
  (forall i j a b y, l !! i = Some a -> l !! j = Some b ->
     f a = Some y -> f b = Some y -> i = j) ->
  NoDup (omap f l).
Proof.
  induction l as [|a l IH]; intros H; [constructor|]. cbn [omap list_omap].
  assert (Hl : NoDup (omap f l)).
  { apply IH. intros i j x b y Hi Hj Hx Hb.
    assert (S i = S j) by (eapply H; [exact Hi|exact Hj|exact Hx|exact Hb]). lia. }
  destruct (f a) as [y|] eqn:Hfa; [|exact Hl].
  constructor; [|exact Hl]. intros Hin.
  apply list_elem_of_omap in Hin as (b & Hb & Hfb).
  apply list_elem_of_lookup in Hb as [j Hj].
  assert (0 = S j)%nat by (eapply (H 0%nat (S j) a b y); done). lia.
Qed.

(** What every pool of bookings keeps, whatever the schedule and the faults. *)
Lemma pool_of_bookings (requests : list (string * uuid * string)) (w : World)
      (schedule : list nat) :
  let ops := bookings requests in
  let c := run_schedule schedule (mkConfig (call <$> ops) w []) in
  Forall (λ ev, ~ is_delete ev) (history c) /\
  (forall m s, one_winner ops m s c).
Proof.
  intros ops c.
  assert (Hstart : Forall never_deletes (call <$> ops)).
  { subst ops. unfold bookings. rewrite <- list_fmap_compose. apply Forall_fmap.
    apply Forall_forall. intros r _. apply never_deletes_make_reservation. }
  destruct (run_schedule_never_deletes schedule (mkConfig (call <$> ops) w [])
              Hstart (Forall_nil_2 _)) as [_ Hh]. fold c in Hh.
  split; [exact Hh|]. intros m s. subst c.
  apply run_schedule_one_winner; [|apply one_winner_start].
  eapply Forall_impl; [exact Hh|]. intros [st r|d] Hev; [|by intros []].
  destruct st; first [by intros []|intros _; by apply Hev].
Qed.

Lemma won_seats_spec (ops : list Op) (ts : list (Prog (option bool))) (k : Key) :
  k ∈ won_seats ops ts <->
  exists i u, ops !! i = Some (Book k.1 u k.2) /\ ts !! i = Some (Ret (Some true)).
Proof.
  unfold won_seats. rewrite list_elem_of_omap. split.
  - intros ([o t] & Hin & Hw). apply list_elem_of_lookup in Hin as [i Hi].
    apply lookup_zip_with_Some in Hi as (o' & t' & [= <- <-] & Ho & Ht).
    destruct o as [m u s|]; [|discriminate Hw].
    destruct t as [[[|]|]| | | |]; try discriminate Hw. injection Hw as <-.
    exists i, u. by split.
  - intros (i & u & Ho & Ht). exists (Book k.1 u k.2, Ret (Some true)).
    split; [|by destruct k].
    apply list_elem_of_lookup. exists i. apply lookup_zip_with_Some. eauto.
Qed.

(** X6: Pools that only call [make_reservation], as the rapid-fire test and the
    seat race run them: under every schedule and whatever the store does, no
    [DELETE] is ever issued; no seat is won twice, that is, the seats of the
    calls that have returned [True] are pairwise distinct; every seat won is
    occupied in the table; and the number of calls that returned [True] is at
    most the number of distinct seats asked for. *)
Theorem bookings_win_distinct_seats (requests : list (string * uuid * string))
        (w : World) (schedule : list nat) :
  let ops := bookings requests in
  let c := run_schedule schedule (mkConfig (call <$> ops) w []) in
  Forall (λ ev, ~ is_delete ev) (history c) /\
  NoDup (won_seats ops (threads c)) /\
  Forall (λ k, vacant k (reservations (db (world c))) = false)
         (won_seats ops (threads c)) /\
  (length (won_seats ops (threads c)) <= length (remove_dups (requested requests)))%nat.
Proof.
  intros ops c. destruct (pool_of_bookings requests w schedule) as [Hh Hone].
  fold ops in Hh, Hone. fold c in Hh, Hone.
  assert (Hnd : NoDup (won_seats ops (threads c))).
  { apply NoDup_omap_lookup. intros i j [o1 t1] [o2 t2] [m s] Hi Hj H1 H2.
    apply lookup_zip_with_Some in Hi as (? & ? & [= <- <-] & Ho1 & Ht1).
    apply lookup_zip_with_Some in Hj as (? & ? & [= <- <-] & Ho2 & Ht2).
    destruct o1 as [m1 u1 s1|]; [|discriminate H1].
    destruct t1 as [[[|]|]| | | |]; try discriminate H1. injection H1 as -> ->.
    destruct o2 as [m2 u2 s2|]; [|discriminate H2].
    destruct t2 as [[[|]|]| | | |]; try discriminate H2. injection H2 as -> ->.
    destruct (Hone m s) as (_ & _ & Hd). eauto. }
  split; [exact Hh|]. split; [exact Hnd|]. split.
  - apply Forall_forall. intros [m s] Hk.
    apply won_seats_spec in Hk as (i & u & Ho & Ht). cbn [fst snd] in Ho.
    destruct (Hone m s) as (_ & Hocc & _). eauto.
  - apply submseteq_length, NoDup_submseteq; [exact Hnd|].
    intros [m s] Hk. apply won_seats_spec in Hk as (i & u & Ho & _).
    cbn [fst snd] in Ho. apply elem_of_remove_dups.
    subst ops. unfold bookings in Ho. rewrite list_lookup_fmap in Ho.
    destruct (requests !! i) as [[[m' u'] s']|] eqn:Hr; [|discriminate Ho].
    cbn in Ho. injection Ho as -> -> ->.
    unfold requested. apply list_elem_of_fmap. exists (m, u, s). split; [done|].
    by eapply list_elem_of_lookup_2.
Qed.

(** ** Pools of bookings on a store that answers every call *)

Lemma stage_make_reservation (mv : gset string) (us : gset uuid) (m : string)
      (u : uuid) (s : string) :
  stage mv us m u s (make_reservation m u s).
Proof.
  rewrite make_reservation_unfold.
  cbn [movie_exists execute bind try_except stage].
  destruct (bool_decide (m ∈ mv)) eqn:Hm;
    cbn [truthy negb bind try_except user_exists execute stage].
  2: { apply bool_decide_eq_false_1 in Hm. split; [reflexivity|]. tauto. }
  apply bool_decide_eq_true_1 in Hm.
  destruct (bool_decide (u ∈ us)) eqn:Hu;
    cbn [truthy negb bind try_except datetime_now stage].
  2: { apply bool_decide_eq_false_1 in Hu. split; [reflexivity|]. tauto. }
  apply bool_decide_eq_true_1 in Hu.
  intros t. unfold range, max_retries. cbn. done.
Qed.

Lemma vacant_after_insert (k : Key) (m s : string) (u : uuid) (c md : datetime)
      (rs : list Reservation) :
  vacant k (rs ++ [mkReservation m s u c md]) =
  if bool_decide (k = (m, s)) then false else vacant k rs.
Proof.
  unfold vacant. rewrite stored_app. destruct (bool_decide (k = (m, s))) eqn:Hk.
  - apply bool_decide_eq_true_1 in Hk. rewrite stored_singleton_eq by done.
    by destruct (stored k rs).
  - apply bool_decide_eq_false_1 in Hk.
    rewrite stored_singleton_ne, app_nil_r; [reflexivity|].
    unfold key_of. cbn. congruence.
Qed.

(** The pool after thread [j] went from [t0] to [t'] without touching the
    table. *)
Lemma healthy_pool_quiet (requests : list (string * uuid * string)) (w0 : World)
      (c : Config (option bool)) (j : nat) (t0 t' : Prog (option bool))
      (w' : World) (h' : list Event) :
  threads c !! j = Some t0 ->
  ~ is_finished t0 ->
  faults w' = [] -> db w' = db (world c) ->
  (forall m u s, requests !! j = Some (m, u, s) ->
     stage (movies (db w0)) (users (db w0)) m u s t0 ->
     stage (movies (db w0)) (users (db w0)) m u s t' \/
     (vacant (m, s) (reservations (db (world c))) = false /\ t' = Ret (Some false))) ->
  healthy_pool requests w0 c ->
  healthy_pool requests w0 (mkConfig (<[j := t']> (threads c)) w' h').
Proof.
  intros Hj Hnf Hf Hdb Hnew (Hlen & _ & Hmv & Hus & Hocc & Hth & Hwin).
  assert (Hlt : (j < length (threads c))%nat) by (eapply lookup_lt_Some; exact Hj).
  unfold healthy_pool. cbn [threads world]. rewrite Hdb, length_insert.
  repeat split; try done.
  - intros i m u s t Hr Ht. destruct (decide (i = j)) as [->|Hne].
    + rewrite list_lookup_insert_eq in Ht by exact Hlt. injection Ht as <-.
      destruct (Hth j m u s t0 Hr Hj) as [Hst|(_ & [->|(-> & _)])];
        [|by destruct Hnf|by destruct Hnf].
      destruct (Hnew m u s Hr Hst) as [Hst'|(Hv & ->)]; auto.
    + rewrite list_lookup_insert_ne in Ht by done. eauto.
  - intros m s Hv0 Hv. destruct (Hwin m s Hv0 Hv) as (i & u & Hr & Ht).
    exists i, u. split; [exact Hr|].
    rewrite list_lookup_insert_ne; [exact Ht|].
    intros <-. rewrite Hj in Ht. injection Ht as ->. by apply Hnf.
Qed.

Lemma step_thread_healthy_pool (requests : list (string * uuid * string))
      (w0 : World) (j : nat) (c : Config (option bool)) :
  healthy_pool requests w0 c -> healthy_pool requests w0 (step_thread j c).
Proof.
  intros Hc. pose proof Hc as (Hlen & Hf & Hmv & Hus & Hocc & Hth & Hwin).
  unfold step_thread.
  destruct (threads c !! j) as [[a|e|st k|k|d k]|] eqn:Hj; try exact Hc.
  - assert (Hlt : (j < length (threads c))%nat) by (eapply lookup_lt_Some; exact Hj).
    rewrite (session_execute_healthy st (world c) Hf).
    destruct (requests !! j) as [[[m u] s]|] eqn:Hr.
    2: { apply lookup_ge_None in Hr. lia. }
    destruct (Hth j m u s _ Hr Hj) as [Hst|(_ & [Hx|(Hx & _)])];
      [|discriminate Hx|discriminate Hx].
    destruct st as [m' u' s' cr md|m' s'|m' s' u'|name|id| |];
      cbn [stage] in Hst; try (by destruct Hst).
    + destruct Hst as (-> & -> & Hvalid & Hyes & Hno).
      rewrite cql_insert.
      destruct (vacant (m, s) (reservations (db (world c)))) eqn:Hv; cbn [fst snd].
      * rewrite Hyes. unfold healthy_pool. cbn [threads world db faults].
        rewrite length_insert. cbn [movies users reservations set_reservations].
        assert (Hv0 : vacant (m, s) (reservations (db w0)) = true).
        { destruct (vacant (m, s) (reservations (db w0))) eqn:E; [done|].
          rewrite (Hocc _ E) in Hv. discriminate Hv. }
        repeat split; try done.
        -- intros key Hk. rewrite vacant_after_insert.
           destruct (bool_decide _); [done|]. by apply Hocc.
        -- intros i m1 u1 s1 t Hr1 Ht. rewrite vacant_after_insert.
           destruct (decide (i = j)) as [->|Hne].
           ++ rewrite list_lookup_insert_eq in Ht by exact Hlt. injection Ht as <-.
              rewrite Hr in Hr1. injection Hr1 as <- <- <-.
              right. rewrite bool_decide_eq_true_2 by done. auto.
           ++ rewrite list_lookup_insert_ne in Ht by done.
              destruct (Hth i m1 u1 s1 t Hr1 Ht) as [Hst|(Hv1 & Ht1)]; [by left|].
              right. rewrite Hv1. split; [|exact Ht1].
              by destruct (bool_decide _).
        -- intros m1 s1 Hv1 Hnow. rewrite vacant_after_insert in Hnow.
           destruct (bool_decide _) eqn:Hk.
           ++ apply bool_decide_eq_true_1 in Hk. injection Hk as -> ->.
              exists j, u. split; [exact Hr|]. by rewrite list_lookup_insert_eq.
           ++ destruct (Hwin m1 s1 Hv1 Hnow) as (i & u1 & Hr1 & Ht1).
              exists i, u1. split; [exact Hr1|].
              rewrite list_lookup_insert_ne; [exact Ht1|].
              intros <-. rewrite Hj in Ht1. discriminate Ht1.
      * rewrite Hno.
        apply (healthy_pool_quiet requests w0 c j _ _ _ _ Hj);
        [by intros []|reflexivity|reflexivity| |exact Hc].
        intros m1 u1 s1 Hr1 _. rewrite Hr in Hr1. injection Hr1 as <- <- <-.
        right. by split.
    + cbn [cql fst snd]. rewrite Hmv.
      apply (healthy_pool_quiet requests w0 c j _ _ _ _ Hj);
        [by intros []|reflexivity|reflexivity| |exact Hc].
      intros m1 u1 s1 Hr1 _. rewrite Hr in Hr1. injection Hr1 as <- <- <-.
      by left.
    + cbn [cql fst snd]. rewrite Hus.
      apply (healthy_pool_quiet requests w0 c j _ _ _ _ Hj);
        [by intros []|reflexivity|reflexivity| |exact Hc].
      intros m1 u1 s1 Hr1 _. rewrite Hr in Hr1. injection Hr1 as <- <- <-.
      by left.
  - cbn [read_clock].
    apply (healthy_pool_quiet requests w0 c j _ _ _ _ Hj);
      [by intros []|exact Hf|reflexivity| |exact Hc].
    intros m1 u1 s1 Hr1 Hst. left. apply Hst.
  - apply (healthy_pool_quiet requests w0 c j _ _ _ _ Hj);
      [by intros []|exact Hf|reflexivity| |exact Hc].
    intros m1 u1 s1 Hr1 Hst. left. exact Hst.
Qed.

Lemma run_schedule_healthy_pool (requests : list (string * uuid * string))
      (w0 : World) (schedule : list nat) (c : Config (option bool)) :
  healthy_pool requests w0 c -> healthy_pool requests w0 (run_schedule schedule c).
Proof.
  induction schedule as [|i schedule IH] using rev_ind; intros Hc; [exact Hc|].
  rewrite run_schedule_snoc. by apply step_thread_healthy_pool, IH.
Qed.

Lemma healthy_pool_start (requests : list (string * uuid * string)) (w : World)
      (h : list Event) :
  faults w = [] ->
  healthy_pool requests w (mkConfig (call <$> bookings requests) w h).
Proof.
  intros Hf. unfold healthy_pool, bookings. cbn [threads world].
  rewrite !length_fmap. repeat split; try done.
  - intros i m u s t Hr Ht. left.
    rewrite !list_lookup_fmap, Hr in Ht. injection Ht as <-.
    apply stage_make_reservation.
  - intros m s Hv Hv'. rewrite Hv in Hv'. discriminate Hv'.
Qed.

(** X7: Bookings run concurrently on a store that answers every call, as the
    rapid-fire test runs them after it has reset the tables and inserted its
    movie and its user, and the seat race after it has inserted its users.
    Once every call has returned, under whatever schedule: each call returned
    [True] or [False], never [None]; a call returned [True] only for a movie
    and a user that exist and a seat that was vacant at the start; and for
    such a movie, user and seat exactly one of the calls for the seat
    returned [True]. *)
Theorem healthy_bookings_one_winner (requests : list (string * uuid * string))
        (w : World) (schedule : list nat) :
  faults w = [] ->
  let c := run_schedule schedule (mkConfig (call <$> bookings requests) w []) in
  Forall is_finished (threads c) ->
  forall i m u s, requests !! i = Some (m, u, s) ->
    let bookable := m ∈ movies (db w) /\ u ∈ users (db w) /\
                    vacant (m, s) (reservations (db w)) = true in
    (threads c !! i = Some (Ret (Some true)) \/
     threads c !! i = Some (Ret (Some false))) /\
    (threads c !! i = Some (Ret (Some true)) -> bookable) /\
    (bookable ->
     exists j u', requests !! j = Some (m, u', s) /\
                  threads c !! j = Some (Ret (Some true)) /\
                  forall j' u'', requests !! j' = Some (m, u'', s) ->
                    threads c !! j' = Some (Ret (Some true)) -> j' = j).
Proof.
  intros Hf c Hfin i m u s Hr bookable.
  pose proof (run_schedule_healthy_pool requests w schedule _
                (healthy_pool_start requests w [] Hf)) as Hpool. fold c in Hpool.
  destruct Hpool as (Hlen & _ & _ & _ & _ & Hth & Hwin).
  destruct (threads c !! i) as [t|] eqn:Ht.
  2: { apply lookup_ge_None in Ht. apply lookup_lt_Some in Hr. lia. }
  pose proof (Forall_lookup_1 _ _ _ _ Hfin Ht) as Hdone.
  specialize (Hth i m u s t Hr Ht).
  assert (Hcases :
    (t = Ret (Some false) /\ ~ (m ∈ movies (db w) /\ u ∈ users (db w))) \/
    (vacant (m, s) (reservations (db (world c))) = false /\
     (t = Ret (Some false) \/ (t = Ret (Some true) /\ bookable)))).
  { destruct Hth as [Hst|(Hv & [->|(-> & (Hm & Hu) & Hv0)])].
    - left. destruct t as [r| | | |]; cbn in Hst, Hdone; try done.
      destruct Hst as [-> Hinv]. by split.
    - right. auto.
    - right. split; [exact Hv|]. right. by repeat split. }
  split; [|split].
  - destruct Hcases as [(-> & _)|(_ & [->|(-> & _)])]; auto.
  - intros [= ->]. by destruct Hcases as [(Hx & _)|(_ & [Hx|(_ & Hb)])].
  - intros (Hm & Hu & Hv0).
    destruct Hcases as [(_ & Hinv)|(Hv & _)]; [by destruct Hinv|].
    destruct (Hwin m s Hv0 Hv) as (j & u' & Hrj & Htj).
    exists j, u'. split; [exact Hrj|]. split; [exact Htj|].
    intros j' u'' Hrj' Htj'.
    destruct (pool_of_bookings requests w schedule) as [_ Hone].
    destruct (Hone m s) as (_ & _ & Huniq). fold c in Huniq.
    apply (Huniq j' j u'' u'); try done.
    + unfold bookings. by rewrite list_lookup_fmap, Hrj'.
    + unfold bookings. by rewrite list_lookup_fmap, Hrj.
Qed.

Lemma healthy_bookings_one_winner_witness :
  let requests := [("Dune", 7%N, "A1"); ("Dune", 8%N, "A1"); ("Dune", 7%N, "A1")] in
  let c := run_schedule [0; 1; 2; 2; 1; 0; 1; 0; 2; 0; 2; 1]%nat
             (mkConfig (call <$> bookings requests) (demo_world []) []) in
  exists j u', requests !! j = Some ("Dune", u', "A1") /\
               threads c !! j = Some (Ret (Some true)) /\
               forall j' u'', requests !! j' = Some ("Dune", u'', "A1") ->
                 threads c !! j' = Some (Ret (Some true)) -> j' = j.
Proof.
  intros requests c.
  assert (Hfin : Forall is_finished (threads c))
    by (subst c requests; vm_compute; repeat constructor).
  destruct (healthy_bookings_one_winner requests (demo_world [])
              [0; 1; 2; 2; 1; 0; 1; 0; 2; 0; 2; 1]%nat eq_refl Hfin
              0%nat "Dune" 7%N "A1" eq_refl) as (_ & _ & H).
  apply H. repeat split; vm_compute; reflexivity || (by apply bool_decide_eq_true_1).
Defined.

(** ** The two methods on a store that answers every call *)

Lemma hit_movie_healthy (m : string) (w : World) :
  faults w = [] ->
  hit (session_execute (movie_check_stmt m) w).1 = bool_decide (m ∈ movies (db w)).
Proof. intros H. by rewrite hit_movie_check, H. Qed.

Lemma hit_user_healthy (u : uuid) (w : World) :
  faults w = [] ->
  hit (session_execute (user_check_by_id_stmt u) w).1 = bool_decide (u ∈ users (db w)).
Proof. intros H. by rewrite hit_user_check, H. Qed.

(** X8: On a store that answers every call the two methods decide by the tables
    alone, in their first attempt and without a pause.  [make_reservation]
    returns [True] exactly when movie and user exist and the seat is vacant,
    and [False] otherwise, after at most three calls.  [update_reservation]
    returns [True] exactly when movie and user exist, the current seat is the
    user's and the new seat is the current one or vacant, and [False]
    otherwise, after at most five calls; the rollback is never issued. *)
Theorem healthy_store_results (w : World) :
  faults w = [] ->
  (forall m u s,
     let r := run (make_reservation m u s) w in
     outcome r = Returns (Some (can_book (db w) m u s)) /\
     (length (events r) <= 3)%nat /\
     Forall answered_call (events r)) /\
  (forall m cur new u,
     let r := run (update_reservation m cur new u) w in
     outcome r = Returns (Some (can_move (db w) m cur new u)) /\
     (length (events r) <= 5)%nat /\
     Forall answered_call (events r) /\
     Forall (λ ev, spares (m, new) ev \/ ~ is_delete ev) (events r)).
Proof.
  intros Hw. split.
  - intros m u s r. subst r. rewrite run_make_reservation. unfold can_book.
    set (movie_read := session_execute (movie_check_stmt m) w).
    set (user_read := session_execute (user_check_by_id_stmt u) movie_read.2).
    assert (Hf1 : faults movie_read.2 = [])
      by (subst movie_read; by rewrite session_execute_faults, Hw).
    assert (Hd1 : db movie_read.2 = db w)
      by (subst movie_read; by rewrite session_execute_select).
    assert (Hd2 : db user_read.2 = db w)
      by (subst user_read; by rewrite session_execute_select).
    assert (Hr1 : movie_read.1 = Returned (cql (movie_check_stmt m) (db w)).1)
      by (subst movie_read; by rewrite session_execute_healthy).
    assert (Hr2 : user_read.1 = Returned (cql (user_check_by_id_stmt u) (db w)).1)
      by (subst user_read; by rewrite session_execute_healthy, Hd1).
    assert (Hh1 : hit movie_read.1 = bool_decide (m ∈ movies (db w)))
      by (subst movie_read; by apply hit_movie_healthy).
    assert (Hh2 : hit user_read.1 = bool_decide (u ∈ users (db w)))
      by (subst user_read; rewrite hit_user_healthy by exact Hf1; by rewrite Hd1).
    rewrite Hh1, Hh2.
    destruct (bool_decide (m ∈ movies (db w))); cbn [andb].
    2: { cbn [outcome events]. rewrite Hr1. split; [done|]. split; [cbn; lia|].
         repeat constructor. }
    destruct (bool_decide (u ∈ users (db w))); cbn [andb].
    2: { cbn [outcome events]. rewrite Hr1, Hr2. split; [done|]. split; [cbn; lia|].
         repeat constructor. }
    set (w2 := (read_clock user_read.2).2).
    assert (Hf2 : faults w2 = []).
    { subst w2 user_read. cbn [read_clock snd faults].
      by rewrite session_execute_faults, Hf1. }
    assert (Hd3 : db w2 = db w) by exact Hd2.
    cbn [outcome events]. unfold range, max_retries. rewrite run_for_in_seq.
    destruct (run_book_attempt m u s (clock w (readings w)) 0 w2)
      as [(b & Hx & ->)|(e & Hx & _)].
    2: { rewrite session_execute_healthy in Hx by exact Hf2. discriminate Hx. }
    cbn [outcome events]. rewrite Hr1, Hr2, Hx.
    apply session_execute_returned in Hx as [Hx _].
    rewrite cql_insert, Hd3 in Hx.
    split; [|split; [rewrite length_app; cbn; lia|]].
    + destruct (vacant (m, s) (reservations (db w))); by injection Hx as <-.
    + repeat constructor.
  - intros m cur new u r. subst r. rewrite run_update_reservation. unfold can_move.
    set (movie_read := session_execute (movie_check_stmt m) w).
    set (user_read := session_execute (user_check_by_id_stmt u) movie_read.2).
    set (w2 := (read_clock user_read.2).2).
    set (chk := reservation_check_stmt m cur).
    set (check := session_execute chk w2).
    assert (Hf1 : faults movie_read.2 = [])
      by (subst movie_read; by rewrite session_execute_faults, Hw).
    assert (Hd1 : db movie_read.2 = db w)
      by (subst movie_read; by rewrite session_execute_select).
    assert (Hd2 : db user_read.2 = db w)
      by (subst user_read; by rewrite session_execute_select).
    assert (Hf2 : faults w2 = []).
    { subst w2 user_read. cbn [read_clock snd faults].
      by rewrite session_execute_faults, Hf1. }
    assert (Hd3 : db check.2 = db w).
    { subst check w2. rewrite session_execute_select by reflexivity. exact Hd2. }
    assert (Hf3 : faults check.2 = [])
      by (subst check; by rewrite session_execute_faults, Hf2).
    assert (Hr1 : movie_read.1 = Returned (cql (movie_check_stmt m) (db w)).1)
      by (subst movie_read; by rewrite session_execute_healthy).
    assert (Hr2 : user_read.1 = Returned (cql (user_check_by_id_stmt u) (db w)).1)
      by (subst user_read; by rewrite session_execute_healthy, Hd1).
    assert (Hr3 : check.1 = Returned (cql chk (db w)).1).
    { subst check. rewrite session_execute_healthy by exact Hf2. cbn [fst].
      by rewrite Hd3 || (subst w2; cbn [read_clock snd db]; by rewrite Hd2). }
    assert (Hh1 : hit movie_read.1 = bool_decide (m ∈ movies (db w)))
      by (subst movie_read; by apply hit_movie_healthy).
    assert (Hh2 : hit user_read.1 = bool_decide (u ∈ users (db w)))
      by (subst user_read; rewrite hit_user_healthy by exact Hf1; by rewrite Hd1).
    rewrite Hh1, Hh2.
    destruct (bool_decide (m ∈ movies (db w))); cbn [andb].
    2: { cbn [outcome events]. rewrite Hr1. split; [done|]. split; [cbn; lia|].
         split; [repeat (constructor; [exact I|]); constructor|
                repeat (constructor; [by left|]); constructor]. }
    destruct (bool_decide (u ∈ users (db w))); cbn [andb].
    2: { cbn [outcome events]. rewrite Hr1, Hr2. split; [done|]. split; [cbn; lia|].
         split; [repeat (constructor; [exact I|]); constructor|
                repeat (constructor; [by left|]); constructor]. }
    rewrite Hr3.
    assert (Hreads : forall evs : list Event,
      Forall answered_call evs ->
      Forall (λ ev, spares (m, new) ev \/ ~ is_delete ev) evs ->
      Forall answered_call
        (([Executed (movie_check_stmt m) movie_read.1;
           Executed (user_check_by_id_stmt u) user_read.1] ++
          [Executed chk (Returned (cql chk (db w)).1)]) ++ evs) /\
      Forall (λ ev, spares (m, new) ev \/ ~ is_delete ev)
        (([Executed (movie_check_stmt m) movie_read.1;
           Executed (user_check_by_id_stmt u) user_read.1] ++
          [Executed chk (Returned (cql chk (db w)).1)]) ++ evs)).
    { intros evs H1 H2. rewrite Hr1, Hr2. split.
      - apply Forall_app. split; [|exact H1].
        repeat (constructor; [exact I|]). constructor.
      - apply Forall_app. split; [|exact H2].
        repeat (constructor; [by left|]). constructor. }
    destruct (stored (m, cur) (reservations (db w))) as [|orig others] eqn:Hcur.
    { cbn [outcome events]. split; [done|]. split; [cbn; lia|].
      rewrite <- (app_nil_r (_ ++ _)). apply Hreads; constructor. }
    destruct (bool_decide (user_id orig = u)) eqn:Hown; cbn [andb].
    2: { cbn [outcome events]. split; [done|]. split; [cbn; lia|].
         rewrite <- (app_nil_r (_ ++ _)). apply Hreads; constructor. }
    apply bool_decide_eq_true_1 in Hown.
    destruct (bool_decide (new = cur)) eqn:Hne; cbn [orb].
    { cbn [outcome events]. split; [done|]. split; [cbn; lia|].
      rewrite <- (app_nil_r (_ ++ _)). apply Hreads; constructor. }
    apply bool_decide_eq_false_1 in Hne.
    cbn [outcome events]. unfold range, max_retries. rewrite run_for_in_seq.
    set (claim := reservation_insert_stmt m u new (creation orig) (clock w (readings w))).
    set (release := reservation_delete_stmt m cur u).
    assert (Hspare : spares (m, new) (Executed release (Returned [AppliedRow true]))).
    { subst release. cbn. intros [= ->]. by apply Hne. }
    destruct (run_transfer_attempt m cur new u (creation orig) (clock w (readings w))
                0 check.2)
      as [(e & H1 & _)|[(H1 & ->)|(H1 & [(e & H2 & _)|[(H2 & ->)|(H2 & _)]])]];
      fold claim release in H1; try fold claim release in H2.
    + rewrite session_execute_healthy in H1 by exact Hf3. discriminate H1.
    + cbn [outcome events]. fold claim. rewrite H1.
      apply session_execute_returned in H1 as [H1 _]. subst claim.
      rewrite cql_insert, Hd3 in H1.
      split; [|split; [rewrite !length_app; cbn; lia|]].
      * destruct (vacant (m, new) (reservations (db w))); [discriminate H1|done].
      * apply Hreads; (constructor; [|constructor]); [exact I|by right; intros []].
    + rewrite session_execute_healthy in H2; [discriminate H2|].
      by rewrite session_execute_faults, Hf3.
    + cbn [outcome events]. fold claim release. rewrite H1, H2.
      apply session_execute_returned in H1 as [H1 _]. subst claim.
      rewrite cql_insert, Hd3 in H1.
      split; [|split; [rewrite !length_app; cbn; lia|]].
      * destruct (vacant (m, new) (reservations (db w))); [done|discriminate H1].
      * apply Hreads; [repeat (constructor; [exact I|]); constructor|].
        constructor; [by right; intros []|].
        constructor; [left; exact Hspare|constructor].
    + exfalso. apply session_execute_returned in H1 as [H1 Hdb1].
      subst claim. rewrite cql_insert in H1, Hdb1.
      destruct (vacant (m, new) (reservations (db check.2))); [|discriminate H1].
      cbn [snd] in Hdb1.
      apply session_execute_returned in H2 as [H2 _]. rewrite Hdb1 in H2.
      subst release. rewrite (cql_delete_owned m cur u _ orig others) in H2;
        [discriminate H2| |exact Hown].
      cbn [reservations set_reservations]. rewrite Hd3.
      rewrite stored_app, stored_singleton_ne, app_nil_r; [exact Hcur|].
      unfold key_of. cbn. congruence.
Qed.

Lemma healthy_store_results_witness :
  outcome (run (make_reservation "Dune" 7%N "A1") (demo_world [])) =
    Returns (Some true) /\
  outcome (run (update_reservation "Dune" "A1" "B2" 7%N) (booked_world [])) =
    Returns (Some true) /\
  outcome (run (update_reservation "Dune" "A1" "B2" 8%N) (booked_world [])) =
    Returns (Some false).
Proof.
  destruct (healthy_store_results (demo_world []) eq_refl) as [Hbook _].
  destruct (healthy_store_results (booked_world []) eq_refl) as [_ Hmove].
  destruct (Hbook "Dune" 7%N "A1") as [-> _].
  destruct (Hmove "Dune" "A1" "B2" 7%N) as [-> _].
  destruct (Hmove "Dune" "A1" "B2" 8%N) as [-> _].
  repeat split; vm_compute; reflexivity.
Defined.

(** ** The rollback of a transfer *)

Lemma not_delete_not_releases (k : Key) (evs : list Event) :
  Forall (λ ev, ~ is_delete ev) evs -> Forall (λ ev, ~ releases k ev) evs.
Proof.
  intros H. eapply Forall_impl; [exact H|].
  intros [st r|d] Hev; [|by intros []].
  destruct st; first [by intros []|intros _; by apply Hev].
Qed.

(** The loop of a transfer whose current seat holds the caller's row: no
    attempt comes to the rollback. *)
Lemma transfer_loop_no_rollback (m cur new : string) (u : uuid)
      (created now : datetime) :
  forall (n a : nat) (w : World) (orig : Reservation) (others : list Reservation),
    new <> cur ->
    stored (m, cur) (reservations (db w)) = orig :: others ->
    user_id orig = u ->
    Forall (λ ev, ~ releases (m, new) ev)
      (events (run (for_in (seq a n) (transfer_attempt m cur new u created now)
                           (Ret None)) w)).
Proof.
  induction n as [|n IH]; intros a w orig others Hne Hcur Hown; [constructor|].
  destruct (vacant (m, new) (reservations (db w))) eqn:Hvac.
  2: { apply not_delete_not_releases.
       by destruct (transfer_loop_occupied m cur new u created now (S n) a w Hvac)
         as (_ & _ & H). }
  rewrite run_for_in_seq.
  set (claim := reservation_insert_stmt m u new created now).
  set (release := reservation_delete_stmt m cur u).
  set (row := mkReservation m new u created now).
  set (d1 := set_reservations (db w) (reservations (db w) ++ [row])).
  assert (Hcql : (cql claim (db w)).2 = d1)
    by (subst claim; rewrite cql_insert, Hvac; reflexivity).
  assert (Hkey : key_of row ≠ (m, cur))
    by (intros Hk; apply Hne; subst row; unfold key_of in Hk; cbn in Hk; congruence).
  assert (Hcur1 : stored (m, cur) (reservations d1) = orig :: others).
  { subst d1. cbn [reservations set_reservations].
    rewrite stored_app, stored_singleton_ne, app_nil_r by exact Hkey. exact Hcur. }
  assert (Hocc1 : vacant (m, new) (reservations d1) = false).
  { subst d1. cbn [reservations set_reservations]. unfold vacant.
    rewrite stored_app, stored_singleton_eq by reflexivity.
    apply vacant_stored in Hvac. by rewrite Hvac. }
  assert (Hrel : cql release d1 =
            ([AppliedRow true],
             set_reservations (db w)
               (filter (λ x, key_of x ≠ (m, cur)) (reservations (db w) ++ [row]))))
    by (subst release; rewrite (cql_delete_owned _ _ _ _ _ _ Hcur1 Hown); reflexivity).
  assert (Hocc2 : vacant (m, new) (reservations (cql release d1).2) = false).
  { rewrite Hrel. cbn [snd reservations set_reservations]. unfold vacant.
    rewrite stored_released_ne by congruence.
    rewrite stored_app, stored_singleton_eq by reflexivity.
    apply vacant_stored in Hvac. by rewrite Hvac. }
  assert (Hc : forall reply, ~ releases (m, new) (Executed claim reply))
    by (intros reply []).
  assert (Hr : forall reply, ~ releases (m, new) (Executed release reply)).
  { intros reply. subst release. cbn. intros [= ->]. by apply Hne. }
  destruct (run_transfer_attempt m cur new u created now a w)
    as [(e & H1 & ->)|[(H1 & ->)|(H1 & [(e & H2 & ->)|[(H2 & ->)|(H2 & _)]])]];
    fold claim release in H1 |- *; try fold claim release in H2.
  - rewrite run_retry_or_raise.
    destruct (cas_unknown e && (a <? max_retries - 1)%nat); run_step.
    2: { constructor; [apply Hc|constructor]. }
    constructor; [apply Hc|]. constructor; [by intros []|].
    destruct (session_execute_db claim w) as [Hdb|Hdb].
    + rewrite <- Hdb in Hcur. by apply (IH (S a) _ orig others).
    + rewrite Hcql in Hdb. rewrite <- Hdb in Hocc1. apply not_delete_not_releases.
      by destruct (transfer_loop_occupied m cur new u created now n (S a) _ Hocc1)
        as (_ & _ & H).
  - run_step. constructor; [apply Hc|constructor].
  - apply session_execute_returned in H1 as [_ H1]. rewrite Hcql in H1.
    rewrite run_retry_or_raise.
    destruct (cas_unknown e && (a <? max_retries - 1)%nat); run_step.
    2: { constructor; [apply Hc|]. constructor; [apply Hr|constructor]. }
    constructor; [apply Hc|]. constructor; [apply Hr|]. constructor; [by intros []|].
    assert (Hocc : vacant (m, new)
              (reservations (db (session_execute release (session_execute claim w).2).2))
              = false).
    { destruct (session_execute_db release (session_execute claim w).2) as [Hdb|Hdb];
        rewrite Hdb, H1; [exact Hocc1|exact Hocc2]. }
    apply not_delete_not_releases.
    by destruct (transfer_loop_occupied m cur new u created now n (S a) _ Hocc)
      as (_ & _ & H).
  - run_step. constructor; [apply Hc|]. constructor; [apply Hr|constructor].
  - apply session_execute_returned in H1 as [_ H1]. rewrite Hcql in H1.
    apply session_execute_returned in H2 as [H2 _]. rewrite H1, Hrel in H2.
    discriminate H2.
Qed.

(** X9: A call of [update_reservation] that runs alone never issues its rollback:
    whatever the store does, it executes no [DELETE] on the new seat.  The
    release of the current seat is refused only when somebody else took or
    removed the row between the read and the release. *)
Theorem lone_transfer_never_rolls_back (m cur new : string) (u : uuid) (w : World) :
  Forall (λ ev, ~ releases (m, new) ev)
         (events (run (update_reservation m cur new u) w)).
Proof.
  rewrite run_update_reservation.
  set (movie_read := session_execute (movie_check_stmt m) w).
  set (user_read := session_execute (user_check_by_id_stmt u) movie_read.2).
  set (w2 := (read_clock user_read.2).2).
  set (check := session_execute (reservation_check_stmt m cur) w2).
  assert (Hd3 : db check.2 = db w).
  { subst check w2. rewrite session_execute_select by reflexivity.
    cbn [read_clock snd db]. subst user_read.
    rewrite session_execute_select by reflexivity. subst movie_read.
    by rewrite session_execute_select. }
  assert (Hreads : Forall (λ ev, ~ releases (m, new) ev)
            ([Executed (movie_check_stmt m) movie_read.1;
              Executed (user_check_by_id_stmt u) user_read.1] ++
             [Executed (reservation_check_stmt m cur) check.1]))
    by (repeat (constructor; [by intros []|]); constructor).
  destruct (hit movie_read.1); [|by repeat (constructor; [by intros []|])].
  destruct (hit user_read.1); [|by repeat (constructor; [by intros []|])].
  destruct check.1 as [rows|e] eqn:Hchk; [|exact Hreads].
  destruct (stored (m, cur) (reservations (db w))) as [|orig others] eqn:Hcur;
    [exact Hreads|].
  destruct (bool_decide (user_id orig = u)) eqn:Hown; [|exact Hreads].
  apply bool_decide_eq_true_1 in Hown.
  destruct (bool_decide (new = cur)) eqn:Hne; [exact Hreads|].
  apply bool_decide_eq_false_1 in Hne.
  cbn [events]. apply Forall_app. split; [exact Hreads|].
  rewrite <- Hd3 in Hcur.
  exact (transfer_loop_no_rollback m cur new u _ _ _ 0 check.2 orig others
           Hne Hcur Hown).
Qed.

(** With a second caller in between the rollback is issued: user 7 moves from
    A1 to A2, and after the claim of A2 the row of A1 is gone (here by a
    transfer of the same user to B1, run to its end in between). *)
Example rollback_under_interleaving :
  let ops := [Transfer "Dune" "A1" "A2" 7%N; Transfer "Dune" "A1" "B1" 7%N] in
  let c := run_schedule [0; 0; 0; 0; 0; 1; 1; 1; 1; 1; 1; 0; 0]%nat
             (mkConfig (call <$> ops) (booked_world []) []) in
  threads c = [Ret (Some false); Ret (Some true)] /\
  Exists (releases ("Dune", "A2")) (history c).
Proof.
  vm_compute. split; [reflexivity|].
  do 10 apply Exists_cons_tl. apply Exists_cons_hd. reflexivity.
Qed.

(** ** A reservation and the calls of other users *)

(** [update_reservation] reads the movie, the user and the current seat,
    inserts the new seat and deletes the current or the new seat, always on
    behalf of its user; it issues nothing else. *)
Lemma issues_only_update_reservation (P : Statement -> Prop) (m cur new : string)
      (u : uuid) :
  P (movie_check_stmt m) -> P (user_check_by_id_stmt u) ->
  P (reservation_check_stmt m cur) ->
  (forall created now, P (reservation_insert_stmt m u new created now)) ->
  P (reservation_delete_stmt m cur u) -> P (reservation_delete_stmt m new u) ->
  issues_only P (update_reservation m cur new u).
Proof.
  intros Hm Hu Hc Hi Hd1 Hd2. rewrite update_reservation_unfold.
  apply issues_only_bind.
  { apply issues_only_try; [|done].
    apply issues_only_bind; [by apply issues_only_execute|done]. }
  intros [|]; cbn [negb]; [|exact I].
  apply issues_only_bind.
  { apply issues_only_try; [|done].
    apply issues_only_bind; [by apply issues_only_execute|done]. }
  intros [|]; cbn [negb]; [|exact I].
  apply issues_only_bind; [by intros t|]. intros now.
  apply issues_only_try; [|done].
  apply issues_only_bind; [by apply issues_only_execute|]. intros rows.
  destruct (negb (truthy rows)); [exact I|].
  apply issues_only_bind.
  { unfold attr_user_id. by destruct (one rows) as [[]|]. }
  intros owner. destruct (negb (bool_decide (owner = u))); [exact I|].
  destruct (bool_decide (new = cur)); [exact I|].
  apply issues_only_bind.
  { unfold attr_creation. by destruct (one rows) as [[]|]. }
  intros created.
  apply issues_only_for_in; [|exact I]. intros i. unfold transfer_attempt.
  apply issues_only_try; [|apply issues_only_retry].
  apply issues_only_bind; [by apply issues_only_execute|]. intros rs.
  apply issues_only_bind; [apply issues_only_was_applied|].
  intros [|]; cbn [negb]; [|exact I].
  apply issues_only_bind; [by apply issues_only_execute|]. intros rs'.
  apply issues_only_bind; [apply issues_only_was_applied|].
  intros [|]; [exact I|].
  apply issues_only_bind; [by apply issues_only_execute|done].
Qed.

Lemma call_not_delete_as (u : uuid) (o : Op) :
  caller o <> u -> issues_only (not_delete_as u) (call o).
Proof.
  intros Hu. destruct o as [m u' s|m cur new u']; cbn [call caller] in *.
  - by apply issues_only_make_reservation.
  - by apply issues_only_update_reservation.
Qed.

(** A stored row stays as it is under every statement but a delete on behalf
    of its user. *)
Lemma cql_keeps_row (k : Key) (row : Reservation) (rest : list Reservation)
      (st : Statement) (d : Database) :
  stored k (reservations d) = row :: rest ->
  not_delete_as (user_id row) st ->
  stored k (reservations (cql st d).2) = row :: rest.
Proof.
  intros Hk Hst.
  destruct (decide (touches st = Some k)) as [Ht|Ht];
    [|by rewrite cql_frame].
  destruct st as [m u s c md|m s|m s u|name|id| |]; cbn [touches] in Ht;
    try discriminate Ht; injection Ht as <-; cbn [cql].
  - unfold vacant. by rewrite Hk.
  - rewrite Hk. cbn [not_delete_as] in Hst.
    by rewrite bool_decide_eq_false_2 by congruence.
Qed.

Lemma session_execute_keeps_row (k : Key) (row : Reservation)
      (rest : list Reservation) (st : Statement) (w : World) :
  stored k (reservations (db w)) = row :: rest ->
  not_delete_as (user_id row) st ->
  stored k (reservations (db (session_execute st w).2)) = row :: rest.
Proof.
  intros Hk Hst.
  destruct (session_execute_db st w) as [->| ->]; [exact Hk|by apply cql_keeps_row].
Qed.

Lemma step_thread_threads_issue {A} (P : Statement -> Prop) (i : nat) (c : Config A) :
  Forall (issues_only P) (threads c) ->
  Forall (issues_only P) (threads (step_thread i c)).
Proof.
  intros Ht. unfold step_thread.
  destruct (threads c !! i) as [[a|e|st k|k|d k]|] eqn:Hi; try done.
  - pose proof (Forall_lookup_1 _ _ _ _ Ht Hi) as [Hst Hk].
    destruct (session_execute st (world c)) as [r w']. cbn [threads].
    by apply Forall_insert.
  - pose proof (Forall_lookup_1 _ _ _ _ Ht Hi) as Hk. cbn [read_clock threads].
    apply Forall_insert; [exact Ht|apply Hk].
  - pose proof (Forall_lookup_1 _ _ _ _ Ht Hi) as Hk. cbn [threads].
    by apply Forall_insert.
Qed.

Lemma step_thread_keeps_row {A} (k : Key) (row : Reservation)
      (rest : list Reservation) (i : nat) (c : Config A) :
  Forall (issues_only (not_delete_as (user_id row))) (threads c) ->
  stored k (reservations (db (world c))) = row :: rest ->
  Forall (issues_only (not_delete_as (user_id row))) (threads (step_thread i c)) /\
  stored k (reservations (db (world (step_thread i c)))) = row :: rest.
Proof.
  intros Ht Hk.
  split; [by apply step_thread_threads_issue|].
  unfold step_thread.
  destruct (threads c !! i) as [[a|e|st cont|cont|d cont]|] eqn:Hi; try exact Hk.
  pose proof (Forall_lookup_1 _ _ _ _ Ht Hi) as [Hst _].
  pose proof (session_execute_keeps_row k row rest st (world c) Hk Hst) as Hk'.
  by destruct (session_execute st (world c)).
Qed.

(** X10: A stored reservation and the calls of other users: bookings and transfers
    made on behalf of anybody but the owner, run concurrently under any
    schedule and with any faults of the store, leave the row exactly as it is.
    The seat stays the owner's; only a delete conditioned on the owner's id
    removes it, and such a delete is issued by the owner's transfers alone. *)
Theorem others_leave_reservation (ops : list Op) (w : World) (schedule : list nat)
        (k : Key) (row : Reservation) (rest : list Reservation) :
  stored k (reservations (db w)) = row :: rest ->
  Forall (λ o, caller o <> user_id row) ops ->
  let c := run_schedule schedule (mkConfig (call <$> ops) w []) in
  stored k (reservations (db (world c))) = row :: rest /\
  Forall (issued (not_delete_as (user_id row))) (history c).
Proof.
  intros Hk Hops c.
  assert (Hstart : Forall (issues_only (not_delete_as (user_id row))) (call <$> ops)).
  { apply Forall_fmap. eapply Forall_impl; [exact Hops|].
    intros o Ho. by apply call_not_delete_as. }
  split.
  - assert (Hinv : Forall (issues_only (not_delete_as (user_id row))) (threads c) /\
                   stored k (reservations (db (world c))) = row :: rest);
      [|by destruct Hinv].
    subst c. induction schedule as [|j schedule IH] using rev_ind; [done|].
    rewrite run_schedule_snoc. destruct IH as [Ht' Hk'].
    by apply step_thread_keeps_row.
  - by destruct (run_schedule_issues_only (not_delete_as (user_id row)) schedule
                   (mkConfig (call <$> ops) w []) Hstart (Forall_nil_2 _)).
Qed.

Lemma others_leave_reservation_witness :
  let ops := [Transfer "Dune" "A1" "A2" 8%N; Book "Dune" 8%N "A1";
              Transfer "Dune" "A2" "A1" 8%N] in
  let c := run_schedule [0; 1; 2; 0; 1; 2; 0; 1; 2; 0; 1; 2; 0; 1; 2]%nat
             (mkConfig (call <$> ops)
                       (booked_world [Healthy; Failure cas_timeout true]) []) in
  exists row, stored ("Dune", "A1") (reservations (db (world c))) = [row] /\
              user_id row = 7%N.
Proof.
  intros ops c.
  destruct (stored ("Dune", "A1") (reservations (db (booked_world []))))
    as [|row rest] eqn:Hrow; [discriminate Hrow|].
  assert (Hu : user_id row = 7%N) by (vm_compute in Hrow; by injection Hrow as <- _).
  assert (Hrest : rest = []) by (vm_compute in Hrow; by injection Hrow as _ <-).
  exists row. split; [|exact Hu]. rewrite <- Hrest.
  apply (others_leave_reservation ops
           (booked_world [Healthy; Failure cas_timeout true])
           [0; 1; 2; 0; 1; 2; 0; 1; 2; 0; 1; 2; 0; 1; 2]%nat
           ("Dune", "A1") row rest Hrow).
  rewrite Hu. repeat constructor; cbn; discriminate.
Defined.

(** ** The seat race *)

Lemma seat_grid_10 : NoDup (seat_grid 10) /\ length (seat_grid 10) = 100%nat.
Proof.
  split; [|reflexivity].
  apply (bool_decide_unpack _). vm_compute. exact I.
Qed.

Lemma length_slice_to {A} (l : list A) (n : Z) :
  length (slice_to l n) =
  Z.to_nat (if (0 <=? n)%Z then Z.min n (Z.of_nat (length l))
            else Z.max 0 (Z.of_nat (length l) + n)).
Proof.
  unfold slice_to. destruct (Z.leb_spec 0 n); rewrite length_take; lia.
Qed.

Lemma won_seats_distinct (requests : list (string * uuid * string)) (w : World)
      (schedule : list nat) :
  let ops := bookings requests in
  let c := run_schedule schedule (mkConfig (call <$> ops) w []) in
  NoDup (won_seats ops (threads c)).
Proof.
  intros ops c. destruct (pool_of_bookings requests w schedule) as [_ Hone].
  fold ops in Hone. fold c in Hone.
  apply NoDup_omap_lookup. intros i j [o1 t1] [o2 t2] [m s] Hi Hj H1 H2.
  apply lookup_zip_with_Some in Hi as (? & ? & [= <- <-] & Ho1 & Ht1).
  apply lookup_zip_with_Some in Hj as (? & ? & [= <- <-] & Ho2 & Ht2).
  destruct o1 as [m1 u1 s1|]; [|discriminate H1].
  destruct t1 as [[[|]|]| | | |]; try discriminate H1. injection H1 as -> ->.
  destruct o2 as [m2 u2 s2|]; [|discriminate H2].
  destruct t2 as [[[|]|]| | | |]; try discriminate H2. injection H2 as -> ->.
  destruct (Hone m s) as (_ & _ & Hd). eauto.
Qed.

(** X11: The seat race: two clients ask for every seat of the list, each in its own
    order, all calls running concurrently.  Under every schedule and whatever
    the store does, the seats the clients report as reserved hold no seat
    twice, so the test's check of double bookings passes; there are at most as
    many of them as seats in the list; and the list has [num_seats] seats,
    capped at the 100 of the grid.  (The seats are taken here in the order of
    the calls; the check and the count do not depend on the order.) *)
Theorem seat_race_no_double_bookings (num_seats : Z) (movie : string)
        (user_1 user_2 : uuid) (order_1 order_2 : list string) (w : World)
        (schedule : list nat) :
  order_1 ≡ₚ race_seats num_seats ->
  order_2 ≡ₚ race_seats num_seats ->
  let ops := bookings (seat_race movie user_1 user_2 order_1 order_2) in
  let c := run_schedule schedule (mkConfig (call <$> ops) w []) in
  let all_reserved_seats := snd <$> won_seats ops (threads c) in
  no_double_bookings all_reserved_seats = true /\
  (length all_reserved_seats <= length (race_seats num_seats))%nat /\
  length (race_seats num_seats) =
    Z.to_nat (if (0 <=? num_seats)%Z then Z.min num_seats 100
              else Z.max 0 (100 + num_seats)).
Proof.
  intros H1 H2 ops c all.
  assert (Hin : forall k, k ∈ won_seats ops (threads c) ->
            k.1 = movie /\ k.2 ∈ race_seats num_seats).
  { intros [m s] Hk. apply won_seats_spec in Hk as (i & u & Ho & _).
    cbn [fst snd] in *. subst ops. unfold bookings in Ho.
    rewrite list_lookup_fmap in Ho.
    destruct (seat_race movie user_1 user_2 order_1 order_2 !! i)
      as [[[m' u'] s']|] eqn:Hr; [|discriminate Ho].
    cbn in Ho. injection Ho as -> -> ->.
    apply list_elem_of_lookup_2 in Hr. unfold seat_race in Hr.
    apply elem_of_app in Hr as [Hr|Hr];
      apply list_elem_of_fmap in Hr as (s' & [= -> -> ->] & Hs);
      split; try reflexivity; [by rewrite <- H1|by rewrite <- H2]. }
  assert (Hnd : NoDup all).
  { subst all. apply NoDup_fmap_2_strong; [|apply won_seats_distinct].
    intros [m1 s1] [m2 s2] Hk1 Hk2 Hs. cbn in Hs. subst s2.
    apply Hin in Hk1 as [Hm1 _]. apply Hin in Hk2 as [Hm2 _]. cbn in Hm1, Hm2.
    by subst. }
  split; [|split].
  - unfold no_double_bookings. apply bool_decide_eq_true_2.
    symmetry. by apply size_list_to_set.
  - apply submseteq_length, NoDup_submseteq; [exact Hnd|].
    intros s Hs. subst all. apply list_elem_of_fmap in Hs as (k & -> & Hk).
    by apply Hin.
  - unfold race_seats. rewrite length_slice_to.
    by rewrite (proj2 seat_grid_10).
Qed.

Lemma seat_race_no_double_bookings_witness :
  let ops := bookings (seat_race "Dune" 7%N 8%N ["A1"; "A2"] ["A2"; "A1"]) in
  let c := run_schedule [0; 2; 1; 3; 3; 2; 1; 0; 0; 1; 2; 3; 3; 0; 1; 2]%nat
             (mkConfig (call <$> ops) (demo_world [Healthy; Failure cas_timeout true]) []) in
  no_double_bookings (snd <$> won_seats ops (threads c)) = true /\
  (length (snd <$> won_seats ops (threads c)) <= 2)%nat.
Proof.
  intros ops c.
  assert (Hs : race_seats 2 = ["A1"; "A2"]) by (vm_compute; reflexivity).
  destruct (seat_race_no_double_bookings 2 "Dune" 7%N 8%N ["A1"; "A2"] ["A2"; "A1"]
              (demo_world [Healthy; Failure cas_timeout true])
              [0; 2; 1; 3; 3; 2; 1; 0; 0; 1; 2; 3; 3; 0; 1; 2]%nat)
    as (Hcheck & Hlen & _).
  - by rewrite Hs.
  - rewrite Hs. apply perm_swap.
  - split; [exact Hcheck|]. rewrite Hs in Hlen. exact Hlen.
Defined.

(** ** The worker of the rapid-fire test *)

Lemma make_reservation_returns (m : string) (u : uuid) (s : string) (w : World) :
  exists result, outcome (run (make_reservation m u s) w) = Returns result.
Proof.
  rewrite run_make_reservation.
  destruct (hit _); [|by eexists].
  destruct (hit _); [|by eexists].
  cbn [outcome]. destruct (outcome _); by eexists.
Qed.

(** X12: One request of the rapid-fire test never counts a CAS timeout: the worker
    looks for the ambiguous error in an exception, and [make_reservation]
    raises none, a timeout included; it answers [None] or [False] then, which
    the worker takes for a plain failure.  The worker never raises, adds one
    to [success_count] exactly when [make_reservation] returned [True], and
    does at the store what [make_reservation] does. *)
Theorem make_single_request_counts (m : string) (u : uuid) (s : string)
        (cs : Counters) (w : World) :
  let r := run (make_single_request m u s cs) w in
  let booking := run (make_reservation m u s) w in
  exists cs',
    outcome r = Returns cs' /\
    cas_timeout_count cs' = cas_timeout_count cs /\
    success_count cs' =
      (success_count cs +
       match outcome booking with Returns (Some true) => 1 | _ => 0 end)%nat /\
    events r = events booking /\ final r = final booking.
Proof.
  intros r booking. subst r. unfold make_single_request.
  rewrite run_try_except, run_bind. fold booking.
  destruct (make_reservation_returns m u s w) as [result Hres]. fold booking in Hres.
  rewrite Hres. cbn [outcome final events preceded].
  destruct result as [[|]|]; cbn [truthy_result run outcome final events preceded];
    rewrite ?app_nil_r; eexists; (split; [reflexivity|]); cbn; repeat split; lia.
Qed.

(** A timeout of the insert in each of the five attempts: the booking answers
    [None], and the worker counts nothing. *)
Example make_single_request_timeout :
  let w := demo_world [Healthy; Healthy; Failure cas_timeout false;
                       Failure cas_timeout false; Failure cas_timeout false;
                       Failure cas_timeout false; Failure cas_timeout false] in
  outcome (run (make_reservation "Dune" 7%N "A1") w) = Returns None /\
  outcome (run (make_single_request "Dune" 7%N "A1" (mkCounters 0 0)) w) =
    Returns (mkCounters 0 0).
Proof. split; vm_compute; reflexivity. Qed.

(** ** Writes that were committed although the call raised *)

Lemma session_execute_script (st : Statement) (w : World) (f : Fault)
      (fs : list Fault) :
  faults w = f :: fs ->
  session_execute st w =
  match f with
  | Healthy =>
      (Returned (cql st (db w)).1,
       mkWorld (cql st (db w)).2 fs (clock w) (readings w))
  | Failure e committed =>
      (Raised e,
       mkWorld (if committed then (cql st (db w)).2 else db w) fs (clock w)
               (readings w))
  end.
Proof. unfold session_execute. intros ->. by destruct f. Qed.

Lemma book_loop_occupied_outcome (m : string) (u : uuid) (s : string)
      (now : datetime) :
  forall (n a : nat) (w : World),
    vacant (m, s) (reservations (db w)) = false ->
    let r := run (for_in (seq a n) (book_attempt m u s now) (Ret (Some false))) w in
    (outcome r = Returns (Some false) \/ exists e, outcome r = Raises e) /\
    (answered (faults w !! 0%nat) = true -> outcome r = Returns (Some false)).
Proof.
  induction n as [|n IH]; intros a w Hocc r; subst r; [by split; [left|]|].
  rewrite run_for_in_seq.
  destruct (session_execute_insert_occupied m u s now now w Hocc) as [Hdb Hno].
  pose proof (session_execute_answered (reservation_insert_stmt m u s now now) w)
    as Hans.
  destruct (run_book_attempt m u s now a w) as [(b & Hx & ->)|(e & Hx & ->)].
  - run_step. destruct b; [by destruct (Hno Hx)|]. by split; [left|].
  - rewrite Hx in Hans. rewrite run_retry_or_raise.
    destruct (cas_unknown e && (a <? max_retries - 1)%nat); run_step.
    + rewrite <- Hdb in Hocc. destruct (IH (S a) _ Hocc) as [Ho _].
      split; [exact Ho|]. intros H. rewrite H in Hans. discriminate Hans.
    + split; [right; eauto|]. intros H. rewrite H in Hans. discriminate Hans.
Qed.

(** X13: A booking whose first insert raises although the store committed it: the
    caller is never told [True] and no error reaches it; the answer is [None]
    when the error is not the ambiguous one, and [False] when it is and the
    store answers the insert that is tried again, for then the seat is found
    taken, by the row of this very call; in every case the answer is [False]
    or [None].  Yet the seat is booked for the caller from then on. *)
Theorem committed_insert_is_not_reported (m : string) (u : uuid) (s : string)
        (w : World) (e : string) (fs : list Fault) :
  faults w = Healthy :: Healthy :: Failure e true :: fs ->
  m ∈ movies (db w) -> u ∈ users (db w) ->
  vacant (m, s) (reservations (db w)) = true ->
  let r := run (make_reservation m u s) w in
  let now := clock w (readings w) in
  (outcome r = Returns (Some false) \/ outcome r = Returns None) /\
  (~ ambiguous e -> outcome r = Returns None) /\
  (ambiguous e -> answered (fs !! 0%nat) = true -> outcome r = Returns (Some false)) /\
  db (final r) =
    set_reservations (db w) (reservations (db w) ++ [mkReservation m s u now now]).
Proof.
  intros Hf Hm Hu Hv r now. subst r. rewrite run_make_reservation. fold now.
  rewrite (session_execute_script _ w _ _ Hf). cbn [fst snd cql hit].
  rewrite (bool_decide_eq_true_2 _ Hm). cbn [truthy].
  match goal with |- context [session_execute ?st (mkWorld ?d ?l ?c ?n)] =>
    rewrite (session_execute_script st (mkWorld d l c n) _ _ eq_refl) end.
  cbn [fst snd cql hit db]. rewrite (bool_decide_eq_true_2 _ Hu). cbn [truthy].
  cbn [read_clock snd db faults clock readings outcome final].
  set (w2 := mkWorld (db w) (Failure e true :: fs) (clock w) (S (readings w))).
  set (st := reservation_insert_stmt m u s now now).
  unfold range, max_retries. rewrite run_for_in_seq.
  pose proof (session_execute_script st w2 _ _ eq_refl) as Hx.
  subst st. rewrite cql_insert in Hx. cbn [db w2] in Hx. rewrite Hv in Hx.
  cbn [snd] in Hx.
  destruct (run_book_attempt m u s now 0 w2) as [(b & Hb & _)|(e' & He & ->)].
  { rewrite Hx in Hb. discriminate Hb. }
  rewrite Hx in He |- *. cbn [fst snd] in He |- *. injection He as <-.
  rewrite run_retry_or_raise.
  change (0 <? max_retries - 1)%nat with true. rewrite andb_true_r.
  destruct (cas_unknown e) eqn:Hc; run_step.
  2: { split; [by right|]. split; [done|]. split; [|done].
       intros Hamb. apply cas_unknown_spec in Hamb. congruence. }
  match goal with |- context [run _ ?w3] =>
    destruct (book_loop_occupied m u s now 4 1 w3) as [Hd _];
    [|destruct (book_loop_occupied_outcome m u s now 4 1 w3) as [Ho Hans]]
  end.
  1, 2: cbn [db reservations set_reservations]; rewrite vacant_after_insert;
        by rewrite bool_decide_eq_true_2.
  cbn [faults] in Hans.
  split; [|split; [|split; [|exact Hd]]].
  - destruct Ho as [->|[e' ->]]; auto.
  - intros Hamb. apply cas_unknown_spec in Hc. by destruct Hamb.
  - intros _ Hfs. by rewrite (Hans Hfs).
Qed.

Lemma committed_insert_is_not_reported_witness :
  let r := run (make_reservation "Dune" 7%N "A1")
               (demo_world [Healthy; Healthy; Failure cas_timeout true]) in
  outcome r = Returns (Some false) /\
  reservations (db (final r)) = [mkReservation "Dune" "A1" 7%N 1000%Z 1000%Z].
Proof.
  intros r.
  destruct (committed_insert_is_not_reported "Dune" 7%N "A1"
              (demo_world [Healthy; Healthy; Failure cas_timeout true])
              cas_timeout [] eq_refl) as (_ & _ & Ho & Hd).
  - apply (bool_decide_unpack _). vm_compute. exact I.
  - apply (bool_decide_unpack _). vm_compute. exact I.
  - reflexivity.
  - split; [|fold r in Hd; by rewrite Hd]. apply Ho; [|reflexivity].
    exists "WriteTimeout: ", " - proposal accepted by 1 but not a quorum".
    reflexivity.
Defined.

Lemma transfer_loop_occupied_outcome (m cur new : string) (u : uuid)
      (created now : datetime) :
  forall (n a : nat) (w : World),
    (a + n = max_retries)%nat -> (0 < n)%nat ->
    vacant (m, new) (reservations (db w)) = false ->
    let r := run (for_in (seq a n) (transfer_attempt m cur new u created now)
                         (Ret None)) w in
    outcome r = Returns (Some false) \/ exists e, outcome r = Raises e.
Proof.
  induction n as [|n IH]; intros a w Han Hn Hocc r; subst r; [lia|].
  rewrite run_for_in_seq.
  destruct (session_execute_insert_occupied m u new created now w Hocc) as [Hdb Hno].
  destruct (run_transfer_attempt m cur new u created now a w)
    as [(e & H1 & ->)|[(H1 & ->)|(H1 & _)]]; [| |by destruct (Hno H1)].
  - rewrite run_retry_or_raise.
    destruct (a <? max_retries - 1)%nat eqn:Ha; [|rewrite andb_false_r; run_step; eauto].
    apply Nat.ltb_lt in Ha.
    destruct (cas_unknown e); cbn [andb]; run_step; [|eauto].
    rewrite <- Hdb in Hocc. apply (IH (S a)); [lia|lia|exact Hocc].
  - run_step. by left.
Qed.

(** X14: A transfer whose claim raises although the store committed it, or whose
    release raises: the method returns [False], and what was committed stays.
    When the claim raises after the store committed it, the user ends with
    both seats.  When the release raises, the user ends with both seats if the
    store did not commit it; if it did, the transfer is complete although it
    is reported as failed.  (A claim that raises the ambiguous error without
    having been committed is simply tried again, and may then succeed.) *)
Theorem raised_write_of_transfer_stays (m cur new : string) (u : uuid) (w : World)
        (orig : Reservation) (others : list Reservation) (fs : list Fault) :
  m ∈ movies (db w) -> u ∈ users (db w) ->
  stored (m, cur) (reservations (db w)) = orig :: others -> user_id orig = u ->
  new <> cur -> vacant (m, new) (reservations (db w)) = true ->
  let r := run (update_reservation m cur new u) w in
  let row := mkReservation m new u (creation orig) (clock w (readings w)) in
  let both := set_reservations (db w) (reservations (db w) ++ [row]) in
  let moved :=
    set_reservations (db w)
      (filter (λ x, key_of x ≠ (m, cur)) (reservations (db w) ++ [row])) in
  (forall e,
     faults w = Healthy :: Healthy :: Healthy :: Failure e true :: fs ->
     outcome r = Returns (Some false) /\ db (final r) = both) /\
  (forall e committed,
     faults w = Healthy :: Healthy :: Healthy :: Healthy :: Failure e committed :: fs ->
     outcome r = Returns (Some false) /\
     db (final r) = if committed then moved else both).
Proof.
  intros Hm Hu Hcur Hown Hne Hv r row both moved.
  set (now := clock w (readings w)) in *.
  set (claim := reservation_insert_stmt m u new (creation orig) now).
  set (release := reservation_delete_stmt m cur u).
  assert (Hkey : key_of row ≠ (m, cur))
    by (intros Hk; apply Hne; subst row; unfold key_of in Hk; cbn in Hk; congruence).
  assert (Hcur1 : stored (m, cur) (reservations both) = orig :: others).
  { unfold both. cbn [reservations set_reservations].
    rewrite stored_app, stored_singleton_ne, app_nil_r by exact Hkey. exact Hcur. }
  assert (Hocc1 : vacant (m, new) (reservations both) = false).
  { unfold both, row. cbn [reservations set_reservations].
    rewrite vacant_after_insert. by rewrite bool_decide_eq_true_2. }
  assert (Hrel : cql release both = ([AppliedRow true], moved))
    by (subst release; rewrite (cql_delete_owned _ _ _ _ _ _ Hcur1 Hown); reflexivity).
  assert (Hocc2 : vacant (m, new) (reservations moved) = false).
  { unfold moved. cbn [reservations set_reservations]. unfold vacant.
    rewrite stored_released_ne by congruence.
    rewrite stored_app, stored_singleton_eq by reflexivity.
    apply vacant_stored in Hv. by rewrite Hv. }
  assert (Hclaim : cql claim (db w) = ([AppliedRow true], both))
    by (subst claim; rewrite cql_insert, Hv; reflexivity).
  assert (Hstart : forall f4 rest,
    faults w = Healthy :: Healthy :: Healthy :: f4 :: rest ->
    r = let loop := run (for_in (range max_retries)
                           (transfer_attempt m cur new u (creation orig) now)
                           (Ret None))
                        (mkWorld (db w) (f4 :: rest) (clock w) (S (readings w))) in
        mkRun (match outcome loop with
               | Returns a => Returns a
               | Raises _ => Returns (Some false)
               end)
              (final loop)
              (([Executed (movie_check_stmt m) (Returned [MovieRow m]);
                 Executed (user_check_by_id_stmt u) (Returned [UserRow u])] ++
                [Executed (reservation_check_stmt m cur)
                   (Returned ((λ r, ReservationRow (user_id r) (creation r)) <$>
                              (orig :: others)))]) ++ events loop)).
  { intros f4 rest Hf. subst r. rewrite run_update_reservation. fold now.
    rewrite (session_execute_script _ w _ _ Hf). cbn [fst snd cql hit].
    rewrite (bool_decide_eq_true_2 _ Hm). cbn [truthy].
    match goal with |- context [session_execute ?st (mkWorld ?d ?l ?c ?n)] =>
      rewrite (session_execute_script st (mkWorld d l c n) _ _ eq_refl) end.
    cbn [fst snd cql hit db]. rewrite (bool_decide_eq_true_2 _ Hu). cbn [truthy].
    cbn [read_clock snd db faults clock readings].
    match goal with |- context [session_execute ?st (mkWorld ?d ?l ?c ?n)] =>
      rewrite (session_execute_script st (mkWorld d l c n) _ _ eq_refl) end.
    cbn [fst snd cql db clock readings]. rewrite Hcur.
    rewrite (bool_decide_eq_true_2 _ Hown).
    rewrite (bool_decide_eq_false_2 _ Hne). reflexivity. }
  assert (Hrest : forall w', vacant (m, new) (reservations (db w')) = false ->
    let loop := run (for_in (seq 1 4)
                       (transfer_attempt m cur new u (creation orig) now) (Ret None)) w' in
    match outcome loop with Returns x => Returns x | Raises _ => Returns (Some false) end
      = Returns (Some false) /\ db (final loop) = db w').
  { intros w' Hocc loop.
    destruct (transfer_loop_occupied m cur new u (creation orig) now 4 1 w' Hocc)
      as (Hd & _ & _). fold loop in Hd. split; [|exact Hd].
    destruct (transfer_loop_occupied_outcome m cur new u (creation orig) now 4 1 w'
                eq_refl ltac:(lia) Hocc) as [Ho|[e Ho]]; fold loop in Ho;
      by rewrite Ho. }
  split.
  - intros e Hf. rewrite (Hstart _ _ Hf). cbv zeta. cbn [outcome final].
    set (w3 := mkWorld (db w) (Failure e true :: fs) (clock w) (S (readings w))).
    unfold range, max_retries. rewrite run_for_in_seq.
    pose proof (session_execute_script claim w3 _ _ eq_refl) as Hx.
    cbn [db w3] in Hx. rewrite Hclaim in Hx. cbn [snd] in Hx.
    destruct (run_transfer_attempt m cur new u (creation orig) now 0 w3)
      as [(e' & H1 & ->)|[(H1 & _)|(H1 & _)]]; fold claim in H1 |- *;
      rewrite Hx in H1; try discriminate H1.
    rewrite Hx. cbn [fst snd]. rewrite run_retry_or_raise.
    destruct (cas_unknown e' && (0 <? max_retries - 1)%nat); run_step; [|by split].
    match goal with |- context [run _ ?w4] =>
      destruct (Hrest w4 Hocc1) as [Ho Hd] end.
    split; [exact Ho|exact Hd].
  - intros e committed Hf. rewrite (Hstart _ _ Hf). cbv zeta. cbn [outcome final].
    set (w3 := mkWorld (db w) (Healthy :: Failure e committed :: fs) (clock w)
                       (S (readings w))).
    unfold range, max_retries. rewrite run_for_in_seq.
    pose proof (session_execute_script claim w3 _ _ eq_refl) as Hx.
    cbn [db w3 clock readings] in Hx. rewrite Hclaim in Hx. cbn [fst snd] in Hx.
    set (w4 := mkWorld both (Failure e committed :: fs) (clock w) (S (readings w))) in Hx.
    pose proof (session_execute_script release w4 _ _ eq_refl) as Hy.
    cbn [db w4 clock readings] in Hy. rewrite Hrel in Hy. cbn [snd] in Hy.
    destruct (run_transfer_attempt m cur new u (creation orig) now 0 w3)
      as [(e' & H1 & _)|[(H1 & _)|(H1 & [(e' & H2 & ->)|[(H2 & _)|(H2 & _)]])]];
      fold claim release in H1 |- *; try fold claim release in H2;
      rewrite Hx in H1; try discriminate H1;
      rewrite Hx in H2; cbn [snd] in H2; rewrite Hy in H2; try discriminate H2.
    rewrite Hx. cbn [fst snd]. rewrite Hy. cbn [fst snd].
    rewrite run_retry_or_raise.
    destruct (cas_unknown e' && (0 <? max_retries - 1)%nat); run_step;
      [|by split].
    match goal with |- context [run _ ?w5] =>
      destruct (Hrest w5) as [Ho Hd] end.
    { cbn [db]. by destruct committed. }
    split; [exact Ho|exact Hd].
Qed.

Lemma raised_write_of_transfer_stays_witness :
  let r := run (update_reservation "Dune" "A1" "A2" 7%N)
               (booked_world [Healthy; Healthy; Healthy; Healthy;
                              Failure cas_timeout true]) in
  outcome r = Returns (Some false) /\
  reservations (db (final r)) = [mkReservation "Dune" "A2" 7%N 1000%Z 1001%Z].
Proof.
  intros r.
  destruct (raised_write_of_transfer_stays "Dune" "A1" "A2" 7%N
              (booked_world [Healthy; Healthy; Healthy; Healthy;
                             Failure cas_timeout true])
              (mkReservation "Dune" "A1" 7%N 1000%Z 1000%Z) [] [])
    as [_ H].
  - apply (bool_decide_unpack _). vm_compute. exact I.
  - apply (bool_decide_unpack _). vm_compute. exact I.
  - reflexivity.
  - reflexivity.
  - discriminate.
  - reflexivity.
  - destruct (H cas_timeout true eq_refl) as [Ho Hd]. fold r in Ho, Hd.
    split; [exact Ho|]. by rewrite Hd.
Defined.

(** ** The health check and the tables *)

(** A program that issues only reads leaves every table as it was, and all it
    does at the store are reads. *)
Lemma run_only_selects {A} (p : Prog A) :
  issues_only (λ st, is_select st = true) p ->
  forall w, db (final (run p w)) = db w /\
            Forall (issued (λ st, is_select st = true)) (events (run p w)).
Proof.
  induction p as [a|e|st k IH|k IH|d k IH]; cbn [issues_only run]; intros Hp w.
  - by split.
  - by split.
  - destruct Hp as [Hst Hk].
    pose proof (session_execute_select st w Hst) as Hdb.
    destruct (session_execute st w) as [reply w'] eqn:Hx. cbn [snd] in Hdb.
    destruct (IH reply (Hk reply) w') as [Hd Hev].
    cbn [final events preceded]. split; [congruence|].
    constructor; [exact Hst|exact Hev].
  - cbn [read_clock]. destruct (IH _ (Hp (clock w (readings w)))
      (mkWorld (db w) (faults w) (clock w) (S (readings w)))) as [Hd Hev].
    by split.
  - cbn [final events preceded]. destruct (IH Hp w) as [Hd Hev].
    split; [exact Hd|]. constructor; [exact I|exact Hev].
Qed.

Lemma issues_only_print_peers (P : Statement -> Prop) (rows : list Row) :
  issues_only P (print_peers rows).
Proof.
  induction rows as [|row rows IH]; [exact I|]. cbn [print_peers].
  apply issues_only_bind; [by destruct row|]. intros _. exact IH.
Qed.

(** X15: [check_cluster_health] only reads: it leaves every table as it was and
    issues no insert and no delete.  Its first call is the read of
    [system.local]; when that read raises it asks nothing more, and in any
    case it makes at most two calls and never pauses. *)
Theorem check_cluster_health_only_reads (w : World) :
  let r := run check_cluster_health w in
  db (final r) = db w /\
  Forall is_read (events r) /\
  (exists reply rest, events r = Executed select_system_local reply :: rest /\
     (length rest <= 1)%nat /\
     (is_raise (Executed select_system_local reply) -> rest = [])).
Proof.
  intros r.
  assert (Hsel : issues_only (λ st, is_select st = true) check_cluster_health).
  { unfold check_cluster_health. apply issues_only_try; [|done].
    apply issues_only_bind; [by apply issues_only_execute|]. intros local_data.
    apply issues_only_bind; [by apply issues_only_execute|]. intros active_peers.
    apply issues_only_bind; [apply issues_only_print_peers|]. intros _.
    by destruct (2 <=? length active_peers + 1)%nat. }
  destruct (run_only_selects _ Hsel w) as [Hd _]. fold r in Hd.
  split; [exact Hd|]. clear Hd Hsel.
  subst r. unfold check_cluster_health.
  rewrite run_try_except, run_bind, run_execute.
  destruct (session_execute_cases select_system_local w) as
    [(e & c & rest & Hf & ->)|[Hf ->]]; run_step.
  { split; [by repeat constructor|]. eexists _, _. split; [reflexivity|].
    split; [cbn; lia|reflexivity]. }
  rewrite run_bind, run_execute.
  match goal with |- context [session_execute _ ?w1] =>
    destruct (session_execute_cases select_system_peers w1) as
      [(e & c & rest & Hf1 & ->)|[Hf1 ->]]; run_step
  end.
  { split; [by repeat constructor|]. eexists _, _. split; [reflexivity|].
    split; [cbn; lia|by intros []]. }
  rewrite run_bind, run_print_peers. run_step.
  destruct (2 <=? length _ + 1)%nat;
    cbn [outcome final events fst snd preceded app run];
    (split; [by repeat constructor|]); eexists _, _; (split; [reflexivity|]);
    (split; [cbn; lia|by intros []]).
Qed.

(** ** Every call ends after a bounded number of its own steps *)

Lemma within_0 {A} (p : Prog A) : within p 0 -> is_finished p.
Proof. by destruct p. Qed.

Lemma within_mono {A} (p : Prog A) :
  forall n m, (n <= m)%nat -> within p n -> within p m.
Proof.
  induction p as [a|e|st k IH|k IH|d k IH]; intros n m Hle; cbn; try done;
    destruct n as [|n]; try done; destruct m as [|m]; try lia;
    intros H; try intros x; eapply (IH); try apply H; lia.
Qed.

Lemma within_bind {A B} (p : Prog A) (f : A -> Prog B) (b : nat) :
  (forall x, within (f x) b) ->
  forall a, within p a -> within (bind p f) (a + b).
Proof.
  intros Hf. induction p as [x|e|st k IH|k IH|d k IH]; intros a; cbn [bind within].
  - intros _. apply (within_mono _ b); [lia|apply Hf].
  - done.
  - destruct a as [|a]; [done|]. cbn. intros H r. by apply IH.
  - destruct a as [|a]; [done|]. cbn. intros H t. by apply IH.
  - destruct a as [|a]; [done|]. cbn. intros H. by apply IH.
Qed.

Lemma within_try {A} (p : Prog A) (h : string -> Prog A) (b : nat) :
  (forall e, within (h e) b) ->
  forall a, within p a -> within (try_except p h) (a + b).
Proof.
  intros Hh. induction p as [x|e|st k IH|k IH|d k IH]; intros a;
    cbn [try_except within].
  - done.
  - intros _. apply (within_mono _ b); [lia|apply Hh].
  - destruct a as [|a]; [done|]. cbn. intros H r. by apply IH.
  - destruct a as [|a]; [done|]. cbn. intros H t. by apply IH.
  - destruct a as [|a]; [done|]. cbn. intros H. by apply IH.
Qed.

Lemma within_for_in {R} (body : nat -> Prog (LoopCtl R)) (after : Prog R)
      (cost : nat -> nat) (b : nat) :
  (forall i, within (body i) (cost i)) -> within after b ->
  forall items, within (for_in items body after) (sum_list (cost <$> items) + b).
Proof.
  intros Hb Ha. induction items as [|i items IH]; [exact Ha|].
  cbn [for_in fmap list_fmap sum_list]. rewrite <- Nat.add_assoc.
  apply within_bind; [|apply Hb]. intros [|r]; [exact IH|exact I].
Qed.

Lemma within_execute (st : Statement) : within (execute st) 1.
Proof. intros [rs|e]; exact I. Qed.

Lemma within_was_applied (rs : ResultSet) : within (was_applied rs) 0.
Proof. unfold was_applied. by destruct rs as [|[| | |b| |] [|? ?]]. Qed.

Lemma within_retry {R} (attempt : nat) (e : string) :
  within (retry_or_raise (R:=R) attempt e)
         (if (attempt <? max_retries - 1)%nat then 1 else 0).
Proof.
  unfold retry_or_raise. destruct (cas_unknown e); cbn [andb]; [|by destruct (_ <? _)%nat].
  by destruct (attempt <? max_retries - 1)%nat.
Qed.

Lemma within_exists_check (check : Statement) :
  within (try (result <- execute check;; Ret (truthy result))
          except (fun _ => Ret false)) 1.
Proof.
  refine (within_try _ _ 0 _ 1 _); [done|].
  refine (within_bind _ _ 0 _ 1 _); [done|apply within_execute].
Qed.

Lemma within_make_reservation (m : string) (u : uuid) (s : string) :
  within (make_reservation m u s) 12.
Proof.
  rewrite make_reservation_unfold.
  refine (within_bind _ _ 11 _ 1 _); [|apply within_exists_check].
  intros [|]; cbn [negb]; [|exact I].
  refine (within_bind _ _ 10 _ 1 _); [|apply within_exists_check].
  intros [|]; cbn [negb]; [|exact I].
  intros now. cbn [bind].
  refine (within_try _ _ 0 _ 9 _); [done|].
  refine (within_for_in _ _ (fun i => 1 + if (i <? max_retries - 1)%nat then 1 else 0)
            0 _ _ (range max_retries)); [|exact I].
  intros i. unfold book_attempt. apply within_try; [apply within_retry|].
  refine (within_bind _ _ 0 _ 1 _); [|apply within_execute]. intros rs.
  refine (within_bind _ _ 0 _ 0 _); [|apply within_was_applied].
  by intros [|].
Qed.

Lemma within_update_reservation (m cur new : string) (u : uuid) :
  within (update_reservation m cur new u) 23.
Proof.
  rewrite update_reservation_unfold.
  refine (within_bind _ _ 22 _ 1 _); [|apply within_exists_check].
  intros [|]; cbn [negb]; [|exact I].
  refine (within_bind _ _ 21 _ 1 _); [|apply within_exists_check].
  intros [|]; cbn [negb]; [|exact I].
  intros now. cbn [bind].
  refine (within_try _ _ 0 _ 20 _); [done|].
  refine (within_bind _ _ 19 _ 1 _); [|apply within_execute]. intros rows.
  destruct (negb (truthy rows)); [exact I|].
  refine (within_bind _ _ 19 _ 0 _).
  2: { unfold attr_user_id. by destruct (one rows) as [[]|]. }
  intros owner. destruct (negb (bool_decide (owner = u))); [exact I|].
  destruct (bool_decide (new = cur)); [exact I|].
  refine (within_bind _ _ 19 _ 0 _).
  2: { unfold attr_creation. by destruct (one rows) as [[]|]. }
  intros created.
  refine (within_for_in _ _ (fun i => 3 + if (i <? max_retries - 1)%nat then 1 else 0)
            0 _ _ (range max_retries)); [|exact I].
  intros i. unfold transfer_attempt. apply within_try; [apply within_retry|].
  refine (within_bind _ _ 2 _ 1 _); [|apply within_execute]. intros rs.
  refine (within_bind _ _ 2 _ 0 _); [|apply within_was_applied].
  intros [|]; cbn [negb]; [|exact I].
  refine (within_bind _ _ 1 _ 1 _); [|apply within_execute]. intros rs'.
  refine (within_bind _ _ 1 _ 0 _); [|apply within_was_applied].
  intros [|]; [exact I|].
  refine (within_bind _ _ 0 _ 1 _); [done|apply within_execute].
Qed.

Lemma turns_snoc (i j : nat) (schedule : list nat) :
  turns i (schedule ++ [j]) =
  (turns i schedule + if bool_decide (j = i) then 1 else 0)%nat.
Proof.
  unfold turns. rewrite filter_app, length_app. f_equal.
  case_bool_decide; [by rewrite filter_cons_True|by rewrite filter_cons_False].
Qed.

Lemma step_thread_within {A} (i j : nat) (c : Config A) (t : Prog A) (n : nat) :
  threads c !! i = Some t -> within t n ->
  exists t', threads (step_thread j c) !! i = Some t' /\
             within t' (n - if bool_decide (j = i) then 1 else 0).
Proof.
  intros Hi Hn.
  assert (Hlt : (i < length (threads c))%nat) by (eapply lookup_lt_Some; exact Hi).
  case_bool_decide as Hj.
  - subst j. unfold step_thread. rewrite Hi.
    destruct t as [a|e|st k|k|d k].
    + exists (Ret a). by split.
    + exists (Raise e). by split.
    + destruct n as [|n]; [done|]. cbn in Hn.
      destruct (session_execute st (world c)) as [r w']. cbn [threads].
      exists (k r). rewrite list_lookup_insert_eq by exact Hlt.
      split; [reflexivity|]. replace (S n - 1)%nat with n by lia. apply Hn.
    + destruct n as [|n]; [done|]. cbn in Hn. cbn [read_clock threads].
      eexists. rewrite list_lookup_insert_eq by exact Hlt.
      split; [reflexivity|]. replace (S n - 1)%nat with n by lia. apply Hn.
    + destruct n as [|n]; [done|]. cbn in Hn. cbn [threads].
      exists k. rewrite list_lookup_insert_eq by exact Hlt.
      split; [reflexivity|]. by replace (S n - 1)%nat with n by lia.
  - exists t. rewrite Nat.sub_0_r. split; [|exact Hn].
    unfold step_thread.
    destruct (threads c !! j) as [[a|e|st k|k|d k]|]; try exact Hi.
    + destruct (session_execute st (world c)) as [r w']. cbn [threads].
      by rewrite list_lookup_insert_ne.
    + cbn [read_clock threads]. by rewrite list_lookup_insert_ne.
    + cbn [threads]. by rewrite list_lookup_insert_ne.
Qed.

Lemma run_schedule_within {A} (i : nat) (schedule : list nat) (c : Config A)
      (t : Prog A) (n : nat) :
  threads c !! i = Some t -> within t n ->
  exists t', threads (run_schedule schedule c) !! i = Some t' /\
             within t' (n - turns i schedule).
Proof.
  intros Hi Hn. induction schedule as [|j schedule IH] using rev_ind.
  - exists t. cbn. rewrite Nat.sub_0_r. by split.
  - destruct IH as (t1 & H1 & Hw1). rewrite run_schedule_snoc, turns_snoc.
    destruct (step_thread_within i j _ t1 _ H1 Hw1) as (t2 & H2 & Hw2).
    exists t2. split; [exact H2|]. by rewrite Nat.sub_add_distr.
Qed.

(** X16: Every call ends after a bounded number of its own steps, whatever the
    other callers do and whatever the store answers: in a pool of concurrent
    calls, under any schedule that gives a booking 12 turns, or a transfer 23,
    that call has come to its end.  The two retry loops are bounded and no
    call waits for another. *)
Theorem calls_end_in_bounded_steps (ops : list Op) (w : World)
        (schedule : list nat) (i : nat) (o : Op) :
  ops !! i = Some o ->
  (steps_bound o <= turns i schedule)%nat ->
  let c := run_schedule schedule (mkConfig (call <$> ops) w []) in
  exists t : Prog (option bool), threads c !! i = Some t /\ is_finished t.
Proof.
  intros Ho Hturns c.
  assert (Hstart : (call <$> ops) !! i = Some (call o))
    by (by rewrite list_lookup_fmap, Ho).
  assert (Hw : within (call o) (steps_bound o)).
  { destruct o; [apply within_make_reservation|apply within_update_reservation]. }
  destruct (run_schedule_within i schedule (mkConfig (call <$> ops) w []) _ _
              Hstart Hw) as (t & Ht & Hn).
  exists t. split; [exact Ht|]. apply within_0.
  by replace (steps_bound o - turns i schedule)%nat with 0%nat in Hn by lia.
Qed.

Lemma calls_end_in_bounded_steps_witness :
  let ops := [Book "Dune" 7%N "A1"; Transfer "Dune" "A1" "A2" 7%N] in
  let schedule := concat (replicate 23 [0; 1]%nat) in
  let c := run_schedule schedule
             (mkConfig (call <$> ops) (demo_world [Healthy; Failure cas_timeout false]) []) in
  exists t : Prog (option bool), threads c !! 1%nat = Some t /\ is_finished t.
Proof.
  intros ops schedule c.
  apply (calls_end_in_bounded_steps ops _ schedule 1%nat
           (Transfer "Dune" "A1" "A2" 7%N) eq_refl).
  vm_compute. lia.
Defined.

(** ** The listing of the reservations *)

Lemma run_asks_bind {A B} (p : Asks A) (f : A -> Asks B) (answers : nat -> Answer) :
  forall n,
    run_asks (asks_bind p f) answers n =
    let r := run_asks p answers n in
    match r.1 with
    | Returns a =>
        let r' := run_asks (f a) answers (n + length r.2) in (r'.1, r.2 ++ r'.2)
    | Raises e => (Raises e, r.2)
    end.
Proof.
  induction p as [a|e|q k IH]; intros n; cbn [asks_bind run_asks fst snd length app].
  - rewrite Nat.add_0_r. by destruct (run_asks (f a) answers n).
  - reflexivity.
  - rewrite IH. cbv zeta.
    destruct (run_asks (k (answers n)) answers (S n)) as [[a|e] evs]; cbn [fst snd].
    + by replace (S n + length evs)%nat with (n + S (length evs))%nat by lia.
    + reflexivity.
Qed.

Lemma run_asks_try_give {A} (p : Asks A) (x : A) (answers : nat -> Answer) :
  forall n,
    run_asks (asks_try p (fun _ => Give x)) answers n =
    (match (run_asks p answers n).1 with
     | Returns a => Returns a
     | Raises _ => Returns x
     end, (run_asks p answers n).2).
Proof.
  induction p as [a|e|q k IH]; intros n; cbn [asks_try run_asks fst snd]; try done.
  by rewrite IH.
Qed.

Lemma run_get_user_by_id (u : uuid) (answers : nat -> Answer) (n : nat) :
  run_asks (get_user_by_id u) answers n =
  (Returns (match answers n with
            | Rows (row :: _) => Some row
            | _ => None
            end),
   [(get_user_by_id_stmt u, answers n)]).
Proof.
  unfold get_user_by_id. rewrite run_asks_try_give. cbn.
  by destruct (answers n) as [[|row rows]|e].
Qed.

Lemma run_list_rows (answers : nat -> Answer) (rs : list Reservation) :
  forall (acc : list Entry) (n : nat),
    (forall i, (i < length rs)%nat -> lookup_answer (answers (n + i)%nat)) ->
    run_asks (list_rows (to_item <$> rs) acc) answers n =
    (Returns (acc ++ imap (λ i r, entry_of r (shown_name (answers (n + i)%nat))) rs),
     imap (λ i r, (get_user_by_id_stmt (user_id r), answers (n + i)%nat)) rs).
Proof.
  induction rs as [|r rs IH]; intros acc n Hl.
  - cbn. by rewrite app_nil_r.
  - cbn [fmap list_fmap list_rows to_item item_user_id asks_bind].
    change (list_fmap Reservation Item to_item rs) with (to_item <$> rs).
    rewrite run_asks_bind, run_get_user_by_id. cbv zeta. cbn [fst snd length].
    pose proof (Hl 0%nat ltac:(cbn; lia)) as H0. rewrite Nat.add_0_r in H0.
    rewrite !imap_cons, !Nat.add_0_r.
    assert (Hname :
      forall k : string -> Asks (list Entry),
        run_asks (asks_bind match
                     match answers n with Rows (row :: _) => Some row | _ => None end
                   with
                   | Some user => item_username user
                   | None => Give "Unknown User"
                   end k) answers (n + 1)
        = run_asks (k (shown_name (answers n))) answers (n + 1)).
    { intros k. unfold shown_name, lookup_answer in *.
      destruct (answers n) as [[|[m u s c md|id name c md] rows]|e]; by cbn. }
    rewrite Hname.
    change (reservation_data (to_item r) (shown_name (answers n)))
      with (Give (A:=Entry) (entry_of r (shown_name (answers n)))).
    cbn [asks_bind].
    rewrite (IH _ (n + 1)%nat).
    2: { intros i Hi. replace (n + 1 + i)%nat with (n + S i)%nat by lia.
         apply Hl. cbn. lia. }
    cbn [fst snd app]. rewrite <- app_assoc. cbn [app]. f_equal.
    + do 2 f_equal. f_equal. apply imap_ext. intros i x _. cbn.
      by replace (n + 1 + i)%nat with (n + S i)%nat by lia.
    + f_equal. apply imap_ext. intros i x _. cbn.
      by replace (n + 1 + i)%nat with (n + S i)%nat by lia.
Qed.

(** X17: [list_all_reservations] never raises.  When the listing query raises it
    returns the empty list after that one request.  When the query is
    answered with the rows of the table it asks once for the user of each
    row, in the order of the rows and whatever the lookups answer, and
    returns one entry per row, in that order, with the columns of the row; the
    name shown is the one of the first row of the lookup, and "Unknown User"
    when the lookup raised or found nobody.  So the list is as long as the
    table, and the listing costs one request more than there are rows. *)
Theorem list_all_reservations_lists (answers : nat -> Answer) :
  let r := run_asks list_all_reservations answers 0 in
  (exists l, r.1 = Returns l) /\
  (forall e, answers 0%nat = Error e ->
     r = (Returns [], [(select_all_reservations, Error e)])) /\
  (forall rs : list Reservation,
     answers 0%nat = Rows (to_item <$> rs) ->
     (forall i, (i < length rs)%nat -> lookup_answer (answers (S i))) ->
     r.1 = Returns (imap (λ i row, entry_of row (shown_name (answers (S i)))) rs) /\
     r.2 = (select_all_reservations, answers 0%nat)
           :: imap (λ i row, (get_user_by_id_stmt (user_id row), answers (S i))) rs).
Proof.
  intros r. subst r. unfold list_all_reservations. rewrite run_asks_try_give.
  split; [|split].
  - cbn [fst]. destruct (run_asks _ answers 0).1; eauto.
  - intros e He. cbn. by rewrite He.
  - intros rs Ha Hl. cbn [fst snd]. rewrite run_asks_bind. cbn [ask run_asks fst snd].
    rewrite Ha. cbn [run_asks fst snd length Nat.add].
    destruct rs as [|row rs]; [by cbn|].
    pose proof (run_list_rows answers (row :: rs) [] 1 Hl) as Hrun.
    rewrite fmap_cons in Hrun |- *. rewrite Hrun. by cbn.
Qed.

Lemma list_all_reservations_lists_witness :
  let answers := fun n : nat =>
    match n with
    | 0 => Rows [ReservationItem "Dune" 7%N "A1" 1000%Z 1000%Z;
                 ReservationItem "Dune" 8%N "B2" 1001%Z 1002%Z]
    | 1 => Rows [UserItem 7%N "ann" 900%Z 900%Z]
    | _ => Error "OperationTimedOut"
    end in
  (run_asks list_all_reservations answers 0).1 =
  Returns [mkEntry "Dune" 7%N "ann" "A1" 1000%Z 1000%Z;
           mkEntry "Dune" 8%N "Unknown User" "B2" 1001%Z 1002%Z].
Proof.
  intros answers.
  destruct (list_all_reservations_lists answers) as (_ & _ & H).
  destruct (H [mkReservation "Dune" "A1" 7%N 1000%Z 1000%Z;
               mkReservation "Dune" "B2" 8%N 1001%Z 1002%Z] eq_refl) as [Hl _].
  - intros [|[|i]] Hi; cbn in *; try exact I; lia.
  - exact Hl.
Defined.

(** ** Loading a file of statements *)







(** The statements of a small file, and a quoted semicolon. *)
Example statements_of_examples :
  statements_of "CREATE KEYSPACE k;
  USE k ;;
" = ["CREATE KEYSPACE k"; "USE k"] /\
  statements_of "INSERT INTO t (a) VALUES ('x;y');" =
    ["INSERT INTO t (a) VALUES ('x"; "y')"] /\
  statements_of EmptyString = [].
Proof. repeat split; vm_compute; reflexivity. Qed.

(** X19: [reset_cassandra] never raises and tells its caller nothing.  It sends
    the [DROP KEYSPACE] first.  When the drop raises, nothing else is sent.
    When the drop is answered and the schema file cannot be read, nothing
    else is sent either: the keyspace is dropped and not created again.  When
    the file is read, its statements follow the drop, as [run_cql_file] sends
    them. *)
Theorem reset_cassandra_never_raises (schema_cql : string + string)
        (answers : nat -> Answer) :
  let r := run_asks (reset_cassandra schema_cql) answers 0 in
  r.1 = Returns tt /\
  (exists rest, r.2 = (cql_text drop_keyspace, answers 0%nat) :: rest) /\
  (~ is_rows (answers 0%nat) -> r.2 = [(cql_text drop_keyspace, answers 0%nat)]) /\
  (forall e, schema_cql = inr e ->
     r.2 = [(cql_text drop_keyspace, answers 0%nat)]) /\
  (forall text, schema_cql = inl text -> is_rows (answers 0%nat) ->
     r.2 = (cql_text drop_keyspace, answers 0%nat)
           :: (run_asks (run_cql_file (inl text)) answers 1).2).
Proof.
  intros r. subst r. unfold reset_cassandra. rewrite run_asks_try_give.
  rewrite run_asks_bind. cbn [ask run_asks fst snd].
  destruct (answers 0%nat) as [rows|e] eqn:H0;
    cbn [run_asks fst snd length Nat.add app].
  - split; [by destruct (run_asks _ answers 1).1 as [[]|]|].
    split; [eauto|]. split; [by intros []|]. split.
    + by intros e ->.
    + by intros text -> _.
  - split; [reflexivity|]. split; [eauto|]. split; [done|]. split; [done|].
    by intros text _ [].
Qed.
